(** * VoiceFront: the video-generation pipeline

    A shallow embedding of the JavaScript sources

    - [utils/video-history.js]   (VideoHistoryManager, the IndexedDB job history),
    - [api/assemblyai.js]        (AssemblyAIService),
    - the HeyGen service          (HeyGenService: uploadAsset, createVideo,
                                   getVideoStatus, waitForVideo),
    - [utils/audio-converter.js] (convertWebMToMP3),
    - the loading modal and the selectors read by the generator,
    - the video generator         (validate, waitForVideoWithHistory, generateVideo),

    followed by the properties the design document states about them.

    Asynchronous code is written in a small monad [Async]: a computation
    reads and writes the history store, appends the observable events it
    causes (remote calls, store calls, sleeps, UI updates) to a trace, and
    ends resolved, rejected, or still pending when the replies scripted for
    the outside world run out. *)

From Stdlib Require Import String Ascii List Bool Arith Lia DecimalString.
From Stdlib Require Import ZArith Permutation Sorted.
From Stdlib Require QArith.
Import ListNotations.
Local Open Scope list_scope.
Local Open Scope string_scope.

(* ================================================================== *)
(** * JavaScript values                                                *)
(* ================================================================== *)

Module Js.

(** An exception object: its [name] and its [message]. *)
Record Error := mkError { name : string; message : string }.

(** [new Error(m)] *)
Definition newError (m : string) : Error := mkError "Error" m.

(** The settled value of a promise: fulfilled with a value or rejected
    with an exception. *)
Inductive Result (A : Type) : Type :=
| Ok (a : A)
| Err (e : Error).
Arguments Ok {A} a.
Arguments Err {A} e.

(** A property that may be absent ([undefined] or [null]) is an [option];
    the empty string is the only falsy string. *)
Definition truthy (o : option string) : bool :=
  match o with
  | Some s => negb (s =? "")
  | None => false
  end.

(** [o || d] with a string default. *)
Definition or_else (o : option string) (d : string) : string :=
  match o with
  | Some s => if s =? "" then d else s
  | None => d
  end.

(** [o || null] *)
Definition or_null (o : option string) : option string :=
  if truthy o then o else None.

(** [a || b] where both sides may be absent. *)
Definition or_option (a b : option string) : option string :=
  if truthy a then a else b.

(** [s.includes(needle)] *)
Fixpoint includes (needle s : string) : bool :=
  String.prefix needle s ||
  match s with
  | EmptyString => false
  | String _ rest => includes needle rest
  end.

(** Decimal rendering of a non-negative integer in a template literal. *)
Definition toString (n : nat) : string :=
  NilEmpty.string_of_uint (Nat.to_uint n).

End Js.

Import Js.

(* ================================================================== *)
(** * utils/video-history.js : the job history store                   *)
(* ================================================================== *)

(** The object passed to [addVideo]. *)
Module VideoData.
Record t := mk {
  videoId : string;
  videoUrl : option string;
  status : option string;
  avatarId : option string;
  avatarName : option string;
  voiceType : option string;
  voiceName : option string;
  transcript : option string;
  duration : option string;
  thumbnailUrl : option string
}.
End VideoData.

(** A stored record.  [id] is the auto-incremented primary key of the
    object store; [videoId] is the remote job id.  [duration] is a JSON
    number that is only ever copied, kept as its literal. *)
Module Video.
Record t := mk {
  id : nat;
  videoId : string;
  videoUrl : option string;
  status : string;
  createdAt : string;
  avatarId : option string;
  avatarName : option string;
  voiceType : option string;
  voiceName : option string;
  transcript : option string;
  duration : option string;
  thumbnailUrl : option string
}.
End Video.

(** The [updates] object of [updateVideo]: [None] is an absent property,
    [Some v] a property present with value [v] (which may itself be
    undefined). *)
Module Updates.
Record t := mk {
  status : option string;
  videoUrl : option (option string);
  thumbnailUrl : option (option string);
  duration : option (option string)
}.
End Updates.

Module VideoHistory.

(** The object store 'videos': records in key order and the key
    generator ([keyPath: 'id', autoIncrement: true]). *)
Record Store := mkStore {
  nextKey : nat;
  videos : list Video.t
}.

(** The store right after [init] created it. *)
Definition empty : Store := mkStore 1 [].

(** The exception IndexedDB raises when a write would break the unique
    index on [videoId] (createIndex('videoId', 'videoId', {unique: true})).
    Its message text is the engine's. *)
Definition ConstraintError : Error :=
  mkError "ConstraintError"
    "Unable to add key to index 'videoId': at least one key does not satisfy the uniqueness requirements.".

(** [objectStore.index('videoId').get(videoId)] *)
Definition index_get (videoId : string) (s : Store) : option Video.t :=
  find (fun v => Video.videoId v =? videoId) (videos s).

(** [objectStore.add(video)] for a record without key: the unique index
    rejects a second record with the same [videoId]; otherwise the key
    generator supplies the key. *)
Definition add (video : nat -> Video.t) (s : Store) : Result nat * Store :=
  match index_get (Video.videoId (video (nextKey s))) s with
  | Some _ => (Err ConstraintError, s)
  | None =>
      (Ok (nextKey s),
       mkStore (S (nextKey s)) (videos s ++ [video (nextKey s)])%list)
  end.

(** [objectStore.put(video)] for a record carrying its key: replaces the
    record stored under that key (or stores a new one), unless another
    record already owns the [videoId]. *)
Definition put (video : Video.t) (s : Store) : Result unit * Store :=
  if existsb (fun v => (Video.videoId v =? Video.videoId video)
                       && negb (Video.id v =? Video.id video)%nat) (videos s)
  then (Err ConstraintError, s)
  else if existsb (fun v => (Video.id v =? Video.id video)%nat) (videos s)
  then (Ok tt,
        mkStore (nextKey s)
          (map (fun v => if (Video.id v =? Video.id video)%nat then video else v)
               (videos s)))
  else (Ok tt,
        mkStore (Nat.max (nextKey s) (S (Video.id video)))
                (videos s ++ [video])%list).

(** The record [addVideo] builds from its argument. *)
Definition newVideo (now : string) (videoData : VideoData.t) (key : nat) : Video.t :=
  Video.mk key
    (VideoData.videoId videoData)
    (or_null (VideoData.videoUrl videoData))
    (or_else (VideoData.status videoData) "processing")
    now
    (or_null (VideoData.avatarId videoData))
    (or_null (VideoData.avatarName videoData))
    (or_null (VideoData.voiceType videoData))
    (or_null (VideoData.voiceName videoData))
    (or_null (VideoData.transcript videoData))
    (or_null (VideoData.duration videoData))
    (or_null (VideoData.thumbnailUrl videoData)).

(** [addVideo(videoData)]; [now] is [new Date().toISOString()]. *)
Definition addVideo (now : string) (videoData : VideoData.t) (s : Store)
  : Result nat * Store :=
  add (newVideo now videoData) s.

(** [Object.assign(video, updates)] *)
Definition assign (video : Video.t) (updates : Updates.t) : Video.t :=
  Video.mk (Video.id video)
    (Video.videoId video)
    (match Updates.videoUrl updates with Some v => v | None => Video.videoUrl video end)
    (match Updates.status updates with Some v => v | None => Video.status video end)
    (Video.createdAt video)
    (Video.avatarId video)
    (Video.avatarName video)
    (Video.voiceType video)
    (Video.voiceName video)
    (Video.transcript video)
    (match Updates.duration updates with Some v => v | None => Video.duration video end)
    (match Updates.thumbnailUrl updates with Some v => v | None => Video.thumbnailUrl video end).

(** [updateVideo(videoId, updates)] *)
Definition updateVideo (videoId : string) (updates : Updates.t) (s : Store)
  : Result unit * Store :=
  match index_get videoId s with
  | None => (Err (newError "Video not found"), s)
  | Some video => put (assign video updates) s
  end.

(** [getVideo(videoId)] *)
Definition getVideo (videoId : string) (s : Store) : option Video.t :=
  index_get videoId s.

(** [deleteVideo(id)] *)
Definition deleteVideo (id : nat) (s : Store) : Store :=
  mkStore (nextKey s)
          (filter (fun v => negb (Video.id v =? id)%nat) (videos s)).

(** [clearAll()] *)
Definition clearAll (s : Store) : Store := mkStore (nextKey s) [].

(** How many records carry a given remote job id. *)
Definition count (videoId : string) (s : Store) : nat :=
  length (filter (fun v => Video.videoId v =? videoId) (videos s)).

End VideoHistory.

Import VideoHistory.

(* ================================================================== *)
(** * The outside world                                                *)
(* ================================================================== *)

(** A [Blob]: its MIME type and its size in bytes. *)
Record Blob := mkBlob { blob_type : string; blob_size : nat }.

(** What one [fetch] round trip can come to:
    - the promise rejects (no connection, blocked cross-origin request):
      a TypeError whose message is chosen by the browser;
    - a response whose [ok] flag is false, with its status line and, when
      the body is JSON, the [message] property of the body;
    - a response whose [ok] flag is true, with the payload the caller
      extracts from the body. *)
Inductive FetchReply (A : Type) : Type :=
| NetworkFailure (message : string)
| HttpFailure (status : nat) (statusText : string) (bodyMessage : option string)
| HttpSuccess (data : A).
Arguments NetworkFailure {A} message.
Arguments HttpFailure {A} status statusText bodyMessage.
Arguments HttpSuccess {A} data.

(** [data.data] of the status endpoint. *)
Module VideoStatus.
Record t := mk {
  status : string;
  video_url : option string;
  thumbnail_url : option string;
  duration : option string
}.
End VideoStatus.

(** The body of a transcript poll. *)
Module Transcript.
Record t := mk {
  status : string;
  text : option string;
  error : string
}.
End Transcript.

(** [data.data] of the asset endpoint. *)
Record Asset := mkAsset { asset_id : string; asset_url : option string }.

(** The [character] and [voice] members of a render request. *)
Inductive CharacterConfig :=
| PhotoCharacter (photo_id : string)
| AvatarCharacter (avatar_id : string) (avatar_style : string).

Inductive VoiceConfig :=
| TextVoice (voice_id : string)
| AudioVoice (audio_asset_id : string).

(** The argument of [createVideo]. *)
Record VideoConfig := mkVideoConfig {
  character : option CharacterConfig;
  voice : VoiceConfig;
  text : option string
}.

(** [videoInput.voice] as sent on the wire. *)
Inductive VoiceInput :=
| TextInput (voice_id : string) (input_text : string)
| AudioInput (audio_asset_id : string).

Record VideoInput := mkVideoInput {
  input_character : option CharacterConfig;
  input_voice : VoiceInput
}.

Record RequestBody := mkRequestBody {
  video_inputs : list VideoInput;
  width : nat;
  height : nat;
  aspect_ratio : string;
  test : bool
}.

(** The observable events of a run, in the order they happen. *)
Inductive Event :=
(* remote calls *)
| AssemblyUpload (audio : option Blob)
| AssemblySubmit (audio_url : string)
| AssemblyPoll (transcriptId : string)
| HeyGenUpload (contentType : string) (body : Blob)
| HeyGenCreate (body : RequestBody)
| HeyGenStatus (videoId : string)
(* local calls *)
| DecodeAudio (audio : option Blob)
| HistoryAdd (now : string) (videoData : VideoData.t)
| HistoryUpdate (videoId : string) (updates : Updates.t)
| Sleep (ms : nat)
(* user interface *)
| Alert (message : string)
| ModalShow (message : string)
| ModalStatus (message : string)
| ModalHideAfter (ms : nat)
| DisplayVideo (videoUrl : option string) (videoId : string).

(** An event that leaves the browser. *)
Definition is_remote (e : Event) : bool :=
  match e with
  | AssemblyUpload _ | AssemblySubmit _ | AssemblyPoll _
  | HeyGenUpload _ _ | HeyGenCreate _ | HeyGenStatus _ => true
  | _ => false
  end.

Definition is_poll (e : Event) : bool :=
  match e with
  | HeyGenStatus _ => true
  | _ => false
  end.

Definition is_update (e : Event) : bool :=
  match e with
  | HistoryUpdate _ _ => true
  | _ => false
  end.

(* ================================================================== *)
(** * Asynchronous computations                                        *)
(* ================================================================== *)

(** How an async function stands when the scripted replies are used up. *)
Inductive Outcome (A : Type) : Type :=
| Resolved (a : A)
| Rejected (e : Error)
| Pending.
Arguments Resolved {A} a.
Arguments Rejected {A} e.
Arguments Pending {A}.

Record Run (A : Type) : Type := mkRun {
  outcome : Outcome A;
  store : Store;
  trace : list Event
}.
Arguments mkRun {A} outcome store trace.
Arguments outcome {A} r.
Arguments store {A} r.
Arguments trace {A} r.

Definition Async (A : Type) : Type := Store -> Run A.

Definition ret {A} (a : A) : Async A := fun s => mkRun (Resolved a) s [].

Definition throw {A} (e : Error) : Async A := fun s => mkRun (Rejected e) s [].

(** An [await] that never comes back within the observed run. *)
Definition pending {A} : Async A := fun s => mkRun Pending s [].

(** The run [r] seen after the events [t] have happened. *)
Definition after {A} (t : list Event) (r : Run A) : Run A :=
  mkRun (outcome r) (store r) (t ++ trace r)%list.

Definition bind {A B} (m : Async A) (k : A -> Async B) : Async B :=
  fun s =>
    let r := m s in
    match outcome r with
    | Resolved a => after (trace r) (k a (store r))
    | Rejected e => mkRun (Rejected e) (store r) (trace r)
    | Pending => mkRun Pending (store r) (trace r)
    end.

(** [try { m } catch (error) { handler error }] *)
Definition tryCatch {A} (m : Async A) (handler : Error -> Async A) : Async A :=
  fun s =>
    let r := m s in
    match outcome r with
    | Rejected e => after (trace r) (handler e (store r))
    | _ => r
    end.

Definition emit (e : Event) : Async unit := fun s => mkRun (Resolved tt) s [e].

(** [await] of a promise with a known fate. *)
Definition settle {A} (r : Result A) : Async A :=
  match r with
  | Ok a => ret a
  | Err e => throw e
  end.

Declare Scope async_scope.
Delimit Scope async_scope with async.
Notation "x <- m ;; k" := (bind m (fun x => k))
  (at level 61, m at next level, right associativity) : async_scope.
Notation "m ;; k" := (bind m (fun _ => k))
  (at level 61, right associativity) : async_scope.
Local Open Scope async_scope.

(** [await new Promise(resolve => setTimeout(resolve, ms))] *)
Definition sleep (ms : nat) : Async unit := emit (Sleep ms).

(** [await videoHistoryManager.addVideo(videoData)] *)
Definition historyAdd (now : string) (videoData : VideoData.t) : Async nat :=
  fun s =>
    let '(r, s') := addVideo now videoData s in
    match r with
    | Ok key => mkRun (Resolved key) s' [HistoryAdd now videoData]
    | Err e => mkRun (Rejected e) s' [HistoryAdd now videoData]
    end.

(** [await videoHistoryManager.updateVideo(videoId, updates)] *)
Definition historyUpdate (videoId : string) (updates : Updates.t) : Async unit :=
  fun s =>
    let '(r, s') := updateVideo videoId updates s in
    match r with
    | Ok _ => mkRun (Resolved tt) s' [HistoryUpdate videoId updates]
    | Err e => mkRun (Rejected e) s' [HistoryUpdate videoId updates]
    end.

(** The effect of one event on the durable store. *)
Definition apply_event (s : Store) (e : Event) : Store :=
  match e with
  | HistoryAdd now videoData => snd (addVideo now videoData s)
  | HistoryUpdate videoId updates => snd (updateVideo videoId updates s)
  | _ => s
  end.

(** The durable store after a prefix of a trace. *)
Definition replay (s : Store) (t : list Event) : Store :=
  fold_left apply_event t s.

(* ================================================================== *)
(** * The loading modal                                                *)
(* ================================================================== *)

Module LoadingModal.

Definition show (message : string) : Async unit := emit (ModalShow message).

Definition updateStatus (message : string) : Async unit :=
  emit (ModalStatus message).

Definition showTranscribing : Async unit :=
  updateStatus "Transcribing your voice...".

Definition showGenerating : Async unit :=
  updateStatus "Generating your video...".

Definition showUploading : Async unit :=
  updateStatus "Uploading assets...".

Definition showComplete : Async unit :=
  updateStatus "Complete! 🎉" ;; emit (ModalHideAfter 1500).

Definition showError (message : string) : Async unit :=
  updateStatus ("Error: " ++ message) ;; emit (ModalHideAfter 3000).

End LoadingModal.

(* ================================================================== *)
(** * config.js                                                        *)
(* ================================================================== *)

Module CONFIG.
Module VIDEO.
Definition POLL_INTERVAL : nat := 3000.
Definition MAX_POLL_ATTEMPTS : nat := 200.
End VIDEO.
End CONFIG.

(** One [fetch] of a service method: the request leaves, and the reply
    either rejects the call (with the browser's TypeError or with the
    [Error] the method builds from a response that is not ok) or yields the
    payload. *)
Definition fetch {A} (request : Event) (reply : FetchReply A)
    (notOk : nat -> string -> option string -> string) : Async A :=
  emit request ;;
  match reply with
  | NetworkFailure m => throw (mkError "TypeError" m)
  | HttpFailure status statusText bodyMessage =>
      throw (newError (notOk status statusText bodyMessage))
  | HttpSuccess data => ret data
  end.

(* ================================================================== *)
(** * api/assemblyai.js                                                *)
(* ================================================================== *)

Module AssemblyAI.

Record Replies := mkReplies {
  upload : FetchReply string;
  submit : FetchReply string;
  polls : list (FetchReply Transcript.t)
}.

Definition uploadAudio (audioBlob : option Blob) (reply : FetchReply string)
  : Async string :=
  fetch (AssemblyUpload audioBlob) reply
    (fun _ statusText _ => "Upload failed: " ++ statusText).

Definition submitTranscription (audioUrl : string) (reply : FetchReply string)
  : Async string :=
  fetch (AssemblySubmit audioUrl) reply
    (fun _ statusText _ => "Transcription submission failed: " ++ statusText).

Definition pollTranscription (transcriptId : string)
    (reply : FetchReply Transcript.t) : Async Transcript.t :=
  fetch (AssemblyPoll transcriptId) reply
    (fun _ statusText _ => "Polling failed: " ++ statusText).

(** The [while] loop of [getTranscript], entered with the latest poll. *)
Fixpoint pollUntilDone (transcriptId : string)
    (replies : list (FetchReply Transcript.t)) (transcript : Transcript.t)
  : Async Transcript.t :=
  if negb (Transcript.status transcript =? "completed")
     && negb (Transcript.status transcript =? "error")
  then
    sleep 3000 ;;
    match replies with
    | [] => pending
    | reply :: later =>
        transcript' <- pollTranscription transcriptId reply ;;
        pollUntilDone transcriptId later transcript'
    end
  else ret transcript.

Definition getTranscript (audioBlob : option Blob) (world : Replies)
  : Async (option string) :=
  audioUrl <- uploadAudio audioBlob (upload world) ;;
  transcriptId <- submitTranscription audioUrl (submit world) ;;
  match polls world with
  | [] => pending
  | reply :: later =>
      first <- pollTranscription transcriptId reply ;;
      transcript <- pollUntilDone transcriptId later first ;;
      if Transcript.status transcript =? "error"
      then throw (newError ("Transcription failed: " ++ Transcript.error transcript))
      else ret (Transcript.text transcript)
  end.

End AssemblyAI.

(* ================================================================== *)
(** * utils/audio-converter.js                                         *)
(* ================================================================== *)

Module AudioConverter.

(** [convertWebMToMP3(webmBlob)]: whatever goes wrong while decoding and
    re-encoding is replaced by one fixed error.  [decoded] is the fate of
    [convertToWAV]. *)
Definition convertWebMToMP3 (webmBlob : option Blob) (decoded : Result Blob)
  : Async Blob :=
  match webmBlob with
  | None => throw (newError "Failed to convert audio format")
  | Some _ =>
      emit (DecodeAudio webmBlob) ;;
      match decoded with
      | Ok wavBlob => ret wavBlob
      | Err _ => throw (newError "Failed to convert audio format")
      end
  end.

End AudioConverter.

(* ================================================================== *)
(** * The HeyGen service                                               *)
(* ================================================================== *)

Module HeyGen.

(** The Content-Type header [uploadAsset] sends. *)
Definition contentType (blob : Blob) (type : string) : string :=
  if type =? "audio" then
    if (blob_type blob =? "audio/wav") || (blob_type blob =? "audio/wave")
       || (blob_type blob =? "audio/x-wav")
    then "audio/x-wav"
    else if (blob_type blob =? "audio/mpeg") || (blob_type blob =? "audio/mp3")
    then "audio/mpeg"
    else "audio/x-wav"
  else or_else (Some (blob_type blob)) "image/jpeg".

Definition uploadAsset (file : Blob) (type : string) (reply : FetchReply Asset)
  : Async Asset :=
  fetch (HeyGenUpload (contentType file type) file) reply
    (fun status statusText _ =>
       "Failed to upload asset: " ++ toString status ++ " " ++ statusText).

(** The request body [createVideo] builds. *)
Definition requestBody (config : VideoConfig) : RequestBody :=
  mkRequestBody
    [ mkVideoInput (character config)
        (match voice config with
         | TextVoice voice_id =>
             TextInput voice_id (or_else (text config) "")
         | AudioVoice audio_asset_id => AudioInput audio_asset_id
         end) ]
    1280 720 "16:9" false.

Definition createVideo (config : VideoConfig) (reply : FetchReply string)
  : Async string :=
  fetch (HeyGenCreate (requestBody config)) reply
    (fun _ statusText bodyMessage =>
       "Failed to create video: " ++ or_else bodyMessage statusText).

Definition getVideoStatus (videoId : string) (reply : FetchReply VideoStatus.t)
  : Async VideoStatus.t :=
  fetch (HeyGenStatus videoId) reply
    (fun _ statusText _ => "Failed to get video status: " ++ statusText).

(** The loop of [waitForVideo]; [remaining] is
    [CONFIG.VIDEO.MAX_POLL_ATTEMPTS - attempts]. *)
Fixpoint waitForVideo_loop (remaining : nat) (videoId : string)
    (replies : list (FetchReply VideoStatus.t)) : Async (option string) :=
  match remaining with
  | 0 => throw (newError "Video generation timeout")
  | S remaining' =>
      match replies with
      | [] => pending
      | reply :: later =>
          status <- getVideoStatus videoId reply ;;
          if VideoStatus.status status =? "completed"
          then ret (VideoStatus.video_url status)
          else if VideoStatus.status status =? "failed"
          then throw (newError "Video generation failed")
          else
            sleep CONFIG.VIDEO.POLL_INTERVAL ;;
            waitForVideo_loop remaining' videoId later
      end
  end.

Definition waitForVideo (videoId : string)
    (replies : list (FetchReply VideoStatus.t)) : Async (option string) :=
  waitForVideo_loop CONFIG.VIDEO.MAX_POLL_ATTEMPTS videoId replies.

End HeyGen.

(* ================================================================== *)
(** * The video generator                                              *)
(* ================================================================== *)

Module VideoGenerator.

Record Voice := mkVoice { voice_id : string; voice_name : option string }.

Record Avatar := mkAvatar {
  avatar_id : string;
  avatar_style : option string;
  avatar_name : option string
}.

Record Character := mkCharacter { heygenId : string; name : option string }.

(** What [voiceSelector.getSelectedVoice()] returns when it is not null:
    [{ type: 'custom' }] or [{ type: 'preset', voice }]. *)
Inductive VoiceSelection :=
| Custom
| Preset (voice : Voice).

Definition type (v : VoiceSelection) : string :=
  match v with
  | Custom => "custom"
  | Preset _ => "preset"
  end.

(** The state of the collaborators at the time [generateVideo] runs, and
    the replies the outside world gives during the run. *)
Record Env := mkEnv {
  (* recorder, avatar selector, character manager, voice selector *)
  audioBlob : option Blob;
  selectedAvatar : option Avatar;
  selectedCharacter : option Character;
  useCustomVoice : bool;
  selectedVoice : option Voice;
  (* clock and remote parties *)
  now : string;
  transcription : AssemblyAI.Replies;
  decoded : Result Blob;
  upload : FetchReply Asset;
  create : FetchReply string;
  statusPolls : list (FetchReply VideoStatus.t)
}.

Definition getAudioBlob (env : Env) : option Blob := audioBlob env.
Definition getSelectedAvatar (env : Env) : option Avatar := selectedAvatar env.
Definition getSelectedCharacter (env : Env) : option Character :=
  selectedCharacter env.

Definition getSelectedVoice (env : Env) : option VoiceSelection :=
  if useCustomVoice env then Some Custom
  else match selectedVoice env with
       | Some voice => Some (Preset voice)
       | None => None
       end.

Inductive Validation :=
| Valid
| Invalid (message : string).

Definition validate (env : Env) : Validation :=
  match getAudioBlob env with
  | None => Invalid "Please record your voice first"
  | Some _ =>
      match getSelectedAvatar env, getSelectedCharacter env with
      | None, None => Invalid "Please select an avatar or character"
      | _, _ =>
          match getSelectedVoice env with
          | None => Invalid "Please select a voice option"
          | Some _ => Valid
          end
      end
  end.

Definition pollInterval : nat := 3000.

(** How one turn of a [while (true)] body ends: with a [return], or by
    falling through to the next turn. *)
Inductive Turn (A : Type) : Type :=
| Return (a : A)
| Next.
Arguments Return {A} a.
Arguments Next {A}.

Definition completedUpdates (status : VideoStatus.t) : Updates.t :=
  Updates.mk (Some "completed")
    (Some (VideoStatus.video_url status))
    (Some (VideoStatus.thumbnail_url status))
    (Some (VideoStatus.duration status)).

Definition failedUpdates : Updates.t :=
  Updates.mk (Some "failed") None None None.

(** One turn of the loop of [waitForVideoWithHistory]. *)
Definition pollTurn (videoId : string) (reply : FetchReply VideoStatus.t)
    (attempts : nat) : Async (Turn (option string)) :=
  tryCatch
    (status <- HeyGen.getVideoStatus videoId reply ;;
     if VideoStatus.status status =? "completed" then
       historyUpdate videoId (completedUpdates status) ;;
       ret (Return (VideoStatus.video_url status))
     else if VideoStatus.status status =? "failed" then
       historyUpdate videoId failedUpdates ;;
       throw (newError "Video generation failed")
     else
       LoadingModal.show
         ("Generating video... (" ++ toString (attempts * 3) ++ "s)") ;;
       sleep pollInterval ;;
       ret Next)
    (fun error =>
       if message error =? "Video generation failed" then throw error
       else
         (* Network error - keep trying *)
         sleep pollInterval ;;
         ret Next).

Fixpoint waitForVideoWithHistory (videoId : string)
    (replies : list (FetchReply VideoStatus.t)) (attempts : nat)
  : Async (option string) :=
  match replies with
  | [] => pending
  | reply :: later =>
      turn <- pollTurn videoId reply attempts ;;
      match turn with
      | Return videoUrl => ret videoUrl
      | Next => waitForVideoWithHistory videoId later (S attempts)
      end
  end.

Definition displayVideo (videoUrl : option string) (videoId : string)
  : Async unit :=
  emit (DisplayVideo videoUrl videoId).

Definition corsMessage : string :=
  "CORS Error: Cannot upload audio from localhost. Please deploy to a server or use HeyGen API with proper CORS configuration.".

(** Step 1 of [generateVideo]: the transcript (if any) and the voice
    configuration. *)
Definition voiceStep (env : Env) (voiceSelection : VoiceSelection)
  : Async (option string * VoiceConfig) :=
  match voiceSelection with
  | Preset voice =>
      LoadingModal.showTranscribing ;;
      transcript <- AssemblyAI.getTranscript (getAudioBlob env) (transcription env) ;;
      ret (transcript, TextVoice (voice_id voice))
  | Custom =>
      LoadingModal.show "Converting audio..." ;;
      tryCatch
        (wavBlob <- AudioConverter.convertWebMToMP3 (getAudioBlob env) (decoded env) ;;
         LoadingModal.showUploading ;;
         uploadedAudio <- HeyGen.uploadAsset wavBlob "audio" (upload env) ;;
         ret (None, AudioVoice (asset_id uploadedAudio)))
        (fun uploadError =>
           if includes "fetch" (message uploadError)
              || includes "CORS" (message uploadError)
           then throw (newError corsMessage)
           else throw uploadError)
  end.

(** Step 2 of [generateVideo]: the character configuration and the name
    kept in the history. *)
Definition characterStep (avatar : option Avatar) (character : option Character)
  : option CharacterConfig * string :=
  match character with
  | Some c =>
      (Some (PhotoCharacter (heygenId c)), or_else (name c) "Custom Character")
  | None =>
      match avatar with
      | Some a =>
          (Some (AvatarCharacter (avatar_id a) (or_else (avatar_style a) "normal")),
           or_else (avatar_name a) (avatar_id a))
      | None => (None, "")
      end
  end.

(** The object [generateVideo] hands to [addVideo]. *)
Definition historyEntry (videoId : string) (avatar : option Avatar)
    (character : option Character) (avatarName : string)
    (voiceSelection : VoiceSelection) (transcript : option string)
  : VideoData.t :=
  VideoData.mk videoId None (Some "processing")
    (or_option (option_map avatar_id avatar) (option_map heygenId character))
    (Some avatarName)
    (Some (type voiceSelection))
    (match voiceSelection with
     | Preset voice => voice_name voice
     | Custom => Some "Custom Voice"
     end)
    transcript None None.

Definition generateVideo (env : Env) : Async unit :=
  tryCatch
    (match validate env with
     | Invalid message => emit (Alert message)
     | Valid =>
         LoadingModal.show "Starting..." ;;
         match getSelectedVoice env with
         | None =>
             throw (mkError "TypeError" "Cannot read properties of null (reading 'type')")
         | Some voiceSelection =>
             step1 <- voiceStep env voiceSelection ;;
             let '(transcript, voiceConfig) := step1 in
             let avatar := getSelectedAvatar env in
             let character := getSelectedCharacter env in
             let '(characterConfig, avatarName) := characterStep avatar character in
             LoadingModal.showGenerating ;;
             videoId <- HeyGen.createVideo
                          (mkVideoConfig characterConfig voiceConfig transcript)
                          (create env) ;;
             historyAdd (now env)
               (historyEntry videoId avatar character avatarName
                             voiceSelection transcript) ;;
             videoUrl <- waitForVideoWithHistory videoId (statusPolls env) 0 ;;
             displayVideo videoUrl videoId ;;
             LoadingModal.showComplete
         end
     end)
    (fun error =>
       LoadingModal.showError
         (or_else (Some (message error)) "Failed to generate video")).

End VideoGenerator.

(* ================================================================== *)
(** * Notions used by the properties                                   *)
(* ================================================================== *)

Import VideoGenerator.

(** Running a computation from a given history store. *)
Definition run {A} (m : Async A) (s : Store) : Run A := m s.

(** The invariant the unique index on [videoId] maintains. *)
Definition unique_index (s : Store) : Prop :=
  NoDup (map Video.videoId (videos s)).

(** A terminal remote status. *)
Definition terminal (status : VideoStatus.t) : bool :=
  (VideoStatus.status status =? "completed")
  || (VideoStatus.status status =? "failed").

(** A poll reply that is not a terminal status: the provider could not be
    reached or answered with an error (an exception other than the one the
    loop raises itself for a failed job), or the job is still under way. *)
Definition transient (reply : FetchReply VideoStatus.t) : bool :=
  match reply with
  | NetworkFailure m => negb (m =? "Video generation failed")
  | HttpFailure _ _ _ => true
  | HttpSuccess status => negb (terminal status)
  end.


Definition polls (t : list Event) : nat := length (filter is_poll t).

Definition updates (t : list Event) : nat := length (filter is_update t).

Definition remote_calls (t : list Event) : nat := length (filter is_remote t).

(** The text an event writes to the loading modal, if any. *)
Definition modal_message (e : Event) : option string :=
  match e with
  | ModalShow m | ModalStatus m => Some m
  | _ => None
  end.

Definition on_modal (t : list Event) : list string :=
  flat_map (fun e => match modal_message e with Some m => [m] | None => [] end) t.

(** A reply with the given status and no other field. *)
Definition statusOnly (status : string) : FetchReply VideoStatus.t :=
  HttpSuccess (VideoStatus.mk status None None None).

(** A poll that did not get an answer from the provider: the request was
    rejected in transit (with an exception other than the one the loop
    raises itself for a failed job) or came back with an error status. *)
Definition transportError (reply : FetchReply VideoStatus.t) : bool :=
  match reply with
  | NetworkFailure m => negb (m =? "Video generation failed")
  | HttpFailure _ _ _ => true
  | HttpSuccess _ => false
  end.

(** The events of step 1 of [generateVideo]: transcription, or conversion
    and upload of the recorded audio, and the status lines shown meanwhile. *)
Definition is_quiet (e : Event) : bool :=
  match e with
  | AssemblyUpload _ | AssemblySubmit _ | AssemblyPoll _
  | HeyGenUpload _ _ | DecodeAudio _ | Sleep _
  | ModalShow _ | ModalStatus _ => true
  | _ => false
  end.

(** A computation that causes only such events and leaves the history
    alone, whatever the store it starts from. *)
Definition quiet {A} (m : Async A) : Prop :=
  forall s, store (m s) = s /\ forallb is_quiet (trace (m s)) = true.

(** What [generateVideo] shows once [waitForVideoWithHistory] has settled:
    the video, or the error on the loading modal. *)
Definition closing (videoId : string) (o : Outcome (option string)) : list Event :=
  match o with
  | Resolved videoUrl =>
      [DisplayVideo videoUrl videoId; ModalStatus "Complete! 🎉"; ModalHideAfter 1500]
  | Rejected e =>
      [ModalStatus ("Error: " ++ or_else (Some (message e)) "Failed to generate video");
       ModalHideAfter 3000]
  | Pending => []
  end.

(** The error line [generateVideo] writes for an exception. *)
Definition errorLine (e : Error) : list Event :=
  [ModalStatus ("Error: " ++ or_else (Some (message e)) "Failed to generate video");
   ModalHideAfter 3000].

(** A run of [generateVideo] that ended by writing the error line for the
    exception [e] on the loading modal. *)
Definition shows_error (r : Run unit) (e : Error) : Prop :=
  outcome r = Resolved tt /\ exists pre, trace r = (pre ++ errorLine e)%list.

(** The record [v] is the one the store holds for job [videoId], and no
    record under another key claims that job. *)
Definition sole_owner (videoId : string) (s : Store) (v : Video.t) : Prop :=
  getVideo videoId s = Some v
  /\ forall x, In x (videos s) -> Video.videoId x = videoId -> Video.id x = Video.id v.

Definition not_poll (e : Event) : bool := negb (is_poll e).

(** The events of the turns spent on replies that are not terminal. *)
Fixpoint waiting (videoId : string) (replies : list (FetchReply VideoStatus.t))
    (attempts : nat) : list Event :=
  match replies with
  | [] => []
  | reply :: later =>
      match reply with
      | HttpSuccess _ =>
          [HeyGenStatus videoId;
           ModalShow ("Generating video... (" ++ toString (attempts * 3) ++ "s)");
           Sleep 3000]
      | _ => [HeyGenStatus videoId; Sleep 3000]
      end ++ waiting videoId later (S attempts)
  end%list.

(** All the ways a turn can end. *)
Inductive TurnEnd (videoId : string) (reply : FetchReply VideoStatus.t)
    (attempts : nat) (s : Store) : Run (Turn (option string)) -> Prop :=
| end_transport :
    transportError reply = true ->
    TurnEnd videoId reply attempts s
      (mkRun (Resolved Next) s [HeyGenStatus videoId; Sleep 3000])
| end_underway status :
    reply = HttpSuccess status -> terminal status = false ->
    TurnEnd videoId reply attempts s
      (mkRun (Resolved Next) s
         [HeyGenStatus videoId;
          ModalShow ("Generating video... (" ++ toString (attempts * 3) ++ "s)");
          Sleep 3000])
| end_completed status s' :
    reply = HttpSuccess status -> VideoStatus.status status = "completed" ->
    updateVideo videoId (completedUpdates status) s = (Ok tt, s') ->
    TurnEnd videoId reply attempts s
      (mkRun (Resolved (Return (VideoStatus.video_url status))) s'
         [HeyGenStatus videoId; HistoryUpdate videoId (completedUpdates status)])
| end_failed status s' :
    reply = HttpSuccess status -> VideoStatus.status status = "failed" ->
    updateVideo videoId failedUpdates s = (Ok tt, s') ->
    TurnEnd videoId reply attempts s
      (mkRun (Rejected (newError "Video generation failed")) s'
         [HeyGenStatus videoId; HistoryUpdate videoId failedUpdates])
| end_update_rejected status updates e :
    reply = HttpSuccess status -> terminal status = true ->
    updateVideo videoId updates s = (Err e, s) ->
    TurnEnd videoId reply attempts s
      (mkRun (Resolved Next) s
         [HeyGenStatus videoId; HistoryUpdate videoId updates; Sleep 3000])
| end_own_message :
    reply = NetworkFailure "Video generation failed" ->
    TurnEnd videoId reply attempts s
      (mkRun (Rejected (mkError "TypeError" "Video generation failed")) s
         [HeyGenStatus videoId]).


(** All the ways a run of [generateVideo] can go. *)
Inductive Generated (env : Env) (s : Store) : Run unit -> Prop :=
| gen_invalid m :
    validate env = Invalid m ->
    Generated env s (mkRun (Resolved tt) s [Alert m])
| gen_step1_rejected pre e :
    validate env = Valid -> forallb is_quiet pre = true ->
    Generated env s
      (mkRun (Resolved tt) s (ModalShow "Starting..." :: pre ++ errorLine e))
| gen_step1_pending pre :
    validate env = Valid -> forallb is_quiet pre = true ->
    Generated env s (mkRun Pending s (ModalShow "Starting..." :: pre))
| gen_create_rejected pre voiceConfig transcript e :
    validate env = Valid -> forallb is_quiet pre = true ->
    (forall videoId, create env <> HttpSuccess videoId) ->
    Generated env s
      (mkRun (Resolved tt) s
         (ModalShow "Starting..." :: pre
          ++ [ModalStatus "Generating your video...";
              HeyGenCreate
                (HeyGen.requestBody
                   (mkVideoConfig
                      (fst (characterStep (getSelectedAvatar env)
                                          (getSelectedCharacter env)))
                      voiceConfig transcript))]
          ++ errorLine e))
| gen_add_rejected pre voiceConfig transcript videoId videoData e :
    validate env = Valid -> forallb is_quiet pre = true ->
    create env = HttpSuccess videoId ->
    VideoData.videoId videoData = videoId ->
    VideoData.status videoData = Some "processing" ->
    addVideo (now env) videoData s = (Err e, s) ->
    Generated env s
      (mkRun (Resolved tt) s
         (ModalShow "Starting..." :: pre
          ++ [ModalStatus "Generating your video...";
              HeyGenCreate
                (HeyGen.requestBody
                   (mkVideoConfig
                      (fst (characterStep (getSelectedAvatar env)
                                          (getSelectedCharacter env)))
                      voiceConfig transcript));
              HistoryAdd (now env) videoData]
          ++ errorLine e))
| gen_polled pre voiceConfig transcript videoId videoData key s1 polled :
    validate env = Valid -> forallb is_quiet pre = true ->
    create env = HttpSuccess videoId ->
    VideoData.videoId videoData = videoId ->
    VideoData.status videoData = Some "processing" ->
    addVideo (now env) videoData s = (Ok key, s1) ->
    polled = waitForVideoWithHistory videoId (statusPolls env) 0 s1 ->
    Generated env s
      (mkRun (match outcome polled with Pending => Pending | _ => Resolved tt end)
         (store polled)
         (ModalShow "Starting..." :: pre
          ++ [ModalStatus "Generating your video...";
              HeyGenCreate
                (HeyGen.requestBody
                   (mkVideoConfig
                      (fst (characterStep (getSelectedAvatar env)
                                          (getSelectedCharacter env)))
                      voiceConfig transcript));
              HistoryAdd (now env) videoData]
          ++ trace polled ++ closing videoId (outcome polled))).

(** An event that writes to the history store. *)
Definition is_history (e : Event) : bool :=
  match e with
  | HistoryAdd _ _ | HistoryUpdate _ _ => true
  | _ => false
  end.

(** The events the loop of [waitForVideoWithHistory] can cause. *)
Definition is_loop_event (e : Event) : bool :=
  match e with
  | HeyGenStatus _ | HistoryUpdate _ _ | Sleep _ | ModalShow _ => true
  | _ => false
  end.

(** Concrete collaborators and replies, for running the pipeline. *)
Module Sample.

Definition recording : Blob := mkBlob "audio/webm;codecs=opus" 480.
Definition wav : Blob := mkBlob "audio/wav" 1004.
Definition anna : Avatar := mkAvatar "Anna_public_3" None (Some "Anna").
Definition me : Character := mkCharacter "photo-77" (Some "Me").
Definition narrator : Voice := mkVoice "voice-12" (Some "Narrator").

Definition transcribed : AssemblyAI.Replies :=
  AssemblyAI.mkReplies (HttpSuccess "https://cdn.assembly/upload/1")
    (HttpSuccess "tr-1")
    [HttpSuccess (Transcript.mk "processing" None "");
     HttpSuccess (Transcript.mk "completed" (Some "hello world") "")].

Definition completed : VideoStatus.t :=
  VideoStatus.mk "completed" (Some "https://cdn.heygen/v.mp4")
    (Some "https://cdn.heygen/v.jpg") (Some "12.5").

(** An environment in which every remote party answers; the selections
    and the replies under study are the parameters. *)
Definition env (audio : option Blob) (avatar : option Avatar)
    (character : option Character) (custom : bool) (preset : option Voice)
    (uploaded : FetchReply Asset) (polled : list (FetchReply VideoStatus.t))
  : Env :=
  mkEnv audio avatar character custom preset
    "2025-01-01T00:00:00.000Z" transcribed (Ok wav) uploaded
    (HttpSuccess "job-1") polled.

Definition asset : FetchReply Asset := HttpSuccess (mkAsset "asset-9" None).

End Sample.

(** Proof steps for runs: reduce the monad's plumbing, and compare two
    runs up to the bracketing of their traces. *)
Ltac run_steps :=
  cbn [outcome store trace after emit bind ret throw app].

Ltac same_run :=
  unfold LoadingModal.updateStatus, errorLine, closing, bind, after;
  cbn [outcome store trace emit app];
  rewrite ?app_nil_r; f_equal; rewrite <- ?app_assoc; reflexivity.

(* ================================================================== *)
(** * More of the job history                                          *)
(* ================================================================== *)

(** What IndexedDB maintains for the object store 'videos': the unique
    index on [videoId], unique primary keys, and a key generator that is
    ahead of every key handed out. *)
Definition well_formed (s : Store) : Prop :=
  NoDup (map Video.videoId (videos s))
  /\ NoDup (map Video.id (videos s))
  /\ Forall (fun v => Video.id v < nextKey s) (videos s).

(** [videos.sort((a, b) => new Date(b.createdAt) - new Date(a.createdAt))]:
    [time] is the time value of [new Date(createdAt)].  The sort of an
    array is stable, so with this comparator the outcome is the list in
    descending time order with ties in their original order; it is written
    here as an insertion sort. *)
Fixpoint insertByDate (time : string -> Z) (v : Video.t) (sorted : list Video.t)
  : list Video.t :=
  match sorted with
  | [] => [v]
  | w :: rest =>
      if (time (Video.createdAt w) <=? time (Video.createdAt v))%Z
      then v :: w :: rest
      else w :: insertByDate time v rest
  end.

Definition sortNewestFirst (time : string -> Z) (l : list Video.t) : list Video.t :=
  fold_right (insertByDate time) [] l.

(** [getAllVideos()] *)
Definition getAllVideos (time : string -> Z) (s : Store) : list Video.t :=
  sortNewestFirst time (videos s).

(** [a] does not come after [b] in the history view. *)
Definition newerOrSame (time : string -> Z) (a b : Video.t) : Prop :=
  (time (Video.createdAt b) <= time (Video.createdAt a))%Z.

(** Two records of a sample history. *)
Definition sampleFirst : VideoData.t :=
  VideoData.mk "job-1" None (Some "processing") (Some "Anna_public_3")
    (Some "Anna") (Some "preset") (Some "Narrator") (Some "hello world") None None.

Definition sampleSecond : VideoData.t :=
  VideoData.mk "job-2" None None None (Some "Me") (Some "custom")
    (Some "Custom Voice") None None None.

Definition sampleHistory : Store :=
  snd (addVideo "2025-01-02T08:30:00.000Z" sampleSecond
         (snd (addVideo "2025-01-01T00:00:00.000Z" sampleFirst empty))).

(** The time values of the sample timestamps, in milliseconds since the
    epoch. *)
Definition sampleTime (t : string) : Z :=
  if t =? "2025-01-01T00:00:00.000Z" then 1735689600000
  else if t =? "2025-01-02T08:30:00.000Z" then 1735806600000
  else if t =? "2025-01-03T00:00:00.000Z" then 1735862400000
  else 0.

(** An [updates] object that may set any field of a record, the key and
    the job id included: [None] is an absent property.  A property that
    no record has would be stored along and read by nothing; it is left
    out. *)
Module AnyUpdates.
Record t := mk {
  id : option nat;
  videoId : option string;
  videoUrl : option (option string);
  status : option string;
  createdAt : option string;
  avatarId : option (option string);
  avatarName : option (option string);
  voiceType : option (option string);
  voiceName : option (option string);
  transcript : option (option string);
  duration : option (option string);
  thumbnailUrl : option (option string)
}.

(** The updates of the poll loop, which set none but these four fields. *)
Definition of_updates (updates : Updates.t) : t :=
  mk None None (Updates.videoUrl updates) (Updates.status updates) None
     None None None None None (Updates.duration updates)
     (Updates.thumbnailUrl updates).
End AnyUpdates.

(** The value of a field after [Object.assign]. *)
Definition assigned {A} (update : option A) (current : A) : A :=
  match update with
  | Some v => v
  | None => current
  end.

(** [Object.assign(video, updates)] for such an object. *)
Definition assignAny (video : Video.t) (updates : AnyUpdates.t) : Video.t :=
  Video.mk
    (assigned (AnyUpdates.id updates) (Video.id video))
    (assigned (AnyUpdates.videoId updates) (Video.videoId video))
    (assigned (AnyUpdates.videoUrl updates) (Video.videoUrl video))
    (assigned (AnyUpdates.status updates) (Video.status video))
    (assigned (AnyUpdates.createdAt updates) (Video.createdAt video))
    (assigned (AnyUpdates.avatarId updates) (Video.avatarId video))
    (assigned (AnyUpdates.avatarName updates) (Video.avatarName video))
    (assigned (AnyUpdates.voiceType updates) (Video.voiceType video))
    (assigned (AnyUpdates.voiceName updates) (Video.voiceName video))
    (assigned (AnyUpdates.transcript updates) (Video.transcript video))
    (assigned (AnyUpdates.duration updates) (Video.duration video))
    (assigned (AnyUpdates.thumbnailUrl updates) (Video.thumbnailUrl video)).

(** [updateVideo(videoId, updates)] for such an object. *)
Definition updateVideoAny (videoId : string) (updates : AnyUpdates.t) (s : Store)
  : Result unit * Store :=
  match index_get videoId s with
  | None => (Err (newError "Video not found"), s)
  | Some video => put (assignAny video updates) s
  end.

(** Updates that leave the key alone and do not move the record to
    another job id. *)
Definition keeps_keys (videoId : string) (updates : AnyUpdates.t) : Prop :=
  AnyUpdates.id updates = None
  /\ (AnyUpdates.videoId updates = None
      \/ AnyUpdates.videoId updates = Some videoId).

(** [{ videoId: newId }]: updates that move the record to another job id. *)
Definition renamed (newId : string) : AnyUpdates.t :=
  AnyUpdates.mk None (Some newId) None None None None None None None None None None.

(* ================================================================== *)
(** * More of the two services                                         *)
(* ================================================================== *)

(** A transcript that is neither completed nor in error: [getTranscript]
    sleeps and polls again. *)
Definition transcribing (t : Transcript.t) : bool :=
  negb (Transcript.status t =? "completed") && negb (Transcript.status t =? "error").

(** The events of [n] polls that find the transcript still in the making. *)
Definition transcriptPolls (transcriptId : string) (n : nat) : list Event :=
  flat_map (fun _ => [AssemblyPoll transcriptId; Sleep 3000]) (seq 0 n).

(** The exception a service method raises for a reply that is not a
    success, given the message it builds for a response that is not ok. *)
Definition rejection {A} (reply : FetchReply A)
    (notOk : nat -> string -> option string -> string) : option Error :=
  match reply with
  | NetworkFailure m => Some (mkError "TypeError" m)
  | HttpFailure status statusText bodyMessage =>
      Some (newError (notOk status statusText bodyMessage))
  | HttpSuccess _ => None
  end.

(* ================================================================== *)
(** * More of the video generator                                      *)
(* ================================================================== *)

(** A call of the transcription service. *)
Definition is_assembly (e : Event) : bool :=
  match e with
  | AssemblyUpload _ | AssemblySubmit _ | AssemblyPoll _ => true
  | _ => false
  end.

(** The conversion of the recorded audio, or its upload as an asset. *)
Definition is_audio_upload (e : Event) : bool :=
  match e with
  | HeyGenUpload _ _ | DecodeAudio _ => true
  | _ => false
  end.

(** The events of [generateVideo] once step 1 is over. *)
Definition after_step1 (e : Event) : bool :=
  match e with
  | AssemblyUpload _ | AssemblySubmit _ | AssemblyPoll _
  | HeyGenUpload _ _ | DecodeAudio _ | Alert _ => false
  | _ => true
  end.

(** A computation that causes only events of one kind. *)
Definition emits {A} (p : Event -> bool) (m : Async A) : Prop :=
  forall s, forallb p (trace (m s)) = true.

(** The [voice] members of the video inputs of a render request. *)
Definition voices (body : RequestBody) : list VoiceInput :=
  map input_voice (video_inputs body).

(* ================================================================== *)
(** * utils/storage.js : the character store                           *)
(* ================================================================== *)

(** A stored character.  [id] is the auto-incremented primary key
    ([keyPath: 'id', autoIncrement: true]); no index of this store is
    unique. *)
Module StoredCharacter.
Record t := mk {
  id : nat;
  name : string;
  imageBlob : Blob;
  heygenId : string;
  heygenUrl : option string;
  uploadedAt : string;
  isDefault : bool;
  createdAt : string
}.
End StoredCharacter.

(** The argument of [saveCharacter]: a character without key, whose
    [createdAt] may be missing. *)
Module CharacterData.
Record t := mk {
  name : string;
  imageBlob : Blob;
  heygenId : string;
  heygenUrl : option string;
  uploadedAt : string;
  isDefault : bool;
  createdAt : option string
}.
End CharacterData.

Module CharacterStorage.

(** The object store 'characters': records in key order and the key
    generator. *)
Record Store := mkStore {
  nextKey : nat;
  characters : list StoredCharacter.t
}.

Definition empty : Store := mkStore 1 [].

(** [char.isDefault = flag] *)
Definition withDefault (flag : bool) (c : StoredCharacter.t) : StoredCharacter.t :=
  StoredCharacter.mk (StoredCharacter.id c) (StoredCharacter.name c)
    (StoredCharacter.imageBlob c) (StoredCharacter.heygenId c)
    (StoredCharacter.heygenUrl c) (StoredCharacter.uploadedAt c)
    flag (StoredCharacter.createdAt c).

(** [objectStore.get(id)] *)
Definition get (id : nat) (s : Store) : option StoredCharacter.t :=
  find (fun c => (StoredCharacter.id c =? id)%nat) (characters s).

(** [objectStore.put(char)] for a record carrying its key. *)
Definition put (char : StoredCharacter.t) (s : Store) : Store :=
  if existsb (fun c => (StoredCharacter.id c =? StoredCharacter.id char)%nat)
       (characters s)
  then mkStore (nextKey s)
         (map (fun c => if (StoredCharacter.id c =? StoredCharacter.id char)%nat
                        then char else c)
              (characters s))
  else mkStore (Nat.max (nextKey s) (S (StoredCharacter.id char)))
         (characters s ++ [char])%list.

(** [getCharacters()] *)
Definition getCharacters (s : Store) : list StoredCharacter.t := characters s.

(** [clearAllDefaults()]: every record read with [isDefault] set is put
    back with the flag cleared. *)
Definition clearAllDefaults (s : Store) : Store :=
  fold_left (fun s' char => put (withDefault false char) s')
    (filter StoredCharacter.isDefault (getCharacters s)) s.

(** The record [saveCharacter] stores under [key]; [now] is
    [new Date().toISOString()]. *)
Definition newCharacter (now : string) (characterData : CharacterData.t) (key : nat)
  : StoredCharacter.t :=
  StoredCharacter.mk key
    (CharacterData.name characterData)
    (CharacterData.imageBlob characterData)
    (CharacterData.heygenId characterData)
    (CharacterData.heygenUrl characterData)
    (CharacterData.uploadedAt characterData)
    (CharacterData.isDefault characterData)
    (or_else (CharacterData.createdAt characterData) now).

(** [saveCharacter(characterData)]: resolves with the new key. *)
Definition saveCharacter (now : string) (characterData : CharacterData.t) (s : Store)
  : nat * Store :=
  let s1 := if CharacterData.isDefault characterData then clearAllDefaults s else s in
  (nextKey s1,
   mkStore (S (nextKey s1))
     (characters s1 ++ [newCharacter now characterData (nextKey s1)])%list).

(** [deleteCharacter(id)] *)
Definition deleteCharacter (id : nat) (s : Store) : Store :=
  mkStore (nextKey s)
    (filter (fun c => negb (StoredCharacter.id c =? id)%nat) (characters s)).

(** [setDefaultCharacter(id)] *)
Definition setDefaultCharacter (id : nat) (s : Store) : Result unit * Store :=
  let s1 := clearAllDefaults s in
  match get id s1 with
  | Some character => (Ok tt, put (withDefault true character) s1)
  | None => (Err (newError "Character not found"), s1)
  end.

(** [getDefaultCharacter()] *)
Definition getDefaultCharacter (s : Store) : option StoredCharacter.t :=
  find StoredCharacter.isDefault (getCharacters s).

End CharacterStorage.

(** The records flagged as default. *)
Definition defaults (s : CharacterStorage.Store) : list StoredCharacter.t :=
  filter StoredCharacter.isDefault (CharacterStorage.characters s).

(** What the key generator maintains: keys are unique and below the next
    key. *)
Definition keyed (s : CharacterStorage.Store) : Prop :=
  NoDup (map StoredCharacter.id (CharacterStorage.characters s))
  /\ Forall (fun c => StoredCharacter.id c < CharacterStorage.nextKey s)
       (CharacterStorage.characters s).

(** Two records that differ at most in the default flag. *)
Definition same_but_default (a b : StoredCharacter.t) : Prop :=
  CharacterStorage.withDefault false a = CharacterStorage.withDefault false b.

Definition sampleCharacter (name : string) (isDefault : bool) : CharacterData.t :=
  CharacterData.mk name (mkBlob "image/png" 2048) ("photo-" ++ name) None
    "2025-01-01T00:00:00.000Z" isDefault None.

(** A store with three characters, the second one the default. *)
Definition sampleCharacters : CharacterStorage.Store :=
  snd (CharacterStorage.saveCharacter "2025-01-03T00:00:00.000Z"
         (sampleCharacter "carol" false)
         (snd (CharacterStorage.saveCharacter "2025-01-02T00:00:00.000Z"
                 (sampleCharacter "bob" true)
                 (snd (CharacterStorage.saveCharacter "2025-01-01T00:00:00.000Z"
                         (sampleCharacter "alice" false)
                         CharacterStorage.empty))))).

(** The second transaction of [setDefaultCharacter], opened once
    [clearAllDefaults] has resolved: the record is read, flagged and put
    back. *)
Definition markDefault (id : nat) (s : CharacterStorage.Store)
  : Result unit * CharacterStorage.Store :=
  match CharacterStorage.get id s with
  | Some character =>
      (Ok tt, CharacterStorage.put (CharacterStorage.withDefault true character) s)
  | None => (Err (newError "Character not found"), s)
  end.

(** Two calls [setDefaultCharacter(a)] and [setDefaultCharacter(b)] that
    overlap: the second call is made while the first still awaits
    [clearAllDefaults], so both have cleared the defaults before either
    opens its second transaction. *)
Definition overlappingDefaults (a b : nat) (s : CharacterStorage.Store)
  : CharacterStorage.Store :=
  let cleared := CharacterStorage.clearAllDefaults (CharacterStorage.clearAllDefaults s) in
  snd (markDefault b (snd (markDefault a cleared))).

(* ================================================================== *)
(** * The character manager                                            *)
(* ================================================================== *)

Module CHARACTER.
Definition SUPPORTED_FORMATS : list string := ["image/jpeg"; "image/png"; "image/webp"].
Definition MAX_FILE_SIZE : N := 10 * 1024 * 1024.
End CHARACTER.

(** The double quote of the success toast. *)
Definition quote : ascii := ascii_of_nat 34.

Module CharacterManager.

(** What a call of the manager does besides changing its state: requests
    to HeyGen, toasts, and the rendering of the character grid. *)
Inductive Effect :=
| Service (e : Event)
| ToastLoading (message : string)
| ToastHide
| ToastSuccess (message : string)
| ToastError (message : string)
| Render.

(** [window.toast] as [uploadCharacter] sees it: missing, or present with
    the handle [toast.loading] returns being truthy or not. *)
Inductive Toast :=
| NoToast
| Handle (truthy : bool).

Record t := mk {
  characters : list StoredCharacter.t;
  selectedCharacter : option StoredCharacter.t;
  storage : CharacterStorage.Store
}.

Definition loadingToast (toast : Toast) : list Effect :=
  match toast with
  | NoToast => []
  | Handle _ => [ToastLoading "Uploading character to HeyGen..."]
  end.

(** [if (window.toast && uploadToast) { hide; show }] *)
Definition closingToast (toast : Toast) (shown : Effect) : list Effect :=
  match toast with
  | Handle true => [ToastHide; shown]
  | _ => []
  end.

(** [loadCharacters()] *)
Definition loadCharacters (m : t) : t * list Effect :=
  (mk (CharacterStorage.getCharacters (storage m)) (selectedCharacter m) (storage m),
   [Render]).

(** [uploadCharacter(file, name)].  [uploadedAt] and [savedAt] are the two
    readings of the clock, [reply] is HeyGen's answer to the upload. *)
Definition uploadCharacter (file : Blob) (name : string)
    (uploadedAt savedAt : string) (reply : FetchReply Asset) (toast : Toast) (m : t)
  : Outcome StoredCharacter.t * t * list Effect :=
  if negb (existsb (String.eqb (blob_type file)) CHARACTER.SUPPORTED_FORMATS)
  then (Rejected (newError "Unsupported file format. Please use JPG, PNG, or WebP."),
        m, [])
  else if (CHARACTER.MAX_FILE_SIZE <? N.of_nat (blob_size file))%N
  then (Rejected (newError "File size exceeds 10MB limit."), m, [])
  else
    let uploaded := HeyGen.uploadAsset file "image" reply VideoHistory.empty in
    let begun := (loadingToast toast ++ map Service (trace uploaded))%list in
    let failed error :=
      (Rejected error, m,
       (begun ++ closingToast toast
                   (ToastError ("HeyGen upload failed: " ++ message error)))%list) in
    match outcome uploaded with
    | Resolved heygenAsset =>
        if negb (truthy (Some (asset_id heygenAsset)))
        then failed (newError "Failed to get HeyGen asset ID")
        else
          let character :=
            CharacterData.mk name file (asset_id heygenAsset)
              (or_null (asset_url heygenAsset)) uploadedAt false None in
          let '(id, storage') :=
            CharacterStorage.saveCharacter savedAt character (storage m) in
          let stored := CharacterStorage.newCharacter savedAt character id in
          (Resolved stored,
           mk (characters m ++ [stored]) (selectedCharacter m) storage',
           (begun
            ++ closingToast toast
                 (ToastSuccess
                    ("Character " ++ String quote (name ++ String quote
                     " uploaded to HeyGen successfully!")))
            ++ [Render])%list)
    | Rejected error => failed error
    | Pending => (Pending, m, begun)
    end.

(** [deleteCharacter(id)]; [toast] tells whether [window.toast] exists. *)
Definition deleteCharacter (id : nat) (toast : bool) (m : t) : t * list Effect :=
  let storage' := CharacterStorage.deleteCharacter id (storage m) in
  let selected :=
    match selectedCharacter m with
    | Some c => if (StoredCharacter.id c =? id)%nat then None else Some c
    | None => None
    end in
  let '(m', rendered) := loadCharacters (mk (characters m) selected storage') in
  (m', (rendered
        ++ if toast then [ToastSuccess "Character deleted successfully"] else [])%list).

(** [setDefaultCharacter(id)] *)
Definition setDefaultCharacter (id : nat) (toast : bool) (m : t)
  : Result unit * t * list Effect :=
  let '(r, storage') := CharacterStorage.setDefaultCharacter id (storage m) in
  match r with
  | Err error => (Err error, mk (characters m) (selectedCharacter m) storage', [])
  | Ok _ =>
      let '(m', rendered) :=
        loadCharacters (mk (characters m) (selectedCharacter m) storage') in
      (Ok tt, m',
       (rendered
        ++ if toast then [ToastSuccess "Default character updated"] else [])%list)
  end.

(** [selectCharacter(character)], up to the timer that moves the wizard
    on. *)
Definition selectCharacter (character : StoredCharacter.t) (m : t) : t :=
  mk (characters m) (Some character) (storage m).

(** [getSelectedCharacter()], as the video generator reads it. *)
Definition getSelectedCharacter (m : t) : option VideoGenerator.Character :=
  option_map
    (fun c => mkCharacter (StoredCharacter.heygenId c) (Some (StoredCharacter.name c)))
    (selectedCharacter m).

End CharacterManager.

(** The manager shows what the store holds. *)
Definition in_sync (m : CharacterManager.t) : Prop :=
  CharacterManager.characters m
  = CharacterStorage.characters (CharacterManager.storage m).

(** The requests to HeyGen among the effects of a call. *)
Definition requests (effects : list CharacterManager.Effect) : list Event :=
  flat_map (fun e => match e with CharacterManager.Service r => [r] | _ => [] end)
    effects.

Definition sampleManager : CharacterManager.t :=
  CharacterManager.mk (CharacterStorage.characters sampleCharacters) None
    sampleCharacters.

(* ================================================================== *)
(** * app.js : the wizard                                              *)
(* ================================================================== *)

Module App.

(** What the wizard does to the page and the recorder. *)
Inductive Ui :=
| ToastError (message : string)
| EnableButton (id : string)
| StopRecording
| UpdateSummary
| ScrollToTop.

(** [app.currentStep] and [recorder.isRecording]. *)
Record State := mkState {
  currentStep : nat;
  isRecording : bool
}.

(** [validateStep(step)]; the selections are read from [env]. *)
Definition validateStep (env : Env) (step : nat) : bool * list Ui :=
  match step with
  | 1 =>
      match getAudioBlob env with
      | None => (false, [ToastError "Please record your voice before proceeding"])
      | Some _ => (true, [])
      end
  | 2 =>
      match getSelectedAvatar env, getSelectedCharacter env with
      | None, None => (false, [ToastError "Please select an avatar or character"])
      | _, _ => (true, [EnableButton "next-to-voice"])
      end
  | 3 =>
      match getSelectedVoice env with
      | None => (false, [ToastError "Please select a voice option"])
      | Some _ => (true, [EnableButton "next-to-generate"])
      end
  | _ => (true, [])
  end.

(** [showStep(step)] *)
Definition showStep (step : nat) (st : State) : State * list Ui :=
  let stop := negb (step =? 1)%nat && isRecording st in
  (mkState step (if stop then false else isRecording st),
   ((if stop then [StopRecording] else [])
    ++ (if (step =? 4)%nat then [UpdateSummary] else []))%list).

(** [goToStep(step)] *)
Definition goToStep (env : Env) (step : nat) (st : State) : State * list Ui :=
  let shown :=
    let '(st', ui) := showStep step st in (st', (ui ++ [ScrollToTop])%list) in
  if (currentStep st <? step)%nat then
    let '(ok, ui) := validateStep env (currentStep st) in
    if ok then (fst shown, (ui ++ snd shown)%list) else (st, ui)
  else shown.

(** The avatar line of [updateSummary].  A selected avatar always carries
    [isPreset], which [selectAvatar] sets. *)
Definition summaryAvatar (env : Env) : string :=
  match getSelectedAvatar env, getSelectedCharacter env with
  | Some avatar, _ => or_else (avatar_name avatar) "Preset Avatar"
  | None, Some character => or_else (name character) "Custom Character"
  | None, None => "Not selected"
  end.

End App.

(** [goToStep(currentStep + 1)], the call the click handler of the 'next'
    button of the step shown makes ([next-to-avatar] on step 1,
    [next-to-voice] on step 2, [next-to-generate] on step 3), [n] times in
    a row.  A button that is disabled fires no handler; whether the
    buttons are enabled is outside this model, which follows the calls of
    the clicks that fire. *)
Fixpoint goToNext (env : Env) (n : nat) (st : App.State) : App.State * list App.Ui :=
  match n with
  | 0 => (st, [])
  | S n' =>
      let '(st1, ui1) := App.goToStep env (S (App.currentStep st)) st in
      let '(st2, ui2) := goToNext env n' st1 in
      (st2, (ui1 ++ ui2)%list)
  end.

(** The error toasts among what the wizard did. *)
Definition toasts (ui : list App.Ui) : list string :=
  flat_map (fun e => match e with App.ToastError m => [m] | _ => [] end) ui.

(* ================================================================== *)
(** * utils/audio-converter.js : the WAV encoder                       *)
(* ================================================================== *)

(** A [DataView] over a fresh [ArrayBuffer]: the bytes, each in 0..255. *)
Module DataView.

Definition t := list Z.

(** [new ArrayBuffer(length)] *)
Definition create (length : nat) : t := repeat 0%Z length.

(** The [width] low bytes of [data], least significant first. *)
Definition littleEndian (width : nat) (data : Z) : list Z :=
  map (fun k => Z.land (Z.shiftr data (8 * Z.of_nat k)) 255) (seq 0 width).

(** Writing [bytes] at [pos]; [None] is the RangeError of a write that
    does not fit. *)
Definition set (pos : nat) (bytes : list Z) (view : t) : option t :=
  if (pos + length bytes <=? length view)%nat
  then Some (firstn pos view ++ bytes ++ skipn (pos + length bytes) view)%list
  else None.

(** [view.setUint16(pos, data, true)], [view.setUint32(pos, data, true)]
    and [view.setInt16(pos, data, true)] for an integer [data]: the low
    bits of [data] in two's complement. *)
Definition setUint16 (pos : nat) (data : Z) : t -> option t :=
  set pos (littleEndian 2 data).

Definition setUint32 (pos : nat) (data : Z) : t -> option t :=
  set pos (littleEndian 4 data).

Definition setInt16 (pos : nat) (data : Z) : t -> option t :=
  set pos (littleEndian 2 data).

(** Reading back: [getUint16], [getUint32] and [getInt16], little
    endian. *)
Definition unsigned (bytes : list Z) : Z :=
  fold_right (fun b acc => b + 256 * acc)%Z 0%Z bytes.

Definition getUint16 (pos : nat) (view : t) : Z := unsigned (firstn 2 (skipn pos view)).

Definition getUint32 (pos : nat) (view : t) : Z := unsigned (firstn 4 (skipn pos view)).

Definition getInt16 (pos : nat) (view : t) : Z :=
  let u := getUint16 pos view in
  if (u <? 32768)%Z then u else (u - 65536)%Z.

End DataView.

Module WavEncoder.

(** An element of a [Float32Array], or what reading past its end gives
    once it is used as a number.  A finite float is a rational; the
    products below have at most 39 significant bits, so they are exact in
    double precision. *)
Inductive Sample :=
| NaN
| Infinity (negative : bool)
| Finite (q : QArith_base.Q).

(** An [AudioBuffer].  [sampleRate] is kept as the integer it is for the
    rates a browser decodes to. *)
Record AudioBuffer := mkAudioBuffer {
  buffer_length : nat;
  numberOfChannels : nat;
  sampleRate : Z;
  channelData : list (list Sample)
}.

(** [buffer.getChannelData(i)] *)
Definition getChannelData (buffer : AudioBuffer) (i : nat) : list Sample :=
  nth i (channelData buffer) [].

(** [a < b] on numbers *)
Definition lessThan (a b : Sample) : bool :=
  match a, b with
  | NaN, _ | _, NaN => false
  | Infinity true, Infinity true => false
  | Infinity true, _ => true
  | _, Infinity true => false
  | Infinity false, _ => false
  | _, Infinity false => true
  | Finite p, Finite q => negb (QArith_base.Qle_bool q p)
  end.

(** [Math.min(a, b)] and [Math.max(a, b)] *)
Definition min (a b : Sample) : Sample :=
  match a, b with
  | NaN, _ | _, NaN => NaN
  | _, _ => if lessThan b a then b else a
  end.

Definition max (a b : Sample) : Sample :=
  match a, b with
  | NaN, _ | _, NaN => NaN
  | _, _ => if lessThan a b then b else a
  end.

(** [sample * k] for a positive integer [k] *)
Definition times (sample : Sample) (k : Z) : Sample :=
  match sample with
  | Finite q => Finite (QArith_base.Qmult q (QArith_base.inject_Z k))
  | other => other
  end.

(** A rational truncated towards zero. *)
Definition truncate (q : QArith_base.Q) : Z :=
  Z.quot (QArith_base.Qnum q) (Z.pos (QArith_base.Qden q)).

(** The integer [setInt16] stores for a number: zero for NaN and the
    infinities, else the number truncated towards zero and wrapped to 16
    bits. *)
Definition toInt16 (sample : Sample) : Z :=
  match sample with
  | Finite q => ((truncate q + 32768) mod 65536 - 32768)%Z
  | _ => 0%Z
  end.

(** The body of the inner loop: clamp, scale, store. *)
Definition scaled (sample : Sample) : Sample :=
  let sample := max (Finite (QArith_base.inject_Z (-1)))
                    (min (Finite (QArith_base.inject_Z 1)) sample) in
  if lessThan sample (Finite (QArith_base.inject_Z 0))
  then times sample 32768 else times sample 32767.

(** The view and the write position [pos] of [audioBufferToWav]. *)
Record Writer := mkWriter {
  view : DataView.t;
  pos : nat
}.

Definition setUint16 (data : Z) (w : Writer) : option Writer :=
  option_map (fun v => mkWriter v (pos w + 2)) (DataView.setUint16 (pos w) data (view w)).

Definition setUint32 (data : Z) (w : Writer) : option Writer :=
  option_map (fun v => mkWriter v (pos w + 4)) (DataView.setUint32 (pos w) data (view w)).

(** One statement after the other, as long as no write fails. *)
Definition andThen (w : option Writer) (f : Writer -> option Writer) : option Writer :=
  match w with
  | Some w' => f w'
  | None => None
  end.

(** The header, from the RIFF tag to the size of the data chunk. *)
Definition writeHeader (buffer : AudioBuffer) (length : nat) (w : Writer)
  : option Writer :=
  let channels := Z.of_nat (numberOfChannels buffer) in
  andThen (andThen (andThen (andThen (andThen (andThen (andThen (andThen (andThen
  (andThen (andThen (andThen
    (setUint32 1179011410 w)
    (setUint32 (Z.of_nat length - 8)))
    (setUint32 1163280727))
    (setUint32 544501094))
    (setUint32 16))
    (setUint16 1))
    (setUint16 channels))
    (setUint32 (sampleRate buffer)))
    (setUint32 (sampleRate buffer * 2 * channels)))
    (setUint16 (channels * 2)))
    (setUint16 16))
    (setUint32 1635017060))
    (fun w' => setUint32 (Z.of_nat length - Z.of_nat (pos w') - 4) w').

(** The [for] loop over the channels, for the frame at [offset]. *)
Fixpoint writeFrame (channels : list (list Sample)) (offset : nat) (w : Writer)
  : option Writer :=
  match channels with
  | [] => Some w
  | channel :: others =>
      match DataView.setInt16 (pos w) (toInt16 (scaled (nth offset channel NaN)))
              (view w) with
      | Some v => writeFrame others offset (mkWriter v (pos w + 2))
      | None => None
      end
  end.

(** How the encoder can end. *)
Inductive Encoded :=
| Done (bytes : list Z)
| RangeError
| OutOfFuel.

(** The [while (pos < length)] loop; [fuel] bounds the number of tests of
    its condition. *)
Fixpoint writeFrames (fuel : nat) (channels : list (list Sample)) (length : nat)
    (offset : nat) (w : Writer) : Encoded :=
  match fuel with
  | 0 => OutOfFuel
  | S fuel' =>
      if (pos w <? length)%nat then
        match writeFrame channels offset w with
        | Some w' => writeFrames fuel' channels length (S offset) w'
        | None => RangeError
        end
      else Done (view w)
  end.

(** [audioBufferToWav(buffer)], up to the wrapping of the bytes into a
    Blob. *)
Definition audioBufferToWav (fuel : nat) (buffer : AudioBuffer) : Encoded :=
  let length := buffer_length buffer * numberOfChannels buffer * 2 + 44 in
  match writeHeader buffer length (mkWriter (DataView.create length) 0) with
  | None => RangeError
  | Some w =>
      let channels :=
        map (getChannelData buffer) (seq 0 (numberOfChannels buffer)) in
      writeFrames fuel channels length 0 w
  end.

(** [new Blob([arrayBuffer], { type: 'audio/wav' })] *)
Definition wavBlob (bytes : list Z) : Blob := mkBlob "audio/wav" (length bytes).

(** [convertToWAV(audioBlob)]: [decodedAudio] is the fate of
    [decodeAudioData]. *)
Definition convertToWAV (fuel : nat) (decodedAudio : Result AudioBuffer)
  : Result Blob :=
  match decodedAudio with
  | Err e => Err e
  | Ok buffer =>
      match audioBufferToWav fuel buffer with
      | Done bytes => Ok (wavBlob bytes)
      | RangeError => Err (mkError "RangeError" "Offset is outside the bounds of the DataView")
      | OutOfFuel => Err (mkError "OutOfFuel" "")
      end
  end.

End WavEncoder.

(** The sixteen-bit value the encoder stores for a sample. *)
Definition pcm (sample : WavEncoder.Sample) : Z :=
  WavEncoder.toInt16 (WavEncoder.scaled sample).

(** The frames of a buffer one after the other, in each frame the
    channels one after the other, each sample as two bytes. *)
Definition interleaved (buffer : WavEncoder.AudioBuffer) : list Z :=
  flat_map
    (fun offset =>
       flat_map
         (fun i =>
            DataView.littleEndian 2
              (pcm (nth offset (WavEncoder.getChannelData buffer i) WavEncoder.NaN)))
         (seq 0 (WavEncoder.numberOfChannels buffer)))
    (seq 0 (WavEncoder.buffer_length buffer)).

(** The bytes of an ASCII tag. *)
Definition tag (s : string) : list Z :=
  map (fun c => Z.of_nat (nat_of_ascii c)) (list_ascii_of_string s).

(** A stereo buffer of three frames. *)
Definition sampleBuffer : WavEncoder.AudioBuffer :=
  WavEncoder.mkAudioBuffer 3 2 44100
    [[WavEncoder.Finite (QArith_base.Qmake 1 2);
      WavEncoder.Finite (QArith_base.Qmake (-3) 2);
      WavEncoder.NaN];
     [WavEncoder.Finite (QArith_base.Qmake 0 1);
      WavEncoder.Finite (QArith_base.Qmake 5 4);
      WavEncoder.Finite (QArith_base.Qmake (-1) 4)]].

(** The bytes a frame takes, and the header of a file with [payload]
    bytes of samples. *)
Definition frameBytes (channels : list (list WavEncoder.Sample)) (offset : nat)
  : list Z :=
  flat_map
    (fun channel => DataView.littleEndian 2 (pcm (nth offset channel WavEncoder.NaN)))
    channels.

Definition header (buffer : WavEncoder.AudioBuffer) (payload : nat) : list Z :=
  let channels := Z.of_nat (WavEncoder.numberOfChannels buffer) in
  (tag "RIFF" ++ DataView.littleEndian 4 (Z.of_nat (44 + payload) - 8)
   ++ tag "WAVE" ++ tag "fmt "
   ++ DataView.littleEndian 4 16 ++ DataView.littleEndian 2 1
   ++ DataView.littleEndian 2 channels
   ++ DataView.littleEndian 4 (WavEncoder.sampleRate buffer)
   ++ DataView.littleEndian 4 (WavEncoder.sampleRate buffer * 2 * channels)
   ++ DataView.littleEndian 2 (channels * 2) ++ DataView.littleEndian 2 16
   ++ tag "data"
   ++ DataView.littleEndian 4 (Z.of_nat (44 + payload) - Z.of_nat 40 - 4))%list.

(* ================================================================== *)
(** * The history store                                                *)
(* ================================================================== *)

Lemma find_app_none (videoId : string) (l1 l2 : list Video.t) :
  find (fun v => Video.videoId v =? videoId) l1 = None ->
  find (fun v => Video.videoId v =? videoId) (l1 ++ l2)%list
  = find (fun v => Video.videoId v =? videoId) l2.
Proof.
  induction l1 as [|a l1 IH]; simpl; [reflexivity|].
  destruct (Video.videoId a =? videoId); [discriminate | exact IH].
Qed.

Lemma find_none_filter (videoId : string) (l : list Video.t) :
  find (fun v => Video.videoId v =? videoId) l = None ->
  filter (fun v => Video.videoId v =? videoId) l = [].
Proof.
  induction l as [|a l IH]; simpl; [reflexivity|].
  destruct (Video.videoId a =? videoId); [discriminate | exact IH].
Qed.

Lemma find_some_in (videoId : string) (l : list Video.t) (v : Video.t) :
  find (fun v => Video.videoId v =? videoId) l = Some v ->
  In v l /\ Video.videoId v = videoId.
Proof.
  intros H. apply find_some in H. destruct H as [Hin Ho].
  split; [exact Hin | now apply String.eqb_eq].
Qed.

(** Replacing, by key, the record found under [videoId] by another record
    of the same job. *)
Lemma find_replace (videoId : string) (l : list Video.t) (r r' : Video.t) :
  find (fun v => Video.videoId v =? videoId) l = Some r ->
  Video.videoId r' = videoId ->
  find (fun v => Video.videoId v =? videoId)
    (map (fun v => if (Video.id v =? Video.id r)%nat then r' else v) l)
  = Some r'.
Proof.
  intros Hfind Hid.
  assert (Hr' : (Video.videoId r' =? videoId) = true)
    by (rewrite Hid; apply String.eqb_refl).
  induction l as [|a l IH]; simpl in *; [discriminate|].
  destruct (Video.videoId a =? videoId) eqn:Ha.
  - inversion Hfind; subst a. rewrite Nat.eqb_refl, Hr'. reflexivity.
  - destruct (Video.id a =? Video.id r)%nat.
    + now rewrite Hr'.
    + rewrite Ha. now apply IH.
Qed.

Lemma nodup_map_injective {A B} (f : A -> B) (l : list A) (a b : A) :
  NoDup (map f l) -> In a l -> In b l -> f a = f b -> a = b.
Proof.
  induction l as [|x l IH]; simpl; intros Hnd Ha Hb Hf; [contradiction|].
  inversion Hnd as [|? ? Hnotin Hnd']; subst.
  destruct Ha as [Ha|Ha], Hb as [Hb|Hb]; subst.
  - reflexivity.
  - exfalso. apply Hnotin. rewrite Hf. now apply in_map.
  - exfalso. apply Hnotin. rewrite <- Hf. now apply in_map.
  - now apply IH.
Qed.

(** [addVideo] on a job id that the store does not hold yet. *)
Lemma addVideo_fresh now videoData s :
  getVideo (VideoData.videoId videoData) s = None ->
  addVideo now videoData s
  = (Ok (nextKey s),
     mkStore (S (nextKey s))
             (videos s ++ [newVideo now videoData (nextKey s)])%list).
Proof.
  unfold getVideo, addVideo, add. simpl. intros ->. reflexivity.
Qed.

(** [addVideo] on a job id that the store already holds. *)
Lemma addVideo_taken now videoData s v :
  getVideo (VideoData.videoId videoData) s = Some v ->
  addVideo now videoData s = (Err ConstraintError, s).
Proof.
  unfold getVideo, addVideo, add. simpl. intros ->. reflexivity.
Qed.

Lemma getVideo_after_add now videoData s :
  getVideo (VideoData.videoId videoData) s = None ->
  getVideo (VideoData.videoId videoData) (snd (addVideo now videoData s))
  = Some (newVideo now videoData (nextKey s)).
Proof.
  intros H. rewrite (addVideo_fresh _ _ _ H). simpl.
  unfold getVideo, index_get in *. simpl.
  rewrite find_app_none by exact H. simpl.
  now rewrite String.eqb_refl.
Qed.

Lemma unique_index_add now videoData s :
  unique_index s -> unique_index (snd (addVideo now videoData s)).
Proof.
  intros Hu. destruct (getVideo (VideoData.videoId videoData) s) eqn:Hg.
  - now rewrite (addVideo_taken _ _ _ _ Hg).
  - rewrite (addVideo_fresh _ _ _ Hg). unfold unique_index in *. simpl.
    rewrite map_app. simpl.
    apply NoDup_app; [exact Hu | repeat constructor; intros [] |].
    intros a Hin [Ha|[]]. subst a.
    apply in_map_iff in Hin. destruct Hin as [v [Hv Hin]].
    unfold getVideo, index_get in Hg.
    apply (find_none _ _ Hg) in Hin. rewrite Hv, String.eqb_refl in Hin.
      discriminate.
Qed.

Lemma unique_index_sole_owner videoId s v :
  unique_index s -> getVideo videoId s = Some v -> sole_owner videoId s v.
Proof.
  intros Hu Hg. split; [exact Hg|]. intros x Hx Hid.
  destruct (find_some_in _ _ _ Hg) as [Hin Hv].
  f_equal. eapply nodup_map_injective; eauto. congruence.
Qed.

Lemma sole_owner_after_add now videoData s :
  getVideo (VideoData.videoId videoData) s = None ->
  sole_owner (VideoData.videoId videoData) (snd (addVideo now videoData s))
             (newVideo now videoData (nextKey s)).
Proof.
  intros Hg. split; [now apply getVideo_after_add|].
  rewrite (addVideo_fresh _ _ _ Hg). simpl. intros x Hx Hid.
  apply in_app_or in Hx. destruct Hx as [Hx | [Hx | []]].
  - unfold getVideo, index_get in Hg. apply (find_none _ _ Hg) in Hx.
    rewrite Hid, String.eqb_refl in Hx. discriminate.
  - now subst x.
Qed.

(** [updateVideo] on a job the store holds succeeds and leaves the
    assigned record under the same job id. *)
Lemma updateVideo_found videoId updates s v :
  sole_owner videoId s v ->
  exists s',
    updateVideo videoId updates s = (Ok tt, s')
    /\ getVideo videoId s' = Some (assign v updates)
    /\ nextKey s' = nextKey s
    /\ length (videos s') = length (videos s).
Proof.
  intros [Hg Hsole]. unfold updateVideo. unfold getVideo in Hg. rewrite Hg.
  destruct (find_some_in _ _ _ Hg) as [Hin Hid].
  unfold put. simpl.
  assert (Hother :
    existsb (fun x => (Video.videoId x =? Video.videoId v)
                      && negb (Video.id x =? Video.id v)%nat) (videos s) = false).
  { apply not_true_is_false. intros Hex.
    apply existsb_exists in Hex. destruct Hex as [x [Hx Hb]].
    apply andb_true_iff in Hb. destruct Hb as [Hsame Hkey].
    apply String.eqb_eq in Hsame.
    rewrite (Hsole x Hx) in Hkey by congruence.
    rewrite Nat.eqb_refl in Hkey. discriminate. }
  rewrite Hother.
  assert (Hkey : existsb (fun x => (Video.id x =? Video.id v)%nat) (videos s) = true).
  { apply existsb_exists. exists v. split; [exact Hin | apply Nat.eqb_refl]. }
  rewrite Hkey.
  eexists. split; [reflexivity|]. simpl. repeat split.
  - unfold getVideo, index_get. simpl.
    apply find_replace; [exact Hg | exact Hid].
  - apply length_map.
Qed.

Lemma updateVideo_missing videoId updates s :
  getVideo videoId s = None ->
  updateVideo videoId updates s = (Err (newError "Video not found"), s).
Proof.
  unfold getVideo, updateVideo. intros ->. reflexivity.
Qed.

(** A rejected store call leaves the store as it was. *)
Lemma updateVideo_rejected videoId updates s e s' :
  updateVideo videoId updates s = (Err e, s') -> s' = s.
Proof.
  unfold updateVideo, put.
  destruct (index_get videoId s); [|now inversion 1].
  destruct (existsb _ _); [now inversion 1|].
  destruct (existsb _ _); inversion 1.
Qed.

Lemma addVideo_rejected now videoData s e s' :
  addVideo now videoData s = (Err e, s') -> s' = s.
Proof.
  unfold addVideo, add.
  destruct (index_get _ s); inversion 1. reflexivity.
Qed.

(** C6.  Two [addVideo] calls with the same remote job id: the second one
    is rejected with the ConstraintError of the unique index on [videoId]
    and changes nothing; when the first call went through, the store holds
    exactly one record for that id, the one the first call wrote. *)
Theorem addVideo_twice_same_id :
  forall now1 now2 first second s,
    VideoData.videoId first = VideoData.videoId second ->
    let s1 := snd (addVideo now1 first s) in
    addVideo now2 second s1 = (Err ConstraintError, s1)
    /\ Js.name ConstraintError = "ConstraintError"
    /\ (forall key, fst (addVideo now1 first s) = Ok key ->
          getVideo (VideoData.videoId first) (snd (addVideo now2 second s1))
          = Some (newVideo now1 first key)
          /\ count (VideoData.videoId first) (snd (addVideo now2 second s1)) = 1).
Proof.
  intros now1 now2 first second s Hsame s1. subst s1.
  destruct (getVideo (VideoData.videoId first) s) eqn:Hg.
  - rewrite (addVideo_taken _ _ _ _ Hg). simpl.
    assert (H2 : addVideo now2 second s = (Err ConstraintError, s)).
    { apply addVideo_taken with (v := t). now rewrite <- Hsame. }
    rewrite H2. repeat split; discriminate.
  - pose proof (getVideo_after_add now1 first s Hg) as Hafter.
    assert (H2 : addVideo now2 second (snd (addVideo now1 first s))
                 = (Err ConstraintError, snd (addVideo now1 first s))).
    { eapply addVideo_taken. rewrite <- Hsame. exact Hafter. }
    rewrite H2. split; [reflexivity|]. split; [reflexivity|].
    intros key Hkey. simpl.
    rewrite (addVideo_fresh _ _ _ Hg) in Hkey |- *. simpl in *.
    inversion Hkey; subst key. split.
    + rewrite (addVideo_fresh _ _ _ Hg) in Hafter. exact Hafter.
    + unfold count. simpl. rewrite filter_app.
      unfold getVideo, index_get in Hg.
      rewrite (find_none_filter _ _ Hg). simpl.
      now rewrite String.eqb_refl.
Qed.

Lemma addVideo_twice_same_id_witness :
  let first := VideoData.mk "job-1" None (Some "processing") None None None None None None None in
  let second := VideoData.mk "job-1" (Some "http://x") (Some "completed") None None None None None None None in
  let s1 := snd (addVideo "t1" first empty) in
  addVideo "t2" second s1 = (Err ConstraintError, s1)
  /\ Js.name ConstraintError = "ConstraintError"
  /\ (forall key, fst (addVideo "t1" first empty) = Ok key ->
        getVideo "job-1" (snd (addVideo "t2" second s1)) = Some (newVideo "t1" first key)
        /\ count "job-1" (snd (addVideo "t2" second s1)) = 1).
Proof.
  intros first second.
  exact (addVideo_twice_same_id "t1" "t2" first second empty eq_refl).
Defined.

(* ================================================================== *)
(** * Asynchronous computations: equations                             *)
(* ================================================================== *)

Lemma bind_resolved {A B} (m : Async A) (k : A -> Async B) s a :
  outcome (m s) = Resolved a ->
  bind m k s
  = mkRun (outcome (k a (store (m s)))) (store (k a (store (m s))))
          (trace (m s) ++ trace (k a (store (m s))))%list.
Proof. unfold bind. intros ->. reflexivity. Qed.

Lemma bind_rejected {A B} (m : Async A) (k : A -> Async B) s e :
  outcome (m s) = Rejected e ->
  bind m k s = mkRun (Rejected e) (store (m s)) (trace (m s)).
Proof. unfold bind. intros ->. reflexivity. Qed.

Lemma bind_pending {A B} (m : Async A) (k : A -> Async B) s :
  outcome (m s) = Pending ->
  bind m k s = mkRun Pending (store (m s)) (trace (m s)).
Proof. unfold bind. intros ->. reflexivity. Qed.

Lemma tryCatch_rejected {A} (m : Async A) (h : Error -> Async A) s e :
  outcome (m s) = Rejected e ->
  tryCatch m h s
  = mkRun (outcome (h e (store (m s)))) (store (h e (store (m s))))
          (trace (m s) ++ trace (h e (store (m s))))%list.
Proof. unfold tryCatch. intros ->. reflexivity. Qed.

Lemma tryCatch_resolved {A} (m : Async A) (h : Error -> Async A) s a :
  outcome (m s) = Resolved a -> tryCatch m h s = m s.
Proof. unfold tryCatch. intros ->. reflexivity. Qed.

Lemma tryCatch_pending {A} (m : Async A) (h : Error -> Async A) s :
  outcome (m s) = Pending -> tryCatch m h s = m s.
Proof. unfold tryCatch. intros ->. reflexivity. Qed.

Lemma run_eta {A} (r : Run A) : r = mkRun (outcome r) (store r) (trace r).
Proof. destruct r; reflexivity. Qed.

(** ** Replaying a trace *)

Lemma replay_app s t1 t2 : replay s (t1 ++ t2)%list = replay (replay s t1) t2.
Proof. unfold replay. apply fold_left_app. Qed.

Lemma replay_quiet t : forall s, forallb is_quiet t = true -> replay s t = s.
Proof.
  induction t as [|e t IH]; simpl; intros s H; [reflexivity|].
  apply andb_true_iff in H. destruct H as [He Ht].
  unfold replay in *. simpl.
  destruct e; try discriminate; simpl; now apply IH.
Qed.

(** ** Quiet computations *)

Lemma quiet_ret {A} (a : A) : quiet (ret a).
Proof. intros s. now split. Qed.

Lemma quiet_throw {A} (e : Error) : quiet (@throw A e).
Proof. intros s. now split. Qed.

Lemma quiet_pending {A} : quiet (@pending A).
Proof. intros s. now split. Qed.

Lemma quiet_emit e : is_quiet e = true -> quiet (emit e).
Proof. intros H s. simpl. now rewrite H. Qed.

Lemma quiet_bind {A B} (m : Async A) (k : A -> Async B) :
  quiet m -> (forall a, quiet (k a)) -> quiet (bind m k).
Proof.
  intros Hm Hk s. destruct (Hm s) as [Hs Ht]. unfold bind.
  destruct (outcome (m s)) as [a| |]; simpl; try now split.
  rewrite Hs. destruct (Hk a s) as [Hs' Ht']. split; [exact Hs'|].
  rewrite forallb_app. now rewrite Ht, Ht'.
Qed.

Lemma quiet_tryCatch {A} (m : Async A) (h : Error -> Async A) :
  quiet m -> (forall e, quiet (h e)) -> quiet (tryCatch m h).
Proof.
  intros Hm Hh s. destruct (Hm s) as [Hs Ht]. unfold tryCatch.
  destruct (outcome (m s)) as [a|e|]; simpl; try now split.
  rewrite Hs. destruct (Hh e s) as [Hs' Ht']. split; [exact Hs'|].
  rewrite forallb_app. now rewrite Ht, Ht'.
Qed.

Lemma quiet_fetch {A} request (reply : FetchReply A) notOk :
  is_quiet request = true -> quiet (fetch request reply notOk).
Proof.
  intros H. unfold fetch. apply quiet_bind; [now apply quiet_emit|].
  intros _. destruct reply; [apply quiet_throw | apply quiet_throw | apply quiet_ret].
Qed.

Create HintDb quiet.
#[export] Hint Resolve quiet_ret quiet_throw quiet_pending quiet_emit
  quiet_bind quiet_tryCatch quiet_fetch : quiet.

Lemma quiet_pollUntilDone transcriptId replies :
  forall transcript, quiet (AssemblyAI.pollUntilDone transcriptId replies transcript).
Proof.
  induction replies as [|reply later IH]; intros transcript; simpl;
    destruct (negb (Transcript.status transcript =? "completed")
              && negb (Transcript.status transcript =? "error"));
    unfold sleep, AssemblyAI.pollTranscription; auto 8 with quiet.
Qed.

Lemma quiet_getTranscript audioBlob world :
  quiet (AssemblyAI.getTranscript audioBlob world).
Proof.
  unfold AssemblyAI.getTranscript, AssemblyAI.uploadAudio,
    AssemblyAI.submitTranscription, AssemblyAI.pollTranscription.
  apply quiet_bind; [auto with quiet|]. intros audioUrl.
  apply quiet_bind; [auto with quiet|]. intros transcriptId.
  destruct (AssemblyAI.polls world) as [|reply later]; [apply quiet_pending|].
  apply quiet_bind; [auto with quiet|]. intros first.
  apply quiet_bind; [apply quiet_pollUntilDone|]. intros transcript.
  destruct (Transcript.status transcript =? "error"); auto with quiet.
Qed.

Lemma quiet_voiceStep env voiceSelection : quiet (voiceStep env voiceSelection).
Proof.
  unfold voiceStep. destruct voiceSelection as [|voice].
  - apply quiet_bind; [unfold LoadingModal.show; auto with quiet|]. intros _.
    apply quiet_tryCatch.
    + apply quiet_bind.
      * unfold AudioConverter.convertWebMToMP3.
        destruct (getAudioBlob env); [|apply quiet_throw].
        apply quiet_bind; [auto with quiet|]. intros _.
        destruct (decoded env); auto with quiet.
      * intros wavBlob. unfold LoadingModal.showUploading, LoadingModal.updateStatus,
          HeyGen.uploadAsset. auto 8 with quiet.
    + intros e. destruct (includes "fetch" (message e) || includes "CORS" (message e));
        apply quiet_throw.
  - unfold LoadingModal.showTranscribing, LoadingModal.updateStatus.
    apply quiet_bind; [auto with quiet|]. intros _.
    apply quiet_bind; [apply quiet_getTranscript|]. intros transcript.
    apply quiet_ret.
Qed.

(* ================================================================== *)
(** * One turn of the poll loop                                        *)
(* ================================================================== *)

Lemma updateVideo_error_message videoId updates s e s' :
  updateVideo videoId updates s = (Err e, s') ->
  (message e =? "Video generation failed") = false.
Proof.
  unfold updateVideo, put.
  destruct (index_get videoId s); [|inversion 1; reflexivity].
  destruct (existsb _ _); [inversion 1; reflexivity|].
  destruct (existsb _ _); inversion 1.
Qed.

Lemma status_cases (status : VideoStatus.t) :
  terminal status = false ->
  (VideoStatus.status status =? "completed") = false
  /\ (VideoStatus.status status =? "failed") = false.
Proof. unfold terminal. intros H. now apply orb_false_iff in H. Qed.

Lemma failed_not_completed (status : VideoStatus.t) :
  VideoStatus.status status = "failed" ->
  (VideoStatus.status status =? "completed") = false.
Proof. intros ->. reflexivity. Qed.

(** The provider could not be reached: sleep, then poll again. *)
Lemma pollTurn_transport videoId reply attempts s :
  transportError reply = true ->
  pollTurn videoId reply attempts s
  = mkRun (Resolved Next) s [HeyGenStatus videoId; Sleep 3000].
Proof.
  destruct reply as [m | code statusText body | status]; simpl; intros H;
    [ | | discriminate].
  - apply negb_true_iff in H.
    unfold pollTurn, tryCatch, HeyGen.getVideoStatus, fetch, bind. simpl.
    rewrite H. reflexivity.
  - reflexivity.
Qed.

(** The job is still under way: show progress, sleep, poll again. *)
Lemma pollTurn_underway videoId status attempts s :
  terminal status = false ->
  pollTurn videoId (HttpSuccess status) attempts s
  = mkRun (Resolved Next) s
      [HeyGenStatus videoId;
       ModalShow ("Generating video... (" ++ toString (attempts * 3) ++ "s)");
       Sleep 3000].
Proof.
  intros H. destruct (status_cases _ H) as [Hc Hf].
  unfold pollTurn, tryCatch, HeyGen.getVideoStatus, fetch, bind. simpl.
  rewrite Hc, Hf. reflexivity.
Qed.

(** The job is completed and the history accepts the update: return. *)
Lemma pollTurn_completed videoId status attempts s s' :
  VideoStatus.status status = "completed" ->
  updateVideo videoId (completedUpdates status) s = (Ok tt, s') ->
  pollTurn videoId (HttpSuccess status) attempts s
  = mkRun (Resolved (Return (VideoStatus.video_url status))) s'
      [HeyGenStatus videoId; HistoryUpdate videoId (completedUpdates status)].
Proof.
  intros Hc Hu.
  unfold pollTurn, tryCatch, HeyGen.getVideoStatus, fetch, bind, historyUpdate.
  simpl. rewrite Hc. simpl. rewrite Hu. reflexivity.
Qed.

(** The job has failed and the history accepts the update: throw. *)
Lemma pollTurn_failed videoId status attempts s s' :
  VideoStatus.status status = "failed" ->
  updateVideo videoId failedUpdates s = (Ok tt, s') ->
  pollTurn videoId (HttpSuccess status) attempts s
  = mkRun (Rejected (newError "Video generation failed")) s'
      [HeyGenStatus videoId; HistoryUpdate videoId failedUpdates].
Proof.
  intros Hf Hu.
  unfold pollTurn, tryCatch, HeyGen.getVideoStatus, fetch, bind, historyUpdate.
  simpl. rewrite Hf. simpl. rewrite Hu. reflexivity.
Qed.

(** The job has reached a terminal status but the history rejects the
    update: the exception lands in the [catch] and the loop polls again. *)
Lemma pollTurn_completed_rejected videoId status attempts s e s' :
  VideoStatus.status status = "completed" ->
  updateVideo videoId (completedUpdates status) s = (Err e, s') ->
  pollTurn videoId (HttpSuccess status) attempts s
  = mkRun (Resolved Next) s
      [HeyGenStatus videoId; HistoryUpdate videoId (completedUpdates status);
       Sleep 3000].
Proof.
  intros Hc Hu.
  pose proof (updateVideo_error_message _ _ _ _ _ Hu) as Hm.
  pose proof (updateVideo_rejected _ _ _ _ _ Hu) as ->.
  unfold pollTurn, tryCatch, HeyGen.getVideoStatus, fetch, bind, historyUpdate.
  simpl. rewrite Hc. simpl. rewrite Hu. simpl. rewrite Hm. reflexivity.
Qed.

Lemma pollTurn_failed_rejected videoId status attempts s e s' :
  VideoStatus.status status = "failed" ->
  updateVideo videoId failedUpdates s = (Err e, s') ->
  pollTurn videoId (HttpSuccess status) attempts s
  = mkRun (Resolved Next) s
      [HeyGenStatus videoId; HistoryUpdate videoId failedUpdates; Sleep 3000].
Proof.
  intros Hf Hu.
  pose proof (updateVideo_error_message _ _ _ _ _ Hu) as Hm.
  pose proof (updateVideo_rejected _ _ _ _ _ Hu) as ->.
  unfold pollTurn, tryCatch, HeyGen.getVideoStatus, fetch, bind, historyUpdate.
  simpl. rewrite Hf. simpl. rewrite Hu. simpl. rewrite Hm. reflexivity.
Qed.

(** A rejected request whose message happens to be the loop's own. *)
Lemma pollTurn_own_message videoId attempts s :
  pollTurn videoId (NetworkFailure "Video generation failed") attempts s
  = mkRun (Rejected (mkError "TypeError" "Video generation failed")) s
      [HeyGenStatus videoId].
Proof. reflexivity. Qed.

Lemma pollTurn_ends videoId reply attempts s :
  TurnEnd videoId reply attempts s (pollTurn videoId reply attempts s).
Proof.
  destruct (transportError reply) eqn:Ht.
  - rewrite pollTurn_transport by exact Ht. now constructor.
  - destruct reply as [m | code statusText body | status]; simpl in Ht;
      [ | discriminate | ].
    + apply negb_false_iff, String.eqb_eq in Ht. subst m.
      rewrite pollTurn_own_message. now apply end_own_message.
    + destruct (terminal status) eqn:Hterm.
      * unfold terminal in Hterm. apply orb_true_iff in Hterm.
        destruct Hterm as [Hc | Hf].
        -- apply String.eqb_eq in Hc.
           destruct (updateVideo videoId (completedUpdates status) s) as [[[]|e] s'] eqn:Hu.
           ++ rewrite (pollTurn_completed _ _ _ _ _ Hc Hu).
              now eapply end_completed.
           ++ rewrite (pollTurn_completed_rejected _ _ _ _ _ _ Hc Hu).
              pose proof (updateVideo_rejected _ _ _ _ _ Hu) as ->.
              eapply end_update_rejected; eauto.
              unfold terminal. now rewrite Hc.
        -- apply String.eqb_eq in Hf.
           destruct (updateVideo videoId failedUpdates s) as [[[]|e] s'] eqn:Hu.
           ++ rewrite (pollTurn_failed _ _ _ _ _ Hf Hu).
              now eapply end_failed.
           ++ rewrite (pollTurn_failed_rejected _ _ _ _ _ _ Hf Hu).
              pose proof (updateVideo_rejected _ _ _ _ _ Hu) as ->.
              eapply end_update_rejected; eauto.
              unfold terminal. now rewrite Hf.
      * rewrite pollTurn_underway by exact Hterm. now eapply end_underway.
Qed.

(* ================================================================== *)
(** * The poll loop of the generator                                   *)
(* ================================================================== *)

Lemma waitForVideoWithHistory_step videoId reply later attempts s :
  waitForVideoWithHistory videoId (reply :: later) attempts s
  = let turn := pollTurn videoId reply attempts s in
    match outcome turn with
    | Resolved (Return videoUrl) =>
        mkRun (Resolved videoUrl) (store turn) (trace turn)
    | Resolved Next =>
        let rest := waitForVideoWithHistory videoId later (S attempts) (store turn) in
        mkRun (outcome rest) (store rest) (trace turn ++ trace rest)
    | Rejected e => mkRun (Rejected e) (store turn) (trace turn)
    | Pending => mkRun Pending (store turn) (trace turn)
    end.
Proof.
  simpl. unfold bind.
  destruct (outcome (pollTurn videoId reply attempts s)) as [[url|]| |];
    unfold after; simpl; try reflexivity.
  now rewrite app_nil_r.
Qed.

Lemma pollTurn_transient videoId reply attempts s :
  transient reply = true ->
  pollTurn videoId reply attempts s
  = mkRun (Resolved Next) s (waiting videoId [reply] attempts).
Proof.
  destruct reply as [m | code statusText body | status]; simpl; intros H.
  - now apply pollTurn_transport.
  - reflexivity.
  - apply negb_true_iff in H. now apply pollTurn_underway.
Qed.

Lemma waiting_app videoId l1 l2 attempts :
  waiting videoId (l1 ++ l2) attempts
  = (waiting videoId l1 attempts ++ waiting videoId l2 (length l1 + attempts))%list.
Proof.
  revert attempts. induction l1 as [|r l1 IH]; intros attempts; [reflexivity|].
  simpl. rewrite IH, <- app_assoc. now rewrite Nat.add_succ_r.
Qed.

(** While the replies are not terminal the loop keeps polling, whatever
    the store holds. *)
Lemma waitForVideoWithHistory_transient videoId before rest :
  forallb transient before = true ->
  forall attempts s,
    waitForVideoWithHistory videoId (before ++ rest) attempts s
    = let then_ := waitForVideoWithHistory videoId rest (length before + attempts) s in
      mkRun (outcome then_) (store then_)
            (waiting videoId before attempts ++ trace then_).
Proof.
  induction before as [|reply before IH]; intros Hall attempts s.
  - simpl. apply run_eta.
  - simpl in Hall. apply andb_true_iff in Hall. destruct Hall as [Hr Hall].
    rewrite <- app_comm_cons, waitForVideoWithHistory_step.
    rewrite (pollTurn_transient _ _ _ _ Hr). cbv zeta. simpl outcome. simpl store.
    rewrite (IH Hall). cbv zeta. simpl outcome. simpl store. simpl trace.
    rewrite Nat.add_succ_r. simpl length. simpl Nat.add.
    f_equal.
    change (reply :: before) with ([reply] ++ before)%list.
    rewrite (waiting_app videoId [reply] before attempts). simpl length.
    simpl. now rewrite <- !app_assoc.
Qed.

Lemma waitForVideoWithHistory_nil videoId attempts s :
  waitForVideoWithHistory videoId [] attempts s = mkRun Pending s [].
Proof. reflexivity. Qed.

(** The loop never settles on replies that are all non-terminal. *)
Lemma waitForVideoWithHistory_keeps_polling videoId replies attempts s :
  forallb transient replies = true ->
  waitForVideoWithHistory videoId replies attempts s
  = mkRun Pending s (waiting videoId replies attempts).
Proof.
  intros H. rewrite <- (app_nil_r replies) at 1.
  rewrite (waitForVideoWithHistory_transient _ _ _ H). simpl.
  now rewrite app_nil_r.
Qed.


(** The store the loop ends with is the one its trace replays to. *)
Lemma waitForVideoWithHistory_replay videoId replies :
  forall attempts s,
    store (waitForVideoWithHistory videoId replies attempts s)
    = replay s (trace (waitForVideoWithHistory videoId replies attempts s)).
Proof.
  induction replies as [|reply later IH]; intros attempts s; [reflexivity|].
  rewrite waitForVideoWithHistory_step. cbv zeta.
  destruct (pollTurn_ends videoId reply attempts s) as
    [Ht | st Hr Ht | st s' Hr Hs Hu | st s' Hr Hs Hu | st u e Hr Ht Hu | Hr];
    simpl outcome; cbv iota beta; simpl store; simpl trace.
  - apply IH.
  - apply IH.
  - unfold replay. simpl. now rewrite Hu.
  - unfold replay. simpl. now rewrite Hu.
  - rewrite IH. unfold replay. simpl. now rewrite Hu.
  - reflexivity.
Qed.

(** ** Where the polls sit in a trace *)

Lemma split_before_poll (a b pre post : list Event) v :
  forallb not_poll a = true ->
  (a ++ b)%list = (pre ++ HeyGenStatus v :: post)%list ->
  exists pre', pre = (a ++ pre')%list /\ b = (pre' ++ HeyGenStatus v :: post)%list.
Proof.
  revert pre. induction a as [|x a IH]; intros pre Ha H.
  - exists pre. now split.
  - simpl in Ha. apply andb_true_iff in Ha. destruct Ha as [Hx Ha].
    destruct pre as [|y pre]; simpl in H.
    + inversion H; subst x. discriminate.
    + inversion H; subst y. destruct (IH pre Ha H2) as [pre' [-> ->]].
      exists pre'. now split.
Qed.

Lemma split_within_polls (a q pre post : list Event) v :
  forallb not_poll q = true ->
  (a ++ q)%list = (pre ++ HeyGenStatus v :: post)%list ->
  exists post', a = (pre ++ HeyGenStatus v :: post')%list.
Proof.
  revert pre. induction a as [|x a IH]; intros pre Hq H.
  - simpl in H. subst q. rewrite forallb_app in Hq.
    apply andb_true_iff in Hq. destruct Hq as [_ Hq]. discriminate.
  - destruct pre as [|y pre]; simpl in H; inversion H; subst.
    + now exists a.
    + destruct (IH pre Hq H2) as [post' ->]. now exists post'.
Qed.

(** Every poll of the loop is for the job it waits for, and the history
    is untouched up to the last poll. *)
Lemma waitForVideoWithHistory_polls videoId replies :
  forall attempts s pre v post,
    trace (waitForVideoWithHistory videoId replies attempts s)
    = (pre ++ HeyGenStatus v :: post)%list ->
    v = videoId /\ replay s pre = s.
Proof.
  induction replies as [|reply later IH]; intros attempts s pre v post.
  - simpl. destruct pre; discriminate.
  - rewrite waitForVideoWithHistory_step. cbv zeta.
    assert (Hnext : forall tail,
      forallb not_poll tail = true -> replay s (HeyGenStatus videoId :: tail) = s ->
      (HeyGenStatus videoId :: tail
       ++ trace (waitForVideoWithHistory videoId later (S attempts) s))%list
      = (pre ++ HeyGenStatus v :: post)%list ->
      v = videoId /\ replay s pre = s).
    { intros tail Htail Hrep H. destruct pre as [|y pre]; simpl in H.
      - inversion H. now split.
      - inversion H; subst y.
        destruct (split_before_poll _ _ _ _ _ Htail H2) as [pre' [-> Hrest]].
        destruct (IH _ _ _ _ _ Hrest) as [-> Hpre']. split; [reflexivity|].
        change (HeyGenStatus videoId :: tail ++ pre')%list
          with ((HeyGenStatus videoId :: tail) ++ pre')%list.
        now rewrite replay_app, Hrep. }
    assert (Hlast : forall e,
      is_poll e = false ->
      [HeyGenStatus videoId; e] = (pre ++ HeyGenStatus v :: post)%list ->
      v = videoId /\ replay s pre = s).
    { intros e He H. destruct pre as [|y pre]; simpl in H.
      - inversion H. now split.
      - inversion H; subst y. destruct pre as [|z pre]; simpl in H2.
        + inversion H2; subst e. discriminate.
        + inversion H2. destruct pre; discriminate. }
    destruct (pollTurn_ends videoId reply attempts s) as
      [Ht | st Hr Ht | st s' Hr Hs Hu | st s' Hr Hs Hu | st u e Hr Ht Hu | Hr];
      simpl outcome; cbv iota beta; simpl store; simpl trace.
    + apply (Hnext [Sleep 3000]); reflexivity.
    + apply (Hnext [ModalShow _; Sleep 3000]); reflexivity.
    + now apply Hlast.
    + now apply Hlast.
    + apply (Hnext [HistoryUpdate videoId u; Sleep 3000]); [reflexivity|].
      unfold replay. simpl. now rewrite Hu.
    + intros H. destruct pre as [|y pre]; simpl in H.
      * inversion H. now split.
      * inversion H. destruct pre; discriminate.
Qed.

(** A terminal status closes the loop once the history holds the job. *)
Lemma waitForVideoWithHistory_failed videoId before status after attempts s v :
  sole_owner videoId s v ->
  forallb transient before = true ->
  VideoStatus.status status = "failed" ->
  exists s',
    waitForVideoWithHistory videoId (before ++ HttpSuccess status :: after) attempts s
    = mkRun (Rejected (newError "Video generation failed")) s'
        (waiting videoId before attempts
         ++ [HeyGenStatus videoId; HistoryUpdate videoId failedUpdates])
    /\ updateVideo videoId failedUpdates s = (Ok tt, s')
    /\ getVideo videoId s' = Some (assign v failedUpdates).
Proof.
  intros Hown Hbefore Hfailed.
  destruct (updateVideo_found videoId failedUpdates s v Hown) as [s' [Hu [Hg _]]].
  exists s'. split; [|now split].
  rewrite (waitForVideoWithHistory_transient _ _ _ Hbefore). cbv zeta.
  rewrite waitForVideoWithHistory_step.
  rewrite (pollTurn_failed _ _ _ _ _ Hfailed Hu). reflexivity.
Qed.

Lemma waitForVideoWithHistory_completed videoId before status after attempts s v :
  sole_owner videoId s v ->
  forallb transient before = true ->
  VideoStatus.status status = "completed" ->
  exists s',
    waitForVideoWithHistory videoId (before ++ HttpSuccess status :: after) attempts s
    = mkRun (Resolved (VideoStatus.video_url status)) s'
        (waiting videoId before attempts
         ++ [HeyGenStatus videoId; HistoryUpdate videoId (completedUpdates status)])
    /\ updateVideo videoId (completedUpdates status) s = (Ok tt, s')
    /\ getVideo videoId s' = Some (assign v (completedUpdates status)).
Proof.
  intros Hown Hbefore Hdone.
  destruct (updateVideo_found videoId (completedUpdates status) s v Hown)
    as [s' [Hu [Hg _]]].
  exists s'. split; [|now split].
  rewrite (waitForVideoWithHistory_transient _ _ _ Hbefore). cbv zeta.
  rewrite waitForVideoWithHistory_step.
  rewrite (pollTurn_completed _ _ _ _ _ Hdone Hu). reflexivity.
Qed.

Lemma updates_app t1 t2 : updates (t1 ++ t2) = updates t1 + updates t2.
Proof. unfold updates. now rewrite filter_app, length_app. Qed.

Lemma polls_app t1 t2 : polls (t1 ++ t2) = polls t1 + polls t2.
Proof. unfold polls. now rewrite filter_app, length_app. Qed.

Lemma waiting_counts videoId replies :
  forall attempts,
    polls (waiting videoId replies attempts) = length replies
    /\ updates (waiting videoId replies attempts) = 0.
Proof.
  induction replies as [|reply later IH]; intros attempts; [now split|].
  simpl waiting. rewrite polls_app, updates_app.
  destruct (IH (S attempts)) as [-> ->].
  destruct reply; now split.
Qed.

(* ================================================================== *)
(** * Properties of the poll loops                                     *)
(* ================================================================== *)

(** C2.  Polling resilience.  On the replies
    [transport error, transport error, processing, completed] the loop of
    [waitForVideoWithHistory] polls four times, sleeps 3000 ms after each
    of the first three polls, resolves with the video URL of the completed
    reply, and calls the history store exactly once, to set the record of
    the job to 'completed' with the URL, thumbnail and duration of that
    reply. *)
Theorem polling_resilience :
  forall videoId s v error1 error2 progress done later,
    unique_index s ->
    getVideo videoId s = Some v ->
    transportError error1 = true ->
    transportError error2 = true ->
    VideoStatus.status progress = "processing" ->
    VideoStatus.status done = "completed" ->
    let r := run (waitForVideoWithHistory videoId
                    (error1 :: error2 :: HttpSuccess progress
                     :: HttpSuccess done :: later) 0) s in
    outcome r = Resolved (VideoStatus.video_url done)
    /\ trace r
       = [HeyGenStatus videoId; Sleep 3000;
          HeyGenStatus videoId; Sleep 3000;
          HeyGenStatus videoId; ModalShow "Generating video... (6s)"; Sleep 3000;
          HeyGenStatus videoId;
          HistoryUpdate videoId
            (Updates.mk (Some "completed")
               (Some (VideoStatus.video_url done))
               (Some (VideoStatus.thumbnail_url done))
               (Some (VideoStatus.duration done)))]
    /\ polls (trace r) = 4
    /\ updates (trace r) = 1
    /\ exists v',
         getVideo videoId (store r) = Some v'
         /\ Video.status v' = "completed"
         /\ Video.videoUrl v' = VideoStatus.video_url done
         /\ Video.thumbnailUrl v' = VideoStatus.thumbnail_url done
         /\ Video.duration v' = VideoStatus.duration done
         /\ Video.id v' = Video.id v
         /\ Video.createdAt v' = Video.createdAt v.
Proof.
  intros videoId s v error1 error2 progress done later Hu Hg H1 H2 Hp Hd r.
  pose proof (unique_index_sole_owner _ _ _ Hu Hg) as Hown.
  assert (Hbefore : forallb transient [error1; error2; HttpSuccess progress] = true).
  { simpl. unfold terminal. rewrite Hp. simpl.
    destruct error1, error2; simpl in *; try discriminate;
      rewrite ?H1, ?H2; reflexivity. }
  destruct (waitForVideoWithHistory_completed videoId _ done later 0 s v
              Hown Hbefore Hd) as [s' [Hrun [Hupd Hget]]].
  subst r. unfold run.
  change (error1 :: error2 :: HttpSuccess progress :: HttpSuccess done :: later)
    with ([error1; error2; HttpSuccess progress] ++ HttpSuccess done :: later)%list.
  assert (Htrace :
    (waiting videoId [error1; error2; HttpSuccess progress] 0
     ++ [HeyGenStatus videoId; HistoryUpdate videoId (completedUpdates done)])%list
    = [HeyGenStatus videoId; Sleep 3000;
       HeyGenStatus videoId; Sleep 3000;
       HeyGenStatus videoId; ModalShow "Generating video... (6s)"; Sleep 3000;
       HeyGenStatus videoId;
       HistoryUpdate videoId (completedUpdates done)]).
  { destruct error1, error2; simpl in H1, H2; try discriminate; reflexivity. }
  rewrite Htrace in Hrun. rewrite Hrun.
  split; [reflexivity|]. split; [reflexivity|].
  split; [reflexivity|]. split; [reflexivity|]. simpl store.
  exists (assign v (completedUpdates done)). now repeat split.
Qed.

Lemma polling_resilience_witness :
  let v := newVideo "2025-01-01T00:00:00.000Z"
             (VideoData.mk "job-1" None (Some "processing") None None None None None None None) 1 in
  let done := VideoStatus.mk "completed" (Some "https://cdn/v.mp4")
                (Some "https://cdn/v.jpg") (Some "12.5") in
  let r := run (waitForVideoWithHistory "job-1"
                  [NetworkFailure "Failed to fetch"; HttpFailure 502 "Bad Gateway" None;
                   statusOnly "processing"; HttpSuccess done] 0)
               (mkStore 2 [v]) in
  outcome r = Resolved (Some "https://cdn/v.mp4")
  /\ polls (trace r) = 4
  /\ updates (trace r) = 1.
Proof.
  intros v done.
  assert (Hu : unique_index (mkStore 2 [v])).
  { unfold unique_index. simpl. repeat constructor. intros []. }
  destruct (polling_resilience "job-1" (mkStore 2 [v]) v
              (NetworkFailure "Failed to fetch") (HttpFailure 502 "Bad Gateway" None)
              (VideoStatus.mk "processing" None None None) done []
              Hu eq_refl eq_refl eq_refl eq_refl eq_refl)
    as [Ho [_ [Hp [Hn _]]]].
  exact (conj Ho (conj Hp Hn)).
Defined.

(** A rejected request or an error status never ends the loop of
    [waitForVideoWithHistory], and neither does a job still under way:
    on replies of these kinds only, the loop is still polling when the
    replies run out, having slept after each poll, and the history is
    untouched. *)
Theorem transient_replies_keep_polling :
  forall videoId replies attempts s,
    forallb transient replies = true ->
    let r := run (waitForVideoWithHistory videoId replies attempts) s in
    outcome r = Pending /\ store r = s
    /\ polls (trace r) = length replies /\ updates (trace r) = 0.
Proof.
  intros videoId replies attempts s H r. subst r. unfold run.
  rewrite (waitForVideoWithHistory_keeps_polling _ _ _ _ H). simpl.
  destruct (waiting_counts videoId replies attempts) as [Hp Hn].
  now repeat split.
Qed.

(** The loop settles only after a reply that is not transient. *)
Theorem settles_only_on_terminal :
  forall videoId replies attempts s,
    outcome (run (waitForVideoWithHistory videoId replies attempts) s) <> Pending ->
    existsb (fun reply => negb (transient reply)) replies = true.
Proof.
  intros videoId replies attempts s H.
  destruct (forallb transient replies) eqn:Hall.
  - exfalso. apply H. unfold run.
    now rewrite (waitForVideoWithHistory_keeps_polling _ _ _ _ Hall).
  - apply not_true_iff_false in Hall.
    destruct (existsb (fun reply => negb (transient reply)) replies) eqn:He;
      [reflexivity|].
    exfalso. apply Hall. apply forallb_forall. intros x Hx.
    destruct (transient x) eqn:Hxt; [reflexivity|].
    assert (existsb (fun reply => negb (transient reply)) replies = true).
    { apply existsb_exists. exists x. split; [exact Hx|]. now rewrite Hxt. }
    congruence.
Qed.

(** C3 (the code departs from it).  When the history store does not hold
    the record of the job, a remote status 'failed' does not end the loop
    of [waitForVideoWithHistory]: the rejected [updateVideo] is caught like
    a transport error, the loop sleeps and polls again, and on [n] replies
    'failed' it has polled [n] times, called [updateVideo] [n] times and is
    still pending, the failure never raised. *)
Theorem failed_job_polled_again :
  forall n attempts,
    let r := run (waitForVideoWithHistory "job-1"
                    (repeat (statusOnly "failed") n) attempts) empty in
    outcome r = Pending /\ store r = empty
    /\ polls (trace r) = n /\ updates (trace r) = n.
Proof.
  intros n attempts r. subst r. unfold run, statusOnly. revert attempts.
  induction n as [|n IH]; intros attempts.
  - now repeat split.
  - simpl repeat. rewrite waitForVideoWithHistory_step.
    rewrite (pollTurn_failed_rejected "job-1" (VideoStatus.mk "failed" None None None)
               attempts empty (newError "Video not found") empty eq_refl eq_refl).
    cbv zeta. simpl outcome. cbv iota beta. simpl store.
    destruct (IH (S attempts)) as [Ho [Hs [Hp Hn]]]. unfold run in *.
    rewrite Ho, Hs. simpl outcome. simpl store.
    cbn [outcome store trace]. rewrite polls_app, updates_app, Hp, Hn.
    now repeat split.
Qed.

(** ** The bounded helper [waitForVideo] *)



Lemma flat_map_polls videoId (l : list (FetchReply VideoStatus.t)) :
  polls (flat_map (fun _ => [HeyGenStatus videoId; Sleep 3000]) l) = length l.
Proof.
  induction l as [|x l IH]; [reflexivity|].
  unfold polls in *. simpl. now rewrite IH.
Qed.





(** [waitForVideo] has no [catch]: a poll that cannot reach the provider
    ends it at once with the exception of that poll. *)
Lemma waitForVideo_transport_error videoId m later s :
  run (HeyGen.waitForVideo videoId (NetworkFailure m :: later)) s
  = mkRun (Rejected (mkError "TypeError" m)) s [HeyGenStatus videoId].
Proof. reflexivity. Qed.

(* ================================================================== *)
(** * Runs of [generateVideo]                                          *)
(* ================================================================== *)

Lemma validate_valid env :
  validate env = Valid ->
  (exists blob, getAudioBlob env = Some blob)
  /\ (getSelectedAvatar env <> None \/ getSelectedCharacter env <> None)
  /\ exists voiceSelection, getSelectedVoice env = Some voiceSelection.
Proof.
  unfold validate. destruct (getAudioBlob env) as [blob|]; [|discriminate].
  destruct (getSelectedAvatar env) as [a|], (getSelectedCharacter env) as [c|],
    (getSelectedVoice env) as [v|]; try discriminate; intros _;
    (split; [now exists blob|]); (split; [|now exists v]);
    (left; discriminate) || (right; discriminate).
Qed.

Lemma Generated_eq env s r r' : Generated env s r -> r = r' -> Generated env s r'.
Proof. now intros H <-. Qed.

(** A run of [generateVideo] takes one of six courses. *)
Lemma generateVideo_runs env s : Generated env s (generateVideo env s).
Proof.
  unfold generateVideo. destruct (validate env) as [|m] eqn:Hv.
  - destruct (validate_valid env Hv) as [_ [_ [v Hsel]]]. rewrite Hsel.
    destruct (quiet_voiceStep env v s) as [Hs1 Hq1].
    unfold tryCatch, bind, LoadingModal.show, LoadingModal.showGenerating,
      LoadingModal.updateStatus, HeyGen.createVideo, fetch, historyAdd,
      displayVideo, LoadingModal.showComplete, LoadingModal.showError.
    run_steps.
    destruct (voiceStep env v s) as [o1 s1 t1]. cbn [outcome store trace] in *.
    subst s1.
    destruct o1 as [[transcript voiceConfig]|e|]; run_steps.
    + destruct (characterStep (getSelectedAvatar env) (getSelectedCharacter env))
        as [characterConfig avatarName] eqn:Hc.
      assert (Hcc : characterConfig
                    = fst (characterStep (getSelectedAvatar env)
                                         (getSelectedCharacter env)))
        by now rewrite Hc.
      run_steps.
      destruct (create env) as [m | code statusText body | videoId] eqn:Hcreate;
        run_steps.
      * eapply Generated_eq;
          [eapply (gen_create_rejected env s t1 voiceConfig transcript); eauto;
           intros videoId; rewrite Hcreate; discriminate|].
        rewrite <- Hcc. same_run.
      * eapply Generated_eq;
          [eapply (gen_create_rejected env s t1 voiceConfig transcript); eauto;
           intros videoId; rewrite Hcreate; discriminate|].
        rewrite <- Hcc. same_run.
      * destruct (addVideo (now env)
                    (historyEntry videoId (getSelectedAvatar env)
                       (getSelectedCharacter env) avatarName v transcript) s)
          as [[key|e] s1] eqn:Hadd; run_steps.
        -- eapply Generated_eq;
             [eapply (gen_polled env s t1 voiceConfig transcript videoId
                        (historyEntry videoId (getSelectedAvatar env)
                           (getSelectedCharacter env) avatarName v transcript) key s1 _
                        Hv Hq1 Hcreate eq_refl eq_refl Hadd eq_refl)|].
           rewrite <- Hcc.
           destruct (waitForVideoWithHistory videoId (statusPolls env) 0 s1)
             as [oL sL tL].
           destruct oL as [url|e|]; run_steps; same_run.
        -- pose proof (addVideo_rejected _ _ _ _ _ Hadd) as ->.
           eapply Generated_eq;
             [eapply (gen_add_rejected env s t1 voiceConfig transcript videoId
                        (historyEntry videoId (getSelectedAvatar env)
                           (getSelectedCharacter env) avatarName v transcript) e
                        Hv Hq1 Hcreate eq_refl eq_refl Hadd)|].
           rewrite <- Hcc. same_run.
    + eapply Generated_eq; [eapply (gen_step1_rejected env s t1 e); eauto|].
      same_run.
    + eapply Generated_eq; [eapply (gen_step1_pending env s t1); eauto|].
      same_run.
  - unfold tryCatch, emit. simpl. now apply gen_invalid.
Qed.

(** The course of a run in which every step before the poll loop succeeds:
    the run ends as the loop does. *)
Lemma generateVideo_polled env s voiceSelection transcript voiceConfig videoId key s1 :
  validate env = Valid ->
  getSelectedVoice env = Some voiceSelection ->
  outcome (voiceStep env voiceSelection s) = Resolved (transcript, voiceConfig) ->
  create env = HttpSuccess videoId ->
  addVideo (now env)
    (historyEntry videoId (getSelectedAvatar env) (getSelectedCharacter env)
       (snd (characterStep (getSelectedAvatar env) (getSelectedCharacter env)))
       voiceSelection transcript) s = (Ok key, s1) ->
  let polled := waitForVideoWithHistory videoId (statusPolls env) 0 s1 in
  generateVideo env s
  = mkRun (match outcome polled with Pending => Pending | _ => Resolved tt end)
      (store polled)
      (ModalShow "Starting..." :: trace (voiceStep env voiceSelection s)
       ++ [ModalStatus "Generating your video...";
           HeyGenCreate
             (HeyGen.requestBody
                (mkVideoConfig
                   (fst (characterStep (getSelectedAvatar env)
                                       (getSelectedCharacter env)))
                   voiceConfig transcript));
           HistoryAdd (now env)
             (historyEntry videoId (getSelectedAvatar env) (getSelectedCharacter env)
                (snd (characterStep (getSelectedAvatar env)
                                    (getSelectedCharacter env)))
                voiceSelection transcript)]
       ++ trace polled ++ closing videoId (outcome polled)).
Proof.
  intros Hv Hsel Hstep Hcreate Hadd. cbv zeta.
  unfold generateVideo. rewrite Hv, Hsel.
  destruct (quiet_voiceStep env voiceSelection s) as [Hs1 _].
  unfold tryCatch, bind, LoadingModal.show, LoadingModal.showGenerating,
    LoadingModal.updateStatus, HeyGen.createVideo, fetch, historyAdd,
    displayVideo, LoadingModal.showComplete, LoadingModal.showError.
  unfold LoadingModal.updateStatus, bind.
  run_steps.
  destruct (voiceStep env voiceSelection s) as [o1 s0 t1].
  cbn [outcome store trace] in *. subst s0 o1. run_steps.
  destruct (characterStep (getSelectedAvatar env) (getSelectedCharacter env))
    as [characterConfig avatarName].
  cbn [fst snd] in *. run_steps. rewrite Hcreate. run_steps.
  rewrite Hadd. run_steps.
  destruct (waitForVideoWithHistory videoId (statusPolls env) 0 s1) as [oL sL tL].
  cbn [outcome store trace].
  destruct oL as [url|e|]; run_steps; same_run.
Qed.

(** However often a job is reported under way, the replies are transient. *)
Lemma transient_processing n :
  forallb transient (repeat (statusOnly "processing") n) = true.
Proof. induction n as [|n IH]; [reflexivity|exact IH]. Qed.

(** A trace that ends with the given events. *)
Lemma ends_here (tail : list Event) : exists pre, tail = (pre ++ tail)%list.
Proof. now exists []. Qed.

Lemma ends_later (first : Event) (events tail : list Event) :
  (exists pre, events = (pre ++ tail)%list) ->
  exists pre, first :: events = (pre ++ tail)%list.
Proof. intros [pre ->]. now exists (first :: pre). Qed.

Lemma ends_after (earlier events tail : list Event) :
  (exists pre, events = (pre ++ tail)%list) ->
  exists pre, (earlier ++ events)%list = (pre ++ tail)%list.
Proof. intros [pre ->]. exists (earlier ++ pre)%list. now rewrite app_assoc. Qed.

Ltac ends_with :=
  repeat first [apply ends_here | apply ends_later | apply ends_after].

(* ================================================================== *)
(** * Properties of [generateVideo]                                    *)
(* ================================================================== *)

Lemma generateVideo_invalid env s m :
  validate env = Invalid m ->
  generateVideo env s = mkRun (Resolved tt) s [Alert m].
Proof. unfold generateVideo. intros ->. reflexivity. Qed.

(** C5.  When the recorded audio is missing, or both the preset avatar and
    the custom character are missing, or the voice selection is missing,
    [validate] answers with the message of the first missing input (three
    different messages), and [generateVideo] only shows that message: it
    resolves, issues no remote call and leaves the history alone. *)
Theorem validation_fails_fast :
  forall env s,
    getAudioBlob env = None
    \/ (getSelectedAvatar env = None /\ getSelectedCharacter env = None)
    \/ getSelectedVoice env = None ->
    exists m,
      validate env = Invalid m
      /\ run (generateVideo env) s = mkRun (Resolved tt) s [Alert m]
      /\ remote_calls (trace (run (generateVideo env) s)) = 0
      /\ ((m = "Please record your voice first" /\ getAudioBlob env = None)
          \/ (m = "Please select an avatar or character"
              /\ getSelectedAvatar env = None /\ getSelectedCharacter env = None)
          \/ (m = "Please select a voice option" /\ getSelectedVoice env = None))
      /\ "Please record your voice first" <> "Please select an avatar or character"
      /\ "Please record your voice first" <> "Please select a voice option"
      /\ "Please select an avatar or character" <> "Please select a voice option".
Proof.
  intros env s Hmissing.
  assert (Hv : exists m, validate env = Invalid m
            /\ ((m = "Please record your voice first" /\ getAudioBlob env = None)
                \/ (m = "Please select an avatar or character"
                    /\ getSelectedAvatar env = None /\ getSelectedCharacter env = None)
                \/ (m = "Please select a voice option" /\ getSelectedVoice env = None))).
  { unfold validate.
    destruct (getAudioBlob env) as [blob|]; [|eexists; split; [reflexivity|]; auto].
    destruct (getSelectedAvatar env) as [a|], (getSelectedCharacter env) as [c|];
      try (eexists; split; [reflexivity|]; now auto);
      (destruct (getSelectedVoice env) as [v|];
       [| eexists; split; [reflexivity|]; now auto]);
      exfalso; destruct Hmissing as [H | [[H1 H2] | H]]; discriminate. }
  destruct Hv as [m [Hv Hm]]. exists m. unfold run.
  rewrite (generateVideo_invalid _ _ _ Hv).
  repeat split; try assumption; discriminate.
Qed.

Lemma validation_fails_fast_witness :
  exists m,
    validate (Sample.env None (Some Sample.anna) None false (Some Sample.narrator)
                Sample.asset []) = Invalid m
    /\ run (generateVideo
              (Sample.env None (Some Sample.anna) None false (Some Sample.narrator)
                 Sample.asset [])) empty
       = mkRun (Resolved tt) empty [Alert m]
    /\ m = "Please record your voice first".
Proof.
  destruct (validation_fails_fast
              (Sample.env None (Some Sample.anna) None false (Some Sample.narrator)
                 Sample.asset []) empty (or_introl eq_refl))
    as [m [Hv [Hrun _]]].
  exists m. split; [exact Hv|]. split; [exact Hrun|].
  cbv in Hv. now inversion Hv.
Defined.

(** C9 as stated fails, twice.  A validation failure is not written to the
    loading modal: with no recording, [generateVideo] raises an [alert] and
    the modal is never touched.  And the promise does not always resolve:
    the poll loop has no attempt cap, so when the provider keeps reporting
    the job under way, the run is still pending after any number [n] of
    polls. *)
Lemma generateVideo_alerts_and_may_not_resolve :
  (let r := run (generateVideo
                   (Sample.env None (Some Sample.anna) None false
                      (Some Sample.narrator) Sample.asset [])) empty in
   trace r = [Alert "Please record your voice first"]
   /\ on_modal (trace r) = [])
  /\ (forall n,
        let r := run (generateVideo
                        (Sample.env (Some Sample.recording) (Some Sample.anna) None
                           false (Some Sample.narrator) Sample.asset
                           (repeat (statusOnly "processing") n))) empty in
        outcome r = Pending /\ polls (trace r) = n).
Proof.
  split; [vm_compute; split; reflexivity|].
  intros n.
  set (env := Sample.env (Some Sample.recording) (Some Sample.anna) None
                false (Some Sample.narrator) Sample.asset
                (repeat (statusOnly "processing") n)).
  intros r. subst r. unfold run.
  set (entry := historyEntry "job-1" (getSelectedAvatar env) (getSelectedCharacter env)
                  (snd (characterStep (getSelectedAvatar env)
                                      (getSelectedCharacter env)))
                  (Preset Sample.narrator) (Some "hello world")).
  rewrite (generateVideo_polled env empty (Preset Sample.narrator)
             (Some "hello world") (TextVoice "voice-12") "job-1" 1
             (snd (addVideo (now env) entry empty))
             eq_refl eq_refl eq_refl eq_refl eq_refl).
  cbv zeta. cbn [statusPolls Sample.env].
  rewrite (waitForVideoWithHistory_keeps_polling _ _ _ _ (transient_processing n)).
  cbn [outcome trace closing]. split; [reflexivity|].
  rewrite app_nil_r.
  change (ModalShow "Starting..." :: ?a ++ ?b ++ ?c)%list
    with ((ModalShow "Starting..." :: a) ++ b ++ c)%list.
  rewrite !polls_app.
  destruct (waiting_counts "job-1" (repeat (statusOnly "processing") n) 0) as [-> _].
  rewrite repeat_length. reflexivity.
Qed.

(** C9, amended.  [generateVideo] never rejects.  A validation failure is
    shown with [alert] and the loading modal is not touched.  On valid
    inputs the run goes through step 1 (transcription, or conversion and
    upload), the submission, the history write and the poll loop.  The
    exception with which one of them is rejected is caught: its message
    is written as 'Error: <message>' on the loading modal (or 'Failed to
    generate video' when the message is empty) and the run resolves.  When
    the poll loop resolves, the video is displayed and the run resolves.
    The run is pending exactly when step 1 or the poll loop is. *)
Theorem generateVideo_never_rejects :
  forall env s,
    let r := run (generateVideo env) s in
    (forall e, outcome r <> Rejected e)
    /\ (forall m, validate env = Invalid m ->
          r = mkRun (Resolved tt) s [Alert m] /\ on_modal (trace r) = [])
    /\ (validate env = Valid ->
          exists voiceSelection, getSelectedVoice env = Some voiceSelection)
    /\ (forall voiceSelection,
          validate env = Valid -> getSelectedVoice env = Some voiceSelection ->
          let step1 := run (voiceStep env voiceSelection) s in
          (forall e, outcome step1 = Rejected e -> shows_error r e)
          /\ (outcome step1 = Pending -> outcome r = Pending)
          /\ (forall transcript voiceConfig,
                outcome step1 = Resolved (transcript, voiceConfig) ->
                let avatar := getSelectedAvatar env in
                let character := getSelectedCharacter env in
                let submitted :=
                  run (HeyGen.createVideo
                         (mkVideoConfig (fst (characterStep avatar character))
                            voiceConfig transcript)
                         (create env)) s in
                (forall e, outcome submitted = Rejected e -> shows_error r e)
                /\ outcome submitted <> Pending
                /\ (forall videoId,
                      outcome submitted = Resolved videoId ->
                      let entry :=
                        historyEntry videoId avatar character
                          (snd (characterStep avatar character))
                          voiceSelection transcript in
                      (forall e s',
                         addVideo (now env) entry s = (Err e, s') -> shows_error r e)
                      /\ (forall key s1,
                            addVideo (now env) entry s = (Ok key, s1) ->
                            let polled :=
                              run (waitForVideoWithHistory videoId (statusPolls env) 0) s1 in
                            (forall e, outcome polled = Rejected e -> shows_error r e)
                            /\ (outcome polled = Pending -> outcome r = Pending)
                            /\ (forall videoUrl,
                                  outcome polled = Resolved videoUrl ->
                                  outcome r = Resolved tt
                                  /\ exists pre,
                                       trace r
                                       = (pre ++ [DisplayVideo videoUrl videoId;
                                                  ModalStatus "Complete! 🎉";
                                                  ModalHideAfter 1500])%list))))).
Proof.
  intros env s r. subst r. unfold run, shows_error.
  split; [|split; [|split]].
  - intros e. destruct (generateVideo_runs env s); cbn [outcome]; try discriminate.
    destruct (outcome polled); discriminate.
  - intros m Hm. rewrite (generateVideo_invalid _ _ _ Hm). now split.
  - intros Hv. now destruct (validate_valid env Hv) as [_ [_ H]].
  - intros voiceSelection Hv Hsel. cbv zeta.
    unfold generateVideo. rewrite Hv, Hsel.
    destruct (quiet_voiceStep env voiceSelection s) as [Hs1 _].
    unfold tryCatch, bind, LoadingModal.show, LoadingModal.showGenerating,
      LoadingModal.updateStatus, HeyGen.createVideo, fetch, historyAdd,
      displayVideo, LoadingModal.showComplete, LoadingModal.showError.
    unfold LoadingModal.updateStatus, bind.
    run_steps.
    destruct (voiceStep env voiceSelection s) as [o1 s1 t1].
    cbn [outcome store trace] in *. subst s1.
    destruct o1 as [[transcript voiceConfig]|e|]; run_steps.
    + split; [discriminate|]. split; [discriminate|].
      intros transcript' voiceConfig' Heq. injection Heq as <- <-.
      destruct (characterStep (getSelectedAvatar env) (getSelectedCharacter env))
        as [characterConfig avatarName] eqn:Hc.
      cbn [fst snd]. run_steps.
      destruct (create env) as [m | code statusText body | videoId]; run_steps.
      * split; [|split; [discriminate|discriminate]].
        intros e He. injection He as <-. split; [reflexivity|]. ends_with.
      * split; [|split; [discriminate|discriminate]].
        intros e He. injection He as <-. split; [reflexivity|]. ends_with.
      * split; [discriminate|]. split; [discriminate|].
        intros videoId' Heq. injection Heq as <-.
        destruct (addVideo (now env)
                    (historyEntry videoId (getSelectedAvatar env)
                       (getSelectedCharacter env) avatarName voiceSelection transcript) s)
          as [[key|e] s1]; run_steps.
        -- split; [discriminate|].
           intros key' s1' Heq. injection Heq as <- <-.
           destruct (waitForVideoWithHistory videoId (statusPolls env) 0 s1)
             as [oL sL tL].
           cbn [outcome store trace] in *.
           destruct oL as [url|e|]; run_steps.
           ++ split; [discriminate|]. split; [discriminate|].
              intros videoUrl Heq. injection Heq as <-.
              split; [reflexivity|]. ends_with.
           ++ split; [|split; discriminate].
              intros e' Heq. injection Heq as <-. split; [reflexivity|]. ends_with.
           ++ split; [discriminate|]. split; [reflexivity|]. discriminate.
        -- split; [|discriminate].
           intros e' s' Heq. injection Heq as <- _.
           split; [reflexivity|]. ends_with.
    + split; [|split; discriminate].
      intros e' Heq. injection Heq as <-. split; [reflexivity|]. ends_with.
    + split; [discriminate|]. split; [reflexivity|]. discriminate.
Qed.

Lemma generateVideo_never_rejects_witness :
  let env := Sample.env (Some Sample.recording) (Some Sample.anna) None false
               (Some Sample.narrator) Sample.asset
               [statusOnly "processing"; statusOnly "failed"] in
  shows_error (run (generateVideo env) empty) (newError "Video generation failed").
Proof.
  intros env.
  destruct (generateVideo_never_rejects env empty) as [_ [_ [_ Hvalid]]].
  destruct (Hvalid (Preset Sample.narrator) eq_refl eq_refl) as [_ [_ Hstep1]].
  destruct (Hstep1 (Some "hello world") (TextVoice "voice-12") eq_refl)
    as [_ [_ Hsubmitted]].
  destruct (Hsubmitted "job-1" eq_refl) as [_ Hadded].
  destruct (Hadded 1 _ eq_refl) as [Hfailed _].
  apply Hfailed. vm_compute. reflexivity.
Defined.

Lemma waitForVideoWithHistory_events videoId replies :
  forall attempts s,
    forallb is_loop_event
      (trace (waitForVideoWithHistory videoId replies attempts s)) = true.
Proof.
  induction replies as [|reply later IH]; intros attempts s; [reflexivity|].
  rewrite waitForVideoWithHistory_step. cbv zeta.
  destruct (pollTurn_ends videoId reply attempts s);
    cbn [outcome store trace]; try reflexivity;
    rewrite forallb_app, IH; reflexivity.
Qed.

Lemma forallb_in {A} (f : A -> bool) (l : list A) (x : A) :
  forallb f l = true -> In x l -> f x = true.
Proof. intros H Hx. rewrite forallb_forall in H. now apply H. Qed.

(** C10.  The character of the render request is built from the custom
    character whenever one is selected, whether or not a preset avatar is
    selected too: type 'photo' with the character's HeyGen asset id.  The
    preset avatar is used only when no custom character is selected.  No
    alert is raised for the avatar that is passed over. *)
Theorem custom_character_wins :
  forall env s body,
    In (HeyGenCreate body) (trace (run (generateVideo env) s)) ->
    map input_character (video_inputs body)
    = [fst (characterStep (getSelectedAvatar env) (getSelectedCharacter env))]
    /\ (forall c, getSelectedCharacter env = Some c ->
          map input_character (video_inputs body)
          = [Some (PhotoCharacter (heygenId c))])
    /\ (forall id style,
          In (Some (AvatarCharacter id style))
             (map input_character (video_inputs body)) ->
          getSelectedCharacter env = None
          /\ exists a, getSelectedAvatar env = Some a /\ avatar_id a = id)
    /\ (forall m, ~ In (Alert m) (trace (run (generateVideo env) s))).
Proof.
  intros env s body Hin. unfold run in *.
  assert (Hbody :
    map input_character (video_inputs body)
    = [fst (characterStep (getSelectedAvatar env) (getSelectedCharacter env))]
    /\ validate env = Valid).
  { destruct (generateVideo_runs env s) as
      [ m Hi
      | pre e Hv Hq
      | pre Hv Hq
      | pre voiceConfig transcript e Hv Hq Hc
      | pre voiceConfig transcript videoId videoData e Hv Hq Hc Hid Hst Hadd
      | pre voiceConfig transcript videoId videoData key s1 polled Hv Hq Hc Hid Hst Hadd Hp ];
      cbn [trace] in Hin.
    - destruct Hin as [Hin | []]. discriminate.
    - destruct Hin as [Hin | Hin]; [discriminate|].
      apply in_app_or in Hin. destruct Hin as [Hin | Hin].
      + apply (forallb_in _ _ _ Hq) in Hin. discriminate.
      + simpl in Hin. destruct Hin as [Hin | [Hin | []]]; discriminate.
    - destruct Hin as [Hin | Hin]; [discriminate|].
      apply (forallb_in _ _ _ Hq) in Hin. discriminate.
    - destruct Hin as [Hin | Hin]; [discriminate|].
      apply in_app_or in Hin. destruct Hin as [Hin | Hin].
      + apply (forallb_in _ _ _ Hq) in Hin. discriminate.
      + simpl in Hin.
        destruct Hin as [Hin | [Hin | [Hin | [Hin | []]]]]; try discriminate.
        inversion Hin. now split.
    - destruct Hin as [Hin | Hin]; [discriminate|].
      apply in_app_or in Hin. destruct Hin as [Hin | Hin].
      + apply (forallb_in _ _ _ Hq) in Hin. discriminate.
      + simpl in Hin.
        destruct Hin as [Hin | [Hin | [Hin | [Hin | [Hin | []]]]]]; try discriminate.
        inversion Hin. now split.
    - destruct Hin as [Hin | Hin]; [discriminate|].
      apply in_app_or in Hin. destruct Hin as [Hin | Hin].
      + apply (forallb_in _ _ _ Hq) in Hin. discriminate.
      + simpl in Hin.
        destruct Hin as [Hin | [Hin | [Hin | Hin]]]; try discriminate.
        * inversion Hin. now split.
        * apply in_app_or in Hin. destruct Hin as [Hin | Hin].
          -- subst polled.
             apply (forallb_in _ _ _ (waitForVideoWithHistory_events _ _ _ _)) in Hin.
             discriminate.
          -- destruct (outcome polled); simpl in Hin;
               repeat (destruct Hin as [Hin | Hin]; try discriminate);
               contradiction. }
  destruct Hbody as [Hbody Hv]. split; [exact Hbody|]. split; [|split].
  - intros c Hc. rewrite Hbody, Hc. reflexivity.
  - intros id style Hav. rewrite Hbody in Hav. destruct Hav as [Hav | []].
    destruct (getSelectedCharacter env) as [c|]; [discriminate|].
    split; [reflexivity|].
    destruct (getSelectedAvatar env) as [a|]; [|discriminate].
    exists a. split; [reflexivity|]. simpl in Hav. now inversion Hav.
  - intros m Halert.
    destruct (generateVideo_runs env s) as
      [ m' Hi
      | pre e _ Hq
      | pre _ Hq
      | pre voiceConfig transcript e _ Hq Hc
      | pre voiceConfig transcript videoId videoData e _ Hq Hc Hid Hst Hadd
      | pre voiceConfig transcript videoId videoData key s1 polled _ Hq Hc Hid Hst Hadd Hp ];
      cbn [trace] in Halert; [congruence| | | | |];
      (destruct Halert as [Halert | Halert]; [discriminate|]);
      try (apply (forallb_in _ _ _ Hq) in Halert; discriminate);
      (apply in_app_or in Halert; destruct Halert as [Halert | Halert];
       [apply (forallb_in _ _ _ Hq) in Halert; discriminate|]);
      simpl in Halert;
      repeat (destruct Halert as [Halert | Halert]; try discriminate);
      try contradiction.
    apply in_app_or in Halert. destruct Halert as [Halert | Halert].
    + subst polled.
      apply (forallb_in _ _ _ (waitForVideoWithHistory_events _ _ _ _)) in Halert.
      discriminate.
    + destruct (outcome polled); simpl in Halert;
        repeat (destruct Halert as [Halert | Halert]; try discriminate);
        contradiction.
Qed.

Lemma custom_character_wins_witness :
  let env := Sample.env (Some Sample.recording) (Some Sample.anna) (Some Sample.me)
               false (Some Sample.narrator) Sample.asset [] in
  let body := HeyGen.requestBody
                (mkVideoConfig (Some (PhotoCharacter "photo-77"))
                   (TextVoice "voice-12") (Some "hello world")) in
  In (HeyGenCreate body) (trace (run (generateVideo env) empty))
  /\ map input_character (video_inputs body) = [Some (PhotoCharacter "photo-77")].
Proof.
  intros env body.
  assert (Hin : In (HeyGenCreate body) (trace (run (generateVideo env) empty))).
  { vm_compute. do 8 right. left. reflexivity. }
  split; [exact Hin|].
  destruct (custom_character_wins env empty body Hin) as [_ [Hc _]].
  exact (Hc Sample.me eq_refl).
Defined.

Lemma quiet_not_poll t : forallb is_quiet t = true -> forallb not_poll t = true.
Proof.
  intros H. apply forallb_forall. intros e He.
  apply (forallb_in _ _ _ H) in He. now destruct e.
Qed.

Lemma polls_none t : forallb not_poll t = true -> polls t = 0.
Proof.
  induction t as [|e t IH]; [reflexivity|]. simpl.
  intros H. apply andb_true_iff in H. destruct H as [He Ht].
  unfold polls in *. simpl. unfold not_poll in He.
  apply negb_true_iff in He. rewrite He. now apply IH.
Qed.

Lemma no_poll_no_split t pre v post :
  forallb not_poll t = true -> t <> (pre ++ HeyGenStatus v :: post)%list.
Proof.
  intros H ->. rewrite forallb_app in H. apply andb_true_iff in H.
  destruct H as [_ H]. discriminate.
Qed.

Lemma closing_not_poll videoId o : forallb not_poll (closing videoId o) = true.
Proof. now destruct o. Qed.

(** An accepted [addVideo] leaves the job in the store as written. *)
Lemma addVideo_accepted now videoData s key s1 :
  addVideo now videoData s = (Ok key, s1) ->
  sole_owner (VideoData.videoId videoData) s1 (newVideo now videoData key).
Proof.
  intros Hadd.
  destruct (getVideo (VideoData.videoId videoData) s) eqn:Hg.
  - rewrite (addVideo_taken _ _ _ _ Hg) in Hadd. discriminate.
  - pose proof (sole_owner_after_add now videoData s Hg) as Hown.
    rewrite (addVideo_fresh _ _ _ Hg) in Hadd. inversion Hadd; subst.
    now rewrite (addVideo_fresh _ _ _ Hg) in Hown.
Qed.

Lemma replay_preparation now videoData s pre body :
  forallb is_quiet pre = true ->
  replay s (ModalShow "Starting..." :: pre
            ++ [ModalStatus "Generating your video..."; HeyGenCreate body;
                HistoryAdd now videoData])
  = snd (addVideo now videoData s).
Proof.
  intros Hq.
  change (ModalShow "Starting..." :: pre
          ++ [ModalStatus "Generating your video..."; HeyGenCreate body;
              HistoryAdd now videoData])%list
    with ((ModalShow "Starting..." :: pre)
          ++ [ModalStatus "Generating your video..."; HeyGenCreate body;
              HistoryAdd now videoData])%list.
  rewrite replay_app, (replay_quiet (ModalShow "Starting..." :: pre))
    by (simpl; exact Hq).
  reflexivity.
Qed.

(** C1.  Whenever [generateVideo] polls the status of a render job, the
    job id is the one the submission returned, the call of [addVideo] for
    that id with status 'processing' comes earlier in the trace, and the
    history store at the moment of the poll holds the record of the job
    with status 'processing'. *)
Theorem history_before_polling :
  forall env s pre videoId post,
    trace (run (generateVideo env) s) = (pre ++ HeyGenStatus videoId :: post)%list ->
    create env = HttpSuccess videoId
    /\ (exists videoData,
          In (HistoryAdd (now env) videoData) pre
          /\ VideoData.videoId videoData = videoId
          /\ VideoData.status videoData = Some "processing")
    /\ (exists v,
          getVideo videoId (replay s pre) = Some v
          /\ Video.status v = "processing").
Proof.
  intros env s pre videoId post Ht. unfold run in Ht.
  destruct (generateVideo_runs env s) as
    [ m Hi
    | pre0 e Hv Hq
    | pre0 Hv Hq
    | pre0 voiceConfig transcript e Hv Hq Hc
    | pre0 voiceConfig transcript videoId0 videoData e Hv Hq Hc Hid Hst Hadd
    | pre0 voiceConfig transcript videoId0 videoData key s1 polled Hv Hq Hc Hid Hst Hadd Hp ];
    cbn [trace] in Ht.
  - exfalso. revert Ht. now apply no_poll_no_split.
  - exfalso. revert Ht. apply no_poll_no_split. simpl.
    rewrite forallb_app, (quiet_not_poll _ Hq). reflexivity.
  - exfalso. revert Ht. apply no_poll_no_split. simpl.
    now rewrite (quiet_not_poll _ Hq).
  - exfalso. revert Ht. apply no_poll_no_split. simpl.
    rewrite !forallb_app, (quiet_not_poll _ Hq). reflexivity.
  - exfalso. revert Ht. apply no_poll_no_split. simpl.
    rewrite !forallb_app, (quiet_not_poll _ Hq). reflexivity.
  - rewrite app_comm_cons, app_assoc in Ht.
    apply split_before_poll in Ht;
      [| simpl; rewrite forallb_app, (quiet_not_poll _ Hq); reflexivity].
    destruct Ht as [pre' [-> Ht]].
    apply split_within_polls in Ht; [| apply closing_not_poll].
    destruct Ht as [post' Ht]. rewrite Hp in Ht.
    destruct (waitForVideoWithHistory_polls _ _ _ _ _ _ _ Ht) as [-> Hrep].
    split; [exact Hc|]. split.
    + exists videoData. split; [|now split].
      apply in_or_app. left. right. apply in_or_app. right. simpl. auto.
    + rewrite replay_app.
      rewrite <- app_comm_cons, replay_preparation by exact Hq.
      rewrite Hadd. simpl snd. rewrite Hrep.
      destruct (addVideo_accepted _ _ _ _ _ Hadd) as [Hg _].
      rewrite Hid in Hg. eexists. split; [exact Hg|].
      simpl. now rewrite Hst.
Qed.

Lemma replay_no_history t :
  forall s, forallb (fun e => negb (is_history e)) t = true -> replay s t = s.
Proof.
  induction t as [|e t IH]; intros s H; [reflexivity|].
  simpl in H. apply andb_true_iff in H. destruct H as [He Ht].
  unfold replay in *. simpl. destruct e; try discriminate; now apply IH.
Qed.

(** The store a run of [generateVideo] ends with is the store its trace
    replays to: the events [HistoryAdd] and [HistoryUpdate] account for
    every change of the history. *)
Theorem generateVideo_replay env s :
  store (run (generateVideo env) s) = replay s (trace (run (generateVideo env) s)).
Proof.
  unfold run.
  destruct (generateVideo_runs env s) as
    [ m Hi
    | pre e Hv Hq
    | pre Hv Hq
    | pre voiceConfig transcript e Hv Hq Hc
    | pre voiceConfig transcript videoId videoData e Hv Hq Hc Hid Hst Hadd
    | pre voiceConfig transcript videoId videoData key s1 polled Hv Hq Hc Hid Hst Hadd Hp ];
    cbn [store trace].
  - reflexivity.
  - rewrite app_comm_cons, replay_app,
      (replay_quiet (ModalShow "Starting..." :: pre)) by (simpl; exact Hq).
    reflexivity.
  - now rewrite (replay_quiet (ModalShow "Starting..." :: pre)) by (simpl; exact Hq).
  - rewrite app_comm_cons, replay_app,
      (replay_quiet (ModalShow "Starting..." :: pre)) by (simpl; exact Hq).
    reflexivity.
  - rewrite app_comm_cons, replay_app,
      (replay_quiet (ModalShow "Starting..." :: pre)) by (simpl; exact Hq).
    unfold replay. simpl. now rewrite Hadd.
  - rewrite app_comm_cons, app_assoc, replay_app.
    rewrite <- app_comm_cons, replay_preparation by exact Hq.
    rewrite Hadd. simpl snd. rewrite replay_app.
    rewrite Hp at 2. rewrite <- waitForVideoWithHistory_replay, <- Hp.
    apply eq_sym, replay_no_history. now destruct (outcome polled).
Qed.

Lemma history_before_polling_witness :
  let env := Sample.env (Some Sample.recording) (Some Sample.anna) None
               false (Some Sample.narrator) Sample.asset
               [statusOnly "processing"; HttpSuccess Sample.completed] in
  let t := trace (run (generateVideo env) empty) in
  t = (firstn 10 t ++ HeyGenStatus "job-1" :: skipn 11 t)%list
  /\ exists v,
       getVideo "job-1" (replay empty (firstn 10 t)) = Some v
       /\ Video.status v = "processing".
Proof.
  intros env t.
  assert (Ht : t = (firstn 10 t ++ HeyGenStatus "job-1" :: skipn 11 t)%list)
    by (vm_compute; reflexivity).
  split; [exact Ht|].
  exact (proj2 (proj2
           (history_before_polling env empty (firstn 10 t) "job-1" (skipn 11 t) Ht))).
Defined.

(** C4.  When the replies to the status polls are non-terminal up to a
    reply with status 'failed', a run of [generateVideo] that gets as far
    as polling ends like this: the poll that sees 'failed', then
    [updateVideo] setting the record to 'failed', then the line
    'Error: Video generation failed' on the loading modal.  The history
    store holds the record as 'failed' already when that line is written,
    and [generateVideo] resolves. *)
Theorem render_failure_recorded_then_shown :
  forall env s before failed later,
    statusPolls env = (before ++ HttpSuccess failed :: later)%list ->
    forallb transient before = true ->
    VideoStatus.status failed = "failed" ->
    polls (trace (run (generateVideo env) s)) <> 0 ->
    let r := run (generateVideo env) s in
    exists pre videoId v,
      create env = HttpSuccess videoId
      /\ outcome r = Resolved tt
      /\ trace r
         = (pre ++ [HeyGenStatus videoId;
                    HistoryUpdate videoId (Updates.mk (Some "failed") None None None);
                    ModalStatus "Error: Video generation failed";
                    ModalHideAfter 3000])%list
      /\ polls pre = length before
      /\ store r
         = replay s (pre ++ [HeyGenStatus videoId;
                             HistoryUpdate videoId
                               (Updates.mk (Some "failed") None None None)])
      /\ getVideo videoId (store r) = Some v
      /\ Video.status v = "failed".
Proof.
  intros env s before failed later Hpolls Hbefore Hfailed Hreached r.
  subst r. unfold run in *.
  destruct (generateVideo_runs env s) as
    [ m Hi
    | pre0 e Hv Hq
    | pre0 Hv Hq
    | pre0 voiceConfig transcript e Hv Hq Hc
    | pre0 voiceConfig transcript videoId videoData e Hv Hq Hc Hid Hst Hadd
    | pre0 voiceConfig transcript videoId videoData key s1 polled Hv Hq Hc Hid Hst Hadd Hp ];
    cbn [trace outcome store] in *.
  - exfalso. apply Hreached. reflexivity.
  - exfalso. apply Hreached. apply polls_none. simpl.
    rewrite forallb_app, (quiet_not_poll _ Hq). reflexivity.
  - exfalso. apply Hreached. apply polls_none. simpl.
    now rewrite (quiet_not_poll _ Hq).
  - exfalso. apply Hreached. apply polls_none. simpl.
    rewrite !forallb_app, (quiet_not_poll _ Hq). reflexivity.
  - exfalso. apply Hreached. apply polls_none. simpl.
    rewrite !forallb_app, (quiet_not_poll _ Hq). reflexivity.
  - pose proof (addVideo_accepted _ _ _ _ _ Hadd) as Hown. rewrite Hid in Hown.
    rewrite Hpolls in Hp.
    destruct (waitForVideoWithHistory_failed videoId before failed later 0 s1 _
                Hown Hbefore Hfailed) as [s' [Hrun [Hupd Hget]]].
    pose proof (waitForVideoWithHistory_replay videoId
                  (before ++ HttpSuccess failed :: later) 0 s1) as Hreplay.
    rewrite Hrun in Hp, Hreplay. subst polled. cbn [outcome store trace closing] in *.
    exists ((ModalShow "Starting..." :: pre0
             ++ [ModalStatus "Generating your video...";
                 HeyGenCreate
                   (HeyGen.requestBody
                      (mkVideoConfig
                         (fst (characterStep (getSelectedAvatar env)
                                             (getSelectedCharacter env)))
                         voiceConfig transcript));
                 HistoryAdd (now env) videoData])
            ++ waiting videoId before 0)%list,
           videoId, (assign (newVideo (now env) videoData key) failedUpdates).
    split; [exact Hc|]. split; [reflexivity|]. split; [|split; [|split; [|split]]].
    + simpl. rewrite <- !app_assoc. reflexivity.
    + rewrite polls_app.
      destruct (waiting_counts videoId before 0) as [-> _].
      rewrite polls_none; [reflexivity|]. simpl.
      rewrite forallb_app, (quiet_not_poll _ Hq). reflexivity.
    + rewrite <- app_assoc, replay_app.
      rewrite replay_preparation by exact Hq.
      rewrite Hadd. simpl snd. exact Hreplay.
    + exact Hget.
    + reflexivity.
Qed.

Lemma render_failure_recorded_then_shown_witness :
  let env := Sample.env (Some Sample.recording) (Some Sample.anna) None
               false (Some Sample.narrator) Sample.asset
               [NetworkFailure "Failed to fetch"; statusOnly "processing";
                statusOnly "failed"] in
  let r := run (generateVideo env) empty in
  exists pre videoId v,
    outcome r = Resolved tt
    /\ trace r
       = (pre ++ [HeyGenStatus videoId;
                  HistoryUpdate videoId (Updates.mk (Some "failed") None None None);
                  ModalStatus "Error: Video generation failed";
                  ModalHideAfter 3000])%list
    /\ getVideo videoId (store r) = Some v
    /\ Video.status v = "failed".
Proof.
  intros env r.
  assert (Hreached : polls (trace (run (generateVideo env) empty)) <> 0)
    by (vm_compute; discriminate).
  destruct (render_failure_recorded_then_shown env empty
              [NetworkFailure "Failed to fetch"; statusOnly "processing"]
              (VideoStatus.mk "failed" None None None) []
              eq_refl eq_refl eq_refl Hreached)
    as [pre [videoId [v [_ [Ho [Ht [_ [_ [Hg Hs]]]]]]]]].
  exists pre, videoId, v. exact (conj Ho (conj Ht (conj Hg Hs))).
Defined.

Lemma bind_emit {B} (e : Event) (k : unit -> Async B) s :
  bind (emit e) k s = after [e] (k tt s).
Proof. reflexivity. Qed.

Lemma bind_rejected_run {A B} (m : Async A) (k : A -> Async B) s e :
  outcome (m s) = Rejected e ->
  bind m k s = mkRun (Rejected e) (store (m s)) (trace (m s)).
Proof. unfold bind. intros ->. reflexivity. Qed.

(** Step 1 in the custom-voice branch when the upload is rejected. *)
Lemma voiceStep_upload_rejected env s blob wavBlob e :
  getAudioBlob env = Some blob ->
  decoded env = Ok wavBlob ->
  outcome (HeyGen.uploadAsset wavBlob "audio" (upload env) s) = Rejected e ->
  voiceStep env Custom s
  = mkRun
      (Rejected (if includes "fetch" (message e) || includes "CORS" (message e)
                 then newError corsMessage else e))
      s
      [ModalShow "Converting audio..."; DecodeAudio (Some blob);
       ModalStatus "Uploading assets...";
       HeyGenUpload (HeyGen.contentType wavBlob "audio") wavBlob].
Proof.
  intros Hblob Hwav Hup.
  unfold voiceStep, AudioConverter.convertWebMToMP3. rewrite Hblob, Hwav.
  unfold HeyGen.uploadAsset, fetch in *.
  unfold tryCatch, bind, LoadingModal.show, LoadingModal.showUploading,
    LoadingModal.updateStatus in *.
  destruct (upload env) as [m | code statusText body | asset];
    cbn [outcome store trace after emit ret throw app] in Hup;
    [ | | discriminate];
    injection Hup as <-;
    cbn [outcome store trace after emit ret throw app message newError];
    match goal with
    | |- context [if ?b then _ else _] =>
        let Hb := fresh "Hb" in
        destruct b eqn:Hb;
        try match goal with
            | |- context [if ?b' then _ else _] =>
                match type of Hb with
                | _ = ?v => replace b' with v by (symmetry; exact Hb)
                end
            end
    end;
    reflexivity.
Qed.

(** C7 (the code departs from it).  The [catch] around the upload is
    commented 'Check if it's a CORS error' and recognises one by the
    words 'fetch' or 'CORS' in the message of the exception.  In WebKit a
    [fetch] that cannot reach the server or is blocked by the cross-origin
    policy rejects with the message 'Load failed', which holds neither
    word: the check misses it, the upload error is passed on as it is and
    the modal shows 'Error: Load failed', not the CORS explanation. *)
Lemma blocked_upload_shown_raw :
  let env := Sample.env (Some Sample.recording) (Some Sample.anna) None true None
               (NetworkFailure "Load failed") [] in
  let r := run (generateVideo env) empty in
  on_modal (trace r)
  = ["Starting..."; "Converting audio..."; "Uploading assets...";
     "Error: Load failed"]
  /\ ~ In ("Error: " ++ corsMessage) (on_modal (trace r)).
Proof.
  vm_compute. split; [reflexivity|].
  intros H. repeat (destruct H as [H | H]; [discriminate|]). exact H.
Qed.

(** What the check does with a rejected upload, whatever the exception.
    When the message contains 'fetch' or 'CORS', [generateVideo] replaces
    the exception by the fixed 'CORS Error: ...' explanation and shows
    that on the loading modal; an exception whose message contains neither
    is shown as it is.  In both cases nothing is submitted, the history is
    untouched and [generateVideo] resolves. *)
Theorem upload_error_classified :
  forall env s blob wavBlob e,
    validate env = Valid ->
    useCustomVoice env = true ->
    getAudioBlob env = Some blob ->
    decoded env = Ok wavBlob ->
    outcome (run (HeyGen.uploadAsset wavBlob "audio" (upload env)) s) = Rejected e ->
    let r := run (generateVideo env) s in
    outcome r = Resolved tt
    /\ store r = s
    /\ trace r
       = [ModalShow "Starting..."; ModalShow "Converting audio...";
          DecodeAudio (Some blob); ModalStatus "Uploading assets...";
          HeyGenUpload (HeyGen.contentType wavBlob "audio") wavBlob;
          ModalStatus
            ("Error: " ++
             (if includes "fetch" (message e) || includes "CORS" (message e)
              then corsMessage
              else or_else (Some (message e)) "Failed to generate video"));
          ModalHideAfter 3000].
Proof.
  intros env s blob wavBlob e Hv Hcustom Hblob Hwav Hup r. subst r.
  unfold run in *.
  pose proof (voiceStep_upload_rejected env s blob wavBlob e Hblob Hwav Hup) as Hstep.
  assert (Hout : outcome (voiceStep env Custom s)
                 = Rejected (if includes "fetch" (message e) || includes "CORS" (message e)
                             then newError corsMessage else e))
    by (rewrite Hstep; reflexivity).
  assert (Hrun :
    generateVideo env s
    = mkRun (Resolved tt) s
        [ModalShow "Starting..."; ModalShow "Converting audio...";
         DecodeAudio (Some blob); ModalStatus "Uploading assets...";
         HeyGenUpload (HeyGen.contentType wavBlob "audio") wavBlob;
         ModalStatus
           ("Error: " ++
            (if includes "fetch" (message e) || includes "CORS" (message e)
             then corsMessage
             else or_else (Some (message e)) "Failed to generate video"));
         ModalHideAfter 3000]).
  { unfold generateVideo. rewrite Hv.
    unfold getSelectedVoice. rewrite Hcustom.
    unfold LoadingModal.show.
    rewrite (tryCatch_rejected _ _ s
               (if includes "fetch" (message e) || includes "CORS" (message e)
                then newError corsMessage else e)).
    - rewrite bind_emit. rewrite (bind_rejected_run _ _ _ _ Hout).
      rewrite Hstep. cbn [outcome store trace after app].
      unfold LoadingModal.showError, LoadingModal.updateStatus.
      rewrite bind_emit. cbn [outcome store trace after emit app].
      destruct (includes "fetch" (message e) || includes "CORS" (message e));
        reflexivity.
    - rewrite bind_emit. cbn [outcome after].
      rewrite (bind_rejected_run _ _ _ _ Hout). reflexivity. }
  rewrite Hrun. repeat split.
Qed.

Lemma upload_error_classified_witness :
  let env := Sample.env (Some Sample.recording) (Some Sample.anna) None true None
               (NetworkFailure "Failed to fetch") [] in
  let r := run (generateVideo env) empty in
  outcome r = Resolved tt
  /\ on_modal (trace r)
     = ["Starting..."; "Converting audio..."; "Uploading assets...";
        "Error: " ++ corsMessage].
Proof.
  intros env r.
  destruct (upload_error_classified env empty Sample.recording Sample.wav
              (mkError "TypeError" "Failed to fetch")
              eq_refl eq_refl eq_refl eq_refl eq_refl) as [Ho [_ Ht]].
  split; [exact Ho|]. subst r. rewrite Ht. reflexivity.
Defined.

(** The history entry of a run with both selections keeps the id of the
    preset avatar next to the name of the custom character. *)
Lemma historyEntry_both_selected videoId a c voiceSelection transcript :
  avatar_id a <> "" ->
  let entry := historyEntry videoId (Some a) (Some c)
                 (snd (characterStep (Some a) (Some c))) voiceSelection transcript in
  VideoData.avatarId entry = Some (avatar_id a)
  /\ VideoData.avatarName entry = Some (or_else (name c) "Custom Character").
Proof.
  intros Hid. simpl. unfold or_option, truthy. simpl.
  destruct (avatar_id a =? "") eqn:He; [apply String.eqb_eq in He; contradiction|].
  now split.
Qed.

(* ================================================================== *)
(** * More properties of the job history                               *)
(* ================================================================== *)

Lemma assign_twice v updates : assign (assign v updates) updates = assign v updates.
Proof.
  destruct v, updates as [st url thumb dur].
  destruct st, url, thumb, dur; reflexivity.
Qed.

Lemma assign_keeps v updates :
  Video.id (assign v updates) = Video.id v
  /\ Video.videoId (assign v updates) = Video.videoId v.
Proof. now split. Qed.

(** What an accepted [updateVideo] does to the list of records. *)
Lemma updateVideo_accepted videoId updates s s' :
  updateVideo videoId updates s = (Ok tt, s') ->
  exists v,
    getVideo videoId s = Some v
    /\ In v (videos s)
    /\ Video.videoId v = videoId
    /\ existsb (fun x => (Video.videoId x =? videoId)
                         && negb (Video.id x =? Video.id v)%nat) (videos s) = false
    /\ s' = mkStore (nextKey s)
              (map (fun x => if (Video.id x =? Video.id v)%nat
                             then assign v updates else x) (videos s)).
Proof.
  unfold updateVideo, getVideo.
  destruct (index_get videoId s) as [v|] eqn:Hg; [|discriminate].
  destruct (find_some_in _ _ _ Hg) as [Hin Hid].
  unfold put. simpl. rewrite Hid.
  destruct (existsb _ _) eqn:Hother; [discriminate|].
  destruct (existsb (fun x => (Video.id x =? Video.id v)%nat) (videos s)) eqn:Hkey.
  - intros H. inversion H. exists v. repeat split; auto.
  - exfalso. apply not_true_iff_false in Hkey. apply Hkey.
    apply existsb_exists. exists v. split; [exact Hin | apply Nat.eqb_refl].
Qed.

Lemma assigned_twice {A} (update : option A) (current : A) :
  assigned update (assigned update current) = assigned update current.
Proof. now destruct update. Qed.

Lemma assignAny_twice v updates :
  assignAny (assignAny v updates) updates = assignAny v updates.
Proof. unfold assignAny. cbn [Video.id Video.videoId Video.videoUrl Video.status
  Video.createdAt Video.avatarId Video.avatarName Video.voiceType Video.voiceName
  Video.transcript Video.duration Video.thumbnailUrl].
  now rewrite !assigned_twice.
Qed.

Lemma assignAny_of_updates v updates : assignAny v (AnyUpdates.of_updates updates) = assign v updates.
Proof. reflexivity. Qed.

Lemma updateVideoAny_of_updates videoId updates s :
  updateVideoAny videoId (AnyUpdates.of_updates updates) s = updateVideo videoId updates s.
Proof. reflexivity. Qed.

Lemma assignAny_keeps videoId v updates :
  keeps_keys videoId updates -> Video.videoId v = videoId ->
  Video.id (assignAny v updates) = Video.id v
  /\ Video.videoId (assignAny v updates) = videoId.
Proof.
  intros [Hkey Hjob] Hv. unfold assignAny. simpl. rewrite Hkey. simpl.
  split; [reflexivity|]. destruct Hjob as [-> | ->]; simpl; congruence.
Qed.

Lemma updateVideoAny_rejected videoId updates s e s' :
  updateVideoAny videoId updates s = (Err e, s') -> s' = s.
Proof.
  unfold updateVideoAny, put.
  destruct (index_get videoId s); [|now inversion 1].
  destruct (existsb _ _); [now inversion 1|].
  destruct (existsb _ _); inversion 1.
Qed.

(** What an accepted update does to the list of records when the updated
    record keeps its key. *)
Lemma updateVideoAny_accepted videoId updates s s' :
  AnyUpdates.id updates = None ->
  updateVideoAny videoId updates s = (Ok tt, s') ->
  exists v,
    getVideo videoId s = Some v
    /\ In v (videos s)
    /\ Video.videoId v = videoId
    /\ Video.id (assignAny v updates) = Video.id v
    /\ existsb (fun x => (Video.videoId x =? Video.videoId (assignAny v updates))
                         && negb (Video.id x =? Video.id v)%nat) (videos s) = false
    /\ s' = mkStore (nextKey s)
              (map (fun x => if (Video.id x =? Video.id v)%nat
                             then assignAny v updates else x) (videos s)).
Proof.
  intros Hkey. unfold updateVideoAny, getVideo.
  destruct (index_get videoId s) as [v|] eqn:Hg; [|discriminate].
  destruct (find_some_in _ _ _ Hg) as [Hin Hid].
  assert (Hsame : Video.id (assignAny v updates) = Video.id v)
    by (unfold assignAny; simpl; now rewrite Hkey).
  unfold put. rewrite Hsame.
  destruct (existsb _ _) eqn:Hother; [discriminate|].
  destruct (existsb (fun x => (Video.id x =? Video.id v)%nat) (videos s)) eqn:Hheld.
  - intros H. inversion H. exists v. repeat split; auto.
  - exfalso. apply not_true_iff_false in Hheld. apply Hheld.
    apply existsb_exists. exists v. split; [exact Hin | apply Nat.eqb_refl].
Qed.

Lemma updateVideoAny_repeated videoId updates s :
  keeps_keys videoId updates ->
  updateVideoAny videoId updates (snd (updateVideoAny videoId updates s))
  = updateVideoAny videoId updates s.
Proof.
  intros Hkeeps.
  destruct (updateVideoAny videoId updates s) as [[[]|e] s'] eqn:Hu.
  - simpl snd.
    destruct (updateVideoAny_accepted _ _ _ _ (proj1 Hkeeps) Hu)
      as [v [Hg [Hin [Hid [Hsame [Hother ->]]]]]].
    destruct (assignAny_keeps videoId v updates Hkeeps Hid) as [_ Hjob].
    set (v' := assignAny v updates) in *.
    set (f := fun x => if (Video.id x =? Video.id v)%nat then v' else x).
    assert (Hg' : index_get videoId (mkStore (nextKey s) (map f (videos s))) = Some v').
    { unfold index_get. simpl. apply find_replace; [exact Hg | exact Hjob]. }
    unfold updateVideoAny. rewrite Hg'. unfold v' at 1. rewrite assignAny_twice.
    fold v'. unfold put. cbn [videos nextKey].
    assert (Hother' :
      existsb (fun x => (Video.videoId x =? Video.videoId v')
                        && negb (Video.id x =? Video.id v')%nat)
              (map f (videos s)) = false).
    { apply not_true_iff_false. intros Hex.
      apply existsb_exists in Hex. destruct Hex as [y [Hy Hb]].
      apply in_map_iff in Hy. destruct Hy as [x [<- Hx]].
      unfold f in Hb. destruct (Video.id x =? Video.id v)%nat eqn:Hk.
      - rewrite Nat.eqb_refl, andb_false_r in Hb. discriminate.
      - apply not_true_iff_false in Hother. apply Hother.
        apply existsb_exists. exists x. split; [exact Hx|].
        rewrite Hsame in Hb. now rewrite Hk in Hb |- *. }
    rewrite Hother'.
    assert (Hkey' :
      existsb (fun x => (Video.id x =? Video.id v')%nat) (map f (videos s)) = true).
    { apply existsb_exists. exists v'. split; [|apply Nat.eqb_refl].
      apply in_map_iff. exists v. split; [|exact Hin].
      unfold f. now rewrite Nat.eqb_refl. }
    rewrite Hkey'. f_equal. f_equal.
    rewrite map_map. apply map_ext. intros x. unfold f.
    destruct (Video.id x =? Video.id v)%nat eqn:Hk.
    + now rewrite Nat.eqb_refl.
    + rewrite Hsame. now rewrite Hk.
  - simpl snd. pose proof (updateVideoAny_rejected _ _ _ _ _ Hu) as ->. exact Hu.
Qed.

(** X1.  Calling [updateVideo] a second time with the same id and the same
    updates changes nothing, as long as the updates leave the key [id]
    alone and do not move the record to another job id: the second call
    ends the way the first call ended and leaves the store the first call
    left.  The updates of the poll loop are of this kind.  Updates that
    rename the job are not: the first call resolves and the second rejects
    with 'Video not found'. *)
Theorem updateVideo_idempotent :
  (forall videoId updates s,
      keeps_keys videoId updates ->
      updateVideoAny videoId updates (snd (updateVideoAny videoId updates s))
      = updateVideoAny videoId updates s)
  /\ (forall videoId updates s,
        keeps_keys videoId (AnyUpdates.of_updates updates)
        /\ updateVideoAny videoId (AnyUpdates.of_updates updates) s
           = updateVideo videoId updates s
        /\ updateVideo videoId updates (snd (updateVideo videoId updates s))
           = updateVideo videoId updates s)
  /\ (fst (updateVideoAny "job-1" (renamed "job-9") sampleHistory) = Ok tt
      /\ fst (updateVideoAny "job-1" (renamed "job-9")
                (snd (updateVideoAny "job-1" (renamed "job-9") sampleHistory)))
         = Err (newError "Video not found")).
Proof.
  split; [|split].
  - intros videoId updates s. apply updateVideoAny_repeated.
  - intros videoId updates s.
    assert (Hk : keeps_keys videoId (AnyUpdates.of_updates updates))
      by (split; [reflexivity | now left]).
    split; [exact Hk|]. split; [reflexivity|].
    rewrite <- !updateVideoAny_of_updates. now apply updateVideoAny_repeated.
  - vm_compute. split; reflexivity.
Qed.

Lemma updateVideo_idempotent_witness :
  let updates :=
    AnyUpdates.mk None (Some "job-1") None (Some "failed") None None None None
      None None None None in
  updateVideoAny "job-1" updates (snd (updateVideoAny "job-1" updates sampleHistory))
  = updateVideoAny "job-1" updates sampleHistory.
Proof.
  intros updates.
  apply (proj1 updateVideo_idempotent "job-1" updates sampleHistory).
  split; [reflexivity | now right].
Defined.

(** Dropping records keeps their keys distinct. *)
Lemma distinct_keys_filter {Record Key} (key : Record -> Key)
    (keep : Record -> bool) (records : list Record) :
  NoDup (map key records) -> NoDup (map key (filter keep records)).
Proof.
  intros Hdistinct. induction records as [|r records IH]; [constructor|].
  inversion Hdistinct as [|? ? Hfresh Hrest]; subst. simpl.
  destruct (keep r); [|now apply IH]. simpl. constructor; [|now apply IH].
  intros Hheld. apply Hfresh. apply in_map_iff in Hheld.
  destruct Hheld as [r' [Hkey Hr']]. apply filter_In in Hr'.
  rewrite <- Hkey. apply in_map. tauto.
Qed.

Lemma find_all_false {A} (p : A -> bool) (l : list A) :
  (forall x, In x l -> p x = false) -> find p l = None.
Proof.
  induction l as [|x l IH]; simpl; intros H; [reflexivity|].
  rewrite (H x) by now left. apply IH. intros y Hy. apply H. now right.
Qed.

Lemma find_app_some {A} (p : A -> bool) (l1 l2 : list A) (w : A) :
  find p l1 = Some w -> find p (l1 ++ l2) = Some w.
Proof.
  induction l1 as [|x l1 IH]; simpl; [discriminate|].
  destruct (p x); [trivial | exact IH].
Qed.

Lemma find_in_filter {A} (p q : A -> bool) (l : list A) (v : A) :
  find p l = Some v -> q v = true -> find p (filter q l) = Some v.
Proof.
  induction l as [|x l IH]; simpl; intros Hf Hq; [discriminate|].
  destruct (p x) eqn:Hp.
  - inversion Hf; subst x. rewrite Hq. simpl. now rewrite Hp.
  - destruct (q x); simpl; [rewrite Hp|]; now apply IH.
Qed.

(** With unique keys an accepted update rewrites one record only. *)
Lemma replace_by_key_maps (l : list Video.t) (v v' : Video.t) :
  NoDup (map Video.id l) -> In v l ->
  Video.id v' = Video.id v -> Video.videoId v' = Video.videoId v ->
  map Video.videoId
    (map (fun x => if (Video.id x =? Video.id v)%nat then v' else x) l)
  = map Video.videoId l
  /\ map Video.id
       (map (fun x => if (Video.id x =? Video.id v)%nat then v' else x) l)
     = map Video.id l.
Proof.
  intros Hnd Hin Hid Hvid. rewrite !map_map. split; apply map_ext_in; intros x Hx;
    destruct (Video.id x =? Video.id v)%nat eqn:Hk; try reflexivity;
    apply Nat.eqb_eq in Hk;
    assert (x = v) by (eapply nodup_map_injective; eauto); subst x; assumption.
Qed.

Lemma find_replace_other (other : string) (l : list Video.t) (v v' : Video.t) :
  (forall x, In x l -> Video.id x = Video.id v -> Video.videoId x <> other) ->
  Video.videoId v' <> other ->
  find (fun x => Video.videoId x =? other)
       (map (fun x => if (Video.id x =? Video.id v)%nat then v' else x) l)
  = find (fun x => Video.videoId x =? other) l.
Proof.
  intros Hl Hv'. induction l as [|x l IH]; [reflexivity|]. simpl.
  assert (IH' := IH (fun y Hy => Hl y (or_intror Hy))).
  destruct (Video.id x =? Video.id v)%nat eqn:Hk.
  - apply Nat.eqb_eq in Hk.
    apply String.eqb_neq in Hv'. rewrite Hv'.
    pose proof (Hl x (or_introl eq_refl) Hk) as Hx.
    apply String.eqb_neq in Hx. now rewrite Hx.
  - now rewrite IH'.
Qed.

Lemma well_formed_empty : well_formed empty.
Proof. repeat split; simpl; constructor. Qed.

Lemma well_formed_addVideo now videoData s :
  well_formed s -> well_formed (snd (addVideo now videoData s)).
Proof.
  intros [Hvid [Hkey Hlt]].
  destruct (getVideo (VideoData.videoId videoData) s) eqn:Hg.
  - rewrite (addVideo_taken _ _ _ _ Hg). now repeat split.
  - pose proof (unique_index_add now videoData s Hvid) as Hu.
    rewrite (addVideo_fresh _ _ _ Hg) in Hu |- *. simpl.
    split; [exact Hu|]. split; simpl.
    + rewrite map_app. simpl.
      apply NoDup_app; [exact Hkey | repeat constructor; intros [] |].
      intros k Hin [Hk|[]]. subst k.
      apply in_map_iff in Hin. destruct Hin as [v [Hv Hin]].
      rewrite Forall_forall in Hlt. specialize (Hlt v Hin). lia.
    + apply Forall_app. split.
      * eapply Forall_impl; [|exact Hlt]. simpl. intros; lia.
      * constructor; [simpl; lia | constructor].
Qed.

(** X2.  The object store stays well formed under every operation of the
    history manager: job ids stay unique, primary keys stay unique, and
    every key in use stays below the next key of the generator. *)
Theorem well_formed_preserved :
  forall s,
    well_formed s ->
    (forall now videoData, well_formed (snd (addVideo now videoData s)))
    /\ (forall videoId updates, well_formed (snd (updateVideo videoId updates s)))
    /\ (forall id, well_formed (deleteVideo id s))
    /\ well_formed (clearAll s).
Proof.
  intros s Hwf. split; [|split; [|split]].
  - intros now videoData. now apply well_formed_addVideo.
  - destruct Hwf as [Hvid [Hkey Hlt]]. intros videoId updates.
    destruct (updateVideo videoId updates s) as [[[]|e] s'] eqn:Hu.
    + destruct (updateVideo_accepted _ _ _ _ Hu) as [v [Hg [Hin [Hid [_ ->]]]]].
      destruct (replace_by_key_maps (videos s) v (assign v updates) Hkey Hin
                  eq_refl eq_refl) as [Hm1 Hm2].
      simpl. split; [|split]; simpl.
      * now rewrite Hm1.
      * now rewrite Hm2.
      * apply Forall_forall. intros y Hy.
        apply in_map_iff in Hy. destruct Hy as [x [<- Hx]].
        rewrite Forall_forall in Hlt.
        destruct (Video.id x =? Video.id v)%nat; [apply (Hlt v Hin) | apply (Hlt x Hx)].
    + pose proof (updateVideo_rejected _ _ _ _ _ Hu) as ->. now repeat split.
  - destruct Hwf as [Hvid [Hkey Hlt]].
    intros id. unfold deleteVideo. split; [|split]; simpl.
    + now apply distinct_keys_filter.
    + now apply distinct_keys_filter.
    + apply Forall_forall. intros x Hx. apply filter_In in Hx.
      rewrite Forall_forall in Hlt. now apply Hlt.
  - repeat split; simpl; constructor.
Qed.

Lemma well_formed_preserved_witness :
  well_formed (snd (addVideo "2025-01-01T00:00:00.000Z"
                      (VideoData.mk "job-1" None None None None None None None None None)
                      empty))
  /\ well_formed (deleteVideo 1 empty).
Proof.
  destruct (well_formed_preserved empty well_formed_empty) as [Ha [_ [Hd _]]].
  split; [apply Ha | apply Hd].
Defined.

Lemma find_renamed (newId : string) (l : list Video.t) (v v' : Video.t) :
  find (fun x => Video.videoId x =? newId) l = None ->
  In v l -> Video.videoId v' = newId ->
  find (fun x => Video.videoId x =? newId)
       (map (fun x => if (Video.id x =? Video.id v)%nat then v' else x) l)
  = Some v'.
Proof.
  intros Hfree Hin Hnew. induction l as [|x l IH]; [contradiction|].
  simpl in *. destruct (Video.videoId x =? newId) eqn:Hx; [discriminate|].
  destruct (Video.id x =? Video.id v)%nat eqn:Hk.
  - now rewrite Hnew, String.eqb_refl.
  - rewrite Hx. apply IH; [exact Hfree|].
    destruct Hin as [->|Hin]; [|exact Hin]. now rewrite Nat.eqb_refl in Hk.
Qed.

(** X3.  In a well-formed store the operations on one job leave the record
    of every other job as it is: adding another job id does not change
    what [getVideo] returns, and neither does updating another job id,
    whatever fields the updates set, as long as they leave the key [id]
    alone and do not move the record to the job id looked up; deleting by
    key leaves the records stored under other keys.  Updates that rename a
    job to an id the store does not hold yet do change what [getVideo]
    returns for that id: the renamed record, while the old id is no longer
    found. *)
Theorem other_jobs_untouched :
  forall s other,
    well_formed s ->
    (forall now videoData,
        VideoData.videoId videoData <> other ->
        getVideo other (snd (addVideo now videoData s)) = getVideo other s)
    /\ (forall videoId updates,
          videoId <> other ->
          getVideo other (snd (updateVideo videoId updates s)) = getVideo other s)
    /\ (forall videoId updates,
          videoId <> other ->
          AnyUpdates.id updates = None ->
          AnyUpdates.videoId updates <> Some other ->
          getVideo other (snd (updateVideoAny videoId updates s)) = getVideo other s)
    /\ (forall videoId v,
          getVideo videoId s = Some v ->
          getVideo other s = None ->
          updateVideoAny videoId (renamed other) s
          = (Ok tt, snd (updateVideoAny videoId (renamed other) s))
          /\ getVideo other (snd (updateVideoAny videoId (renamed other) s))
             = Some (assignAny v (renamed other))
          /\ getVideo videoId (snd (updateVideoAny videoId (renamed other) s)) = None)
    /\ (forall id v,
          getVideo other s = Some v -> Video.id v <> id ->
          getVideo other (deleteVideo id s) = Some v).
Proof.
  intros s other [Hvid [Hkey Hlt]].
  assert (Hany : forall videoId updates,
             videoId <> other ->
             AnyUpdates.id updates = None ->
             AnyUpdates.videoId updates <> Some other ->
             getVideo other (snd (updateVideoAny videoId updates s)) = getVideo other s).
  { intros videoId updates Hne Hkeep Hjob.
    destruct (updateVideoAny videoId updates s) as [[[]|e] s'] eqn:Hu.
    - destruct (updateVideoAny_accepted _ _ _ _ Hkeep Hu)
        as [v [Hg [Hin [Hid [_ [_ ->]]]]]].
      unfold getVideo, index_get. simpl.
      apply find_replace_other.
      + intros x Hx Hk.
        assert (x = v) by (eapply nodup_map_injective; eauto). subst x. congruence.
      + unfold assignAny. simpl.
        destruct (AnyUpdates.videoId updates) as [j|]; simpl; congruence.
    - now pose proof (updateVideoAny_rejected _ _ _ _ _ Hu) as ->. }
  split; [|split; [|split; [|split]]].
  - intros now videoData Hne.
    destruct (getVideo (VideoData.videoId videoData) s) eqn:Hg.
    + now rewrite (addVideo_taken _ _ _ _ Hg).
    + rewrite (addVideo_fresh _ _ _ Hg). unfold getVideo, index_get. simpl.
      destruct (find (fun v => Video.videoId v =? other) (videos s)) as [w|] eqn:Hf.
      * now apply find_app_some.
      * rewrite find_app_none by exact Hf. simpl.
        destruct (VideoData.videoId videoData =? other) eqn:He; [|reflexivity].
        apply String.eqb_eq in He. contradiction.
  - intros videoId updates Hne. rewrite <- updateVideoAny_of_updates.
    apply Hany; [exact Hne | reflexivity | discriminate].
  - exact Hany.
  - intros videoId v Hg Hfree.
    unfold updateVideoAny, getVideo in *. rewrite Hg.
    destruct (find_some_in _ _ _ Hg) as [Hin Hid].
    set (v' := assignAny v (renamed other)).
    assert (Hne : videoId <> other) by (intros ->; congruence).
    unfold put.
    replace (existsb (fun x => (Video.videoId x =? Video.videoId v')
                               && negb (Video.id x =? Video.id v')%nat) (videos s))
      with false.
    2:{ symmetry. apply not_true_iff_false. intros Hex.
        apply existsb_exists in Hex. destruct Hex as [x [Hx Hb]].
        apply andb_true_iff in Hb. destruct Hb as [Hb _]. simpl in Hb.
        unfold index_get in Hfree. pose proof (find_none _ _ Hfree x Hx) as Hn.
        simpl in Hn. congruence. }
    replace (existsb (fun x => (Video.id x =? Video.id v')%nat) (videos s)) with true.
    2:{ symmetry. apply existsb_exists. exists v. split; [exact Hin|].
        apply Nat.eqb_refl. }
    cbn [snd]. split; [reflexivity|]. unfold index_get. cbn [videos].
    change (Video.id v') with (Video.id v).
    split.
    + apply find_renamed; [exact Hfree | exact Hin | reflexivity].
    + apply find_all_false. intros y Hy. apply in_map_iff in Hy.
      destruct Hy as [x [<- Hx]].
      destruct (Video.id x =? Video.id v)%nat eqn:Hk.
      * simpl. apply String.eqb_neq. congruence.
      * apply String.eqb_neq. intros Hsame. apply Nat.eqb_neq in Hk. apply Hk.
        f_equal. apply (nodup_map_injective Video.videoId (videos s)); auto.
        congruence.
  - intros id v Hg Hne. unfold getVideo, index_get, deleteVideo in *. simpl.
    apply find_in_filter; [exact Hg|].
    apply negb_true_iff. now apply Nat.eqb_neq.
Qed.

Lemma sampleHistory_well_formed : well_formed sampleHistory.
Proof.
  unfold sampleHistory.
  apply well_formed_addVideo, well_formed_addVideo, well_formed_empty.
Qed.

Lemma other_jobs_untouched_witness :
  getVideo "job-1" (snd (updateVideo "job-2" failedUpdates sampleHistory))
  = getVideo "job-1" sampleHistory
  /\ getVideo "job-1"
       (snd (updateVideoAny "job-2" (renamed "job-9") sampleHistory))
     = getVideo "job-1" sampleHistory
  /\ getVideo "job-2"
       (snd (updateVideoAny "job-2" (renamed "job-9") sampleHistory))
     = None
  /\ getVideo "job-1" (deleteVideo 2 sampleHistory)
     = Some (newVideo "2025-01-01T00:00:00.000Z" sampleFirst 1).
Proof.
  destruct (other_jobs_untouched sampleHistory "job-1" sampleHistory_well_formed)
    as [_ [Hu [Hany [_ Hd]]]].
  destruct (other_jobs_untouched sampleHistory "job-9" sampleHistory_well_formed)
    as [_ [_ [_ [Hrenamed _]]]].
  split; [apply Hu; discriminate|].
  split; [apply Hany; [discriminate | reflexivity | discriminate]|].
  split.
  - exact (proj2 (proj2 (Hrenamed "job-2" _ eq_refl eq_refl))).
  - apply Hd; [reflexivity | discriminate].
Defined.

(** X4.  Deleting the record of a job frees its job id: [getVideo] no
    longer finds it, and a later [addVideo] with that id is accepted under
    a key that was never used before.  Deleting a key that is not in the
    store changes nothing. *)
Theorem deleteVideo_frees_job_id :
  forall s videoId v,
    well_formed s ->
    getVideo videoId s = Some v ->
    getVideo videoId (deleteVideo (Video.id v) s) = None
    /\ (forall now videoData,
          VideoData.videoId videoData = videoId ->
          fst (addVideo now videoData (deleteVideo (Video.id v) s)) = Ok (nextKey s)
          /\ Video.id v < nextKey s
          /\ getVideo videoId (snd (addVideo now videoData (deleteVideo (Video.id v) s)))
             = Some (newVideo now videoData (nextKey s)))
    /\ (forall id,
          (forall x, In x (videos s) -> Video.id x <> id) ->
          deleteVideo id s = s).
Proof.
  intros s videoId v [Hvid [Hkey Hlt]] Hg.
  destruct (find_some_in _ _ _ Hg) as [Hin Hid].
  assert (Hgone : getVideo videoId (deleteVideo (Video.id v) s) = None).
  { unfold getVideo, index_get, deleteVideo. simpl.
    apply find_all_false. intros x Hx. apply filter_In in Hx.
    destruct Hx as [Hx Hk]. apply String.eqb_neq. intros Hsame.
    assert (x = v)
      by (apply (nodup_map_injective Video.videoId (videos s)); auto; congruence).
    subst x. rewrite Nat.eqb_refl in Hk. discriminate. }
  split; [exact Hgone|]. split.
  - intros now videoData Hd. rewrite <- Hd in Hgone |- *.
    rewrite (addVideo_fresh _ _ _ Hgone). simpl. split; [reflexivity|]. split.
    + rewrite Forall_forall in Hlt. now apply Hlt.
    + pose proof (getVideo_after_add now videoData _ Hgone) as Ha.
      now rewrite (addVideo_fresh _ _ _ Hgone) in Ha.
  - intros id Habsent. unfold deleteVideo. destruct s as [k l]. simpl in *.
    f_equal. clear - Habsent. induction l as [|x l IH]; [reflexivity|]. simpl.
    assert (Hx : (Video.id x =? id)%nat = false)
      by (apply Nat.eqb_neq, Habsent; now left).
    rewrite Hx. simpl. f_equal. apply IH. intros y Hy. apply Habsent. now right.
Qed.

Lemma deleteVideo_frees_job_id_witness :
  getVideo "job-1" (deleteVideo 1 sampleHistory) = None
  /\ fst (addVideo "2025-01-03T00:00:00.000Z" sampleFirst (deleteVideo 1 sampleHistory))
     = Ok 3.
Proof.
  destruct (deleteVideo_frees_job_id sampleHistory "job-1"
              (newVideo "2025-01-01T00:00:00.000Z" sampleFirst 1)
              sampleHistory_well_formed eq_refl) as [Hgone [Hadd _]].
  split; [exact Hgone|].
  exact (proj1 (Hadd "2025-01-03T00:00:00.000Z" sampleFirst eq_refl)).
Defined.

(** ** The history view *)

Lemma insertByDate_perm time v l : Permutation (insertByDate time v l) (v :: l).
Proof.
  induction l as [|w l IH]; simpl; [reflexivity|].
  destruct (time (Video.createdAt w) <=? time (Video.createdAt v))%Z; [reflexivity|].
  rewrite IH. apply perm_swap.
Qed.

Lemma insertByDate_sorted time v l :
  StronglySorted (newerOrSame time) l ->
  StronglySorted (newerOrSame time) (insertByDate time v l).
Proof.
  induction l as [|w l IH]; simpl; intros Hs; [repeat constructor|].
  inversion Hs as [|? ? Hl Hw]; subst.
  destruct (time (Video.createdAt w) <=? time (Video.createdAt v))%Z eqn:Hc.
  - apply Z.leb_le in Hc. constructor; [exact Hs|].
    constructor; [exact Hc|].
    eapply Forall_impl; [|exact Hw]. unfold newerOrSame. intros; lia.
  - apply Z.leb_gt in Hc. constructor; [now apply IH|].
    apply Forall_forall. intros x Hx.
    apply (Permutation_in _ (insertByDate_perm time v l)) in Hx.
    destruct Hx as [<-|Hx].
    + unfold newerOrSame. lia.
    + rewrite Forall_forall in Hw. now apply Hw.
Qed.

(** X5.  [getAllVideos] returns every record of the store exactly once,
    newest first: no record is preceded by one with an earlier creation
    time. *)
Theorem getAllVideos_newest_first :
  forall time s,
    Permutation (getAllVideos time s) (videos s)
    /\ StronglySorted (newerOrSame time) (getAllVideos time s).
Proof.
  intros time s. unfold getAllVideos.
  induction (videos s) as [|v l [IHp IHs]]; simpl.
  - split; constructor.
  - split.
    + rewrite insertByDate_perm. now constructor.
    + now apply insertByDate_sorted.
Qed.

Lemma sortNewestFirst_latest time l v :
  (forall w, In w l -> (time (Video.createdAt w) < time (Video.createdAt v))%Z) ->
  sortNewestFirst time (l ++ [v]) = v :: sortNewestFirst time l.
Proof.
  induction l as [|a l IH]; intros H; [reflexivity|].
  simpl. rewrite IH by (intros w Hw; apply H; now right). simpl.
  assert (Ha : (time (Video.createdAt v) <=? time (Video.createdAt a))%Z = false).
  { apply Z.leb_gt. apply H. now left. }
  now rewrite Ha.
Qed.

(** X6.  A job added with a creation time later than that of every stored
    record comes first in the history view, the rest of the view being
    what it was. *)
Theorem getAllVideos_after_add :
  forall time s now videoData,
    getVideo (VideoData.videoId videoData) s = None ->
    (forall w, In w (videos s) -> (time (Video.createdAt w) < time now)%Z) ->
    getAllVideos time (snd (addVideo now videoData s))
    = newVideo now videoData (nextKey s) :: getAllVideos time s.
Proof.
  intros time s now videoData Hg Hlater.
  rewrite (addVideo_fresh _ _ _ Hg). unfold getAllVideos. simpl.
  now apply sortNewestFirst_latest.
Qed.

Lemma getAllVideos_after_add_witness :
  getAllVideos sampleTime
    (snd (addVideo "2025-01-03T00:00:00.000Z"
            (VideoData.mk "job-3" None None None None None None None None None)
            sampleHistory))
  = newVideo "2025-01-03T00:00:00.000Z"
      (VideoData.mk "job-3" None None None None None None None None None) 3
    :: getAllVideos sampleTime sampleHistory.
Proof.
  apply (getAllVideos_after_add sampleTime sampleHistory
           "2025-01-03T00:00:00.000Z"
           (VideoData.mk "job-3" None None None None None None None None None)
           eq_refl).
  intros w [<-|[<-|[]]]; vm_compute; reflexivity.
Defined.

(* ================================================================== *)
(** * Transcription                                                    *)
(* ================================================================== *)

Lemma transcriptPolls_S id n :
  transcriptPolls id (S n)
  = (AssemblyPoll id :: Sleep 3000 :: transcriptPolls id n)%list.
Proof.
  unfold transcriptPolls. rewrite <- cons_seq. simpl.
  f_equal. f_equal. rewrite <- seq_shift.
  now rewrite flat_map_concat_map, map_map, <- flat_map_concat_map.
Qed.

Lemma transcribing_status t :
  transcribing t = false ->
  Transcript.status t = "completed" \/ Transcript.status t = "error".
Proof.
  unfold transcribing. intros H. apply andb_false_iff in H.
  destruct H as [H|H]; apply negb_false_iff, String.eqb_eq in H; auto.
Qed.

Lemma fetch_success {A} request (data : A) notOk s :
  fetch request (HttpSuccess data) notOk s = mkRun (Resolved data) s [request].
Proof. reflexivity. Qed.

Lemma fetch_rejection {A} request (reply : FetchReply A) notOk e s :
  rejection reply notOk = Some e ->
  fetch request reply notOk s = mkRun (Rejected e) s [request].
Proof. destruct reply; simpl; intros H; inversion H; reflexivity. Qed.

(** The [while] loop of [getTranscript], from a transcript still in the
    making, through [before] more such polls, to a poll that settles. *)
Lemma pollUntilDone_settles id before final later :
  forallb transcribing before = true ->
  transcribing final = false ->
  forall current s,
    transcribing current = true ->
    AssemblyAI.pollUntilDone id
      (map HttpSuccess before ++ HttpSuccess final :: later) current s
    = mkRun (Resolved final) s
        (Sleep 3000 :: transcriptPolls id (length before) ++ [AssemblyPoll id]).
Proof.
  intros Hbefore Hfinal.
  assert (Hdone : forall replies s,
            AssemblyAI.pollUntilDone id replies final s = mkRun (Resolved final) s []).
  { intros replies s. destruct replies; simpl;
      fold (transcribing final); rewrite Hfinal; reflexivity. }
  induction before as [|b before IH]; intros current s Hcur.
  - simpl app. simpl AssemblyAI.pollUntilDone. fold (transcribing current).
    rewrite Hcur. unfold sleep. rewrite bind_emit.
    unfold AssemblyAI.pollTranscription.
    rewrite (bind_resolved _ _ s final) by reflexivity.
    rewrite fetch_success. cbn [outcome store trace]. rewrite Hdone. reflexivity.
  - simpl in Hbefore. apply andb_true_iff in Hbefore. destruct Hbefore as [Hb Hbefore].
    change (length (b :: before)) with (S (length before)).
    rewrite transcriptPolls_S.
    simpl map. simpl app. simpl AssemblyAI.pollUntilDone. fold (transcribing current).
    rewrite Hcur. unfold sleep. rewrite bind_emit.
    unfold AssemblyAI.pollTranscription.
    rewrite (bind_resolved _ _ s b) by reflexivity.
    rewrite fetch_success. cbn [outcome store trace].
    rewrite (IH Hbefore b s Hb). cbn [outcome store trace after app].
    reflexivity.
Qed.

Lemma pollUntilDone_done id replies final s :
  transcribing final = false ->
  AssemblyAI.pollUntilDone id replies final s = mkRun (Resolved final) s [].
Proof.
  intros Hfinal. destruct replies; simpl;
    fold (transcribing final); rewrite Hfinal; reflexivity.
Qed.

Lemma pollUntilDone_rejected id before failure later e :
  forallb transcribing before = true ->
  rejection failure (fun _ statusText _ => "Polling failed: " ++ statusText) = Some e ->
  forall current s,
    transcribing current = true ->
    AssemblyAI.pollUntilDone id (map HttpSuccess before ++ failure :: later) current s
    = mkRun (Rejected e) s
        (Sleep 3000 :: transcriptPolls id (length before) ++ [AssemblyPoll id]).
Proof.
  intros Hbefore Hfail.
  induction before as [|b before IH]; intros current s Hcur.
  - simpl app. simpl AssemblyAI.pollUntilDone. fold (transcribing current).
    rewrite Hcur. unfold sleep. rewrite bind_emit.
    unfold AssemblyAI.pollTranscription.
    rewrite (bind_rejected _ _ s e)
      by (rewrite (fetch_rejection _ _ _ _ _ Hfail); reflexivity).
    rewrite (fetch_rejection _ _ _ _ _ Hfail). reflexivity.
  - simpl in Hbefore. apply andb_true_iff in Hbefore. destruct Hbefore as [Hb Hbefore].
    change (length (b :: before)) with (S (length before)).
    rewrite transcriptPolls_S.
    simpl map. simpl app. simpl AssemblyAI.pollUntilDone. fold (transcribing current).
    rewrite Hcur. unfold sleep. rewrite bind_emit.
    unfold AssemblyAI.pollTranscription.
    rewrite (bind_resolved _ _ s b) by reflexivity.
    rewrite fetch_success. cbn [outcome store trace].
    rewrite (IH Hbefore b s Hb). reflexivity.
Qed.

(** A run of [getTranscript] in which every request gets its answer. *)
Lemma getTranscript_answered :
  forall audioBlob audioUrl transcriptId before final later s,
    forallb transcribing before = true ->
    transcribing final = false ->
    run (AssemblyAI.getTranscript audioBlob
           (AssemblyAI.mkReplies (HttpSuccess audioUrl) (HttpSuccess transcriptId)
              (map HttpSuccess before ++ HttpSuccess final :: later))) s
    = mkRun
        (if Transcript.status final =? "error"
         then Rejected (newError ("Transcription failed: " ++ Transcript.error final))
         else Resolved (Transcript.text final))
        s
        (AssemblyUpload audioBlob :: AssemblySubmit audioUrl
         :: transcriptPolls transcriptId (length before)
         ++ [AssemblyPoll transcriptId]).
Proof.
  intros audioBlob audioUrl transcriptId before final later s Hbefore Hfinal.
  unfold run, AssemblyAI.getTranscript, AssemblyAI.uploadAudio,
    AssemblyAI.submitTranscription. cbn [AssemblyAI.upload AssemblyAI.submit AssemblyAI.polls].
  rewrite (bind_resolved _ _ s audioUrl) by reflexivity.
  rewrite fetch_success. cbn [outcome store trace].
  rewrite (bind_resolved _ _ s transcriptId) by reflexivity.
  rewrite fetch_success. cbn [outcome store trace].
  assert (Hlast : forall t,
    (if Transcript.status final =? "error"
     then throw (newError ("Transcription failed: " ++ Transcript.error final))
     else ret (Transcript.text final)) t
    = mkRun (if Transcript.status final =? "error"
             then Rejected (newError ("Transcription failed: " ++ Transcript.error final))
             else Resolved (Transcript.text final)) t []).
  { intros t. destruct (Transcript.status final =? "error"); reflexivity. }
  destruct before as [|b before].
  - cbn [map app]. unfold AssemblyAI.pollTranscription.
    rewrite (bind_resolved _ _ s final) by reflexivity.
    rewrite fetch_success. cbn [outcome store trace].
    rewrite (bind_resolved _ _ s final)
      by (rewrite pollUntilDone_done by exact Hfinal; reflexivity).
    rewrite pollUntilDone_done by exact Hfinal. cbn [outcome store trace].
    rewrite Hlast.
    cbn [outcome store trace app]. rewrite ?app_nil_r. reflexivity.
  - simpl in Hbefore. apply andb_true_iff in Hbefore. destruct Hbefore as [Hb Hbefore].
    change (length (b :: before)) with (S (length before)).
    rewrite transcriptPolls_S.
    pose proof (pollUntilDone_settles transcriptId before final later Hbefore Hfinal b s Hb)
      as Hloop.
    change (map HttpSuccess (b :: before) ++ HttpSuccess final :: later)%list
      with (HttpSuccess b :: (map HttpSuccess before ++ HttpSuccess final :: later))%list.
    set (rest := (map HttpSuccess before ++ HttpSuccess final :: later)%list) in *.
    cbv iota. unfold AssemblyAI.pollTranscription.
    rewrite (bind_resolved _ _ s b) by reflexivity.
    rewrite fetch_success. cbn [outcome store trace].
    rewrite (bind_resolved _ _ s final) by (rewrite Hloop; reflexivity).
    rewrite Hloop. cbn [outcome store trace]. rewrite Hlast.
    cbn [outcome store trace app]. rewrite ?app_nil_r. reflexivity.
Qed.

(** X7.  [getTranscript] uploads the audio, submits the returned URL and
    polls the returned transcript id, sleeping 3000 ms after every poll
    that finds the transcript still in the making.  The first poll with
    status 'completed' makes it resolve with the text of that poll; the
    first poll with status 'error' makes it reject with 'Transcription
    failed: ' followed by the error of that poll.  Replies scripted after
    that poll are never asked for. *)
Theorem getTranscript_settles :
  forall audioBlob audioUrl transcriptId before final later s,
    forallb transcribing before = true ->
    transcribing final = false ->
    let r := run (AssemblyAI.getTranscript audioBlob
                    (AssemblyAI.mkReplies (HttpSuccess audioUrl)
                       (HttpSuccess transcriptId)
                       (map HttpSuccess before ++ HttpSuccess final :: later))) s in
    (Transcript.status final = "completed" ->
       outcome r = Resolved (Transcript.text final))
    /\ (Transcript.status final = "error" ->
          outcome r
          = Rejected (newError ("Transcription failed: " ++ Transcript.error final)))
    /\ store r = s
    /\ trace r
       = (AssemblyUpload audioBlob :: AssemblySubmit audioUrl
          :: transcriptPolls transcriptId (length before)
          ++ [AssemblyPoll transcriptId])%list
    /\ length (filter is_remote (trace r)) = 3 + length before.
Proof.
  intros audioBlob audioUrl transcriptId before final later s Hbefore Hfinal r.
  subst r.
  rewrite (getTranscript_answered audioBlob audioUrl transcriptId before final later s
             Hbefore Hfinal).
  cbn [outcome store trace].
  split; [intros ->; reflexivity|].
  split; [intros ->; reflexivity|].
  split; [reflexivity|]. split; [reflexivity|].
  cbn [filter is_remote length]. rewrite filter_app, length_app. simpl.
  f_equal. f_equal.
  clear. induction (length before) as [|n IH]; [reflexivity|].
  rewrite transcriptPolls_S. simpl. rewrite IH. lia.
Qed.

Lemma getTranscript_settles_witness :
  let r := run (AssemblyAI.getTranscript (Some Sample.recording) Sample.transcribed)
             empty in
  outcome r = Resolved (Some "hello world")
  /\ store r = empty
  /\ trace r
     = [AssemblyUpload (Some Sample.recording);
        AssemblySubmit "https://cdn.assembly/upload/1";
        AssemblyPoll "tr-1"; Sleep 3000; AssemblyPoll "tr-1"].
Proof.
  destruct (getTranscript_settles (Some Sample.recording)
              "https://cdn.assembly/upload/1" "tr-1"
              [Transcript.mk "processing" None ""]
              (Transcript.mk "completed" (Some "hello world") "") [] empty
              eq_refl eq_refl) as [Ho [_ [Hs [Ht _]]]].
  exact (conj (Ho eq_refl) (conj Hs Ht)).
Defined.

(** X8.  [getTranscript] retries nothing.  A failed upload ends it before
    anything is submitted, a failed submission before anything is polled,
    and a poll that fails ends it with the exception of that poll, however
    many polls went well before. *)
Theorem getTranscript_fails_fast :
  forall audioBlob s e,
    (forall world,
        rejection (AssemblyAI.upload world)
          (fun _ statusText _ => "Upload failed: " ++ statusText) = Some e ->
        run (AssemblyAI.getTranscript audioBlob world) s
        = mkRun (Rejected e) s [AssemblyUpload audioBlob])
    /\ (forall audioUrl submitted polled,
          rejection submitted
            (fun _ statusText _ => "Transcription submission failed: " ++ statusText)
          = Some e ->
          run (AssemblyAI.getTranscript audioBlob
                 (AssemblyAI.mkReplies (HttpSuccess audioUrl) submitted polled)) s
          = mkRun (Rejected e) s [AssemblyUpload audioBlob; AssemblySubmit audioUrl])
    /\ (forall audioUrl transcriptId before failure later,
          forallb transcribing before = true ->
          rejection failure (fun _ statusText _ => "Polling failed: " ++ statusText)
          = Some e ->
          run (AssemblyAI.getTranscript audioBlob
                 (AssemblyAI.mkReplies (HttpSuccess audioUrl) (HttpSuccess transcriptId)
                    (map HttpSuccess before ++ failure :: later))) s
          = mkRun (Rejected e) s
              (AssemblyUpload audioBlob :: AssemblySubmit audioUrl
               :: transcriptPolls transcriptId (length before)
               ++ [AssemblyPoll transcriptId])).
Proof.
  intros audioBlob s e. unfold run. split; [|split].
  - intros world Hfail.
    unfold AssemblyAI.getTranscript, AssemblyAI.uploadAudio.
    rewrite (bind_rejected _ _ s e)
      by (rewrite (fetch_rejection _ _ _ _ _ Hfail); reflexivity).
    now rewrite (fetch_rejection _ _ _ _ _ Hfail).
  - intros audioUrl submitted polled Hfail.
    unfold AssemblyAI.getTranscript, AssemblyAI.uploadAudio,
      AssemblyAI.submitTranscription.
    cbn [AssemblyAI.upload AssemblyAI.submit AssemblyAI.polls].
    rewrite (bind_resolved _ _ s audioUrl) by reflexivity.
    rewrite fetch_success. cbn [outcome store trace].
    rewrite (bind_rejected _ _ s e)
      by (rewrite (fetch_rejection _ _ _ _ _ Hfail); reflexivity).
    now rewrite (fetch_rejection _ _ _ _ _ Hfail).
  - intros audioUrl transcriptId before failure later Hbefore Hfail.
    unfold AssemblyAI.getTranscript, AssemblyAI.uploadAudio,
      AssemblyAI.submitTranscription.
    cbn [AssemblyAI.upload AssemblyAI.submit AssemblyAI.polls].
    rewrite (bind_resolved _ _ s audioUrl) by reflexivity.
    rewrite fetch_success. cbn [outcome store trace].
    rewrite (bind_resolved _ _ s transcriptId) by reflexivity.
    rewrite fetch_success. cbn [outcome store trace].
    destruct before as [|b before].
    + cbn [map app]. unfold AssemblyAI.pollTranscription.
      rewrite (bind_rejected _ _ s e)
        by (rewrite (fetch_rejection _ _ _ _ _ Hfail); reflexivity).
      now rewrite (fetch_rejection _ _ _ _ _ Hfail).
    + simpl in Hbefore. apply andb_true_iff in Hbefore.
      destruct Hbefore as [Hb Hbefore].
      change (length (b :: before)) with (S (length before)).
      rewrite transcriptPolls_S.
      pose proof (pollUntilDone_rejected transcriptId before failure later e
                    Hbefore Hfail b s Hb) as Hloop.
      change (map HttpSuccess (b :: before) ++ failure :: later)%list
        with (HttpSuccess b :: (map HttpSuccess before ++ failure :: later))%list.
      set (rest := (map HttpSuccess before ++ failure :: later)%list) in *.
      cbv iota. unfold AssemblyAI.pollTranscription.
      rewrite (bind_resolved _ _ s b) by reflexivity.
      rewrite fetch_success. cbn [outcome store trace].
      rewrite (bind_rejected _ _ s e) by (rewrite Hloop; reflexivity).
      rewrite Hloop. cbn [outcome store trace app]. reflexivity.
Qed.

Lemma getTranscript_fails_fast_witness :
  run (AssemblyAI.getTranscript (Some Sample.recording)
         (AssemblyAI.mkReplies (HttpSuccess "https://cdn.assembly/upload/1")
            (HttpSuccess "tr-1")
            [HttpSuccess (Transcript.mk "queued" None "");
             HttpFailure 503 "Service Unavailable" None;
             HttpSuccess (Transcript.mk "completed" (Some "hello world") "")])) empty
  = mkRun (Rejected (newError "Polling failed: Service Unavailable")) empty
      [AssemblyUpload (Some Sample.recording);
       AssemblySubmit "https://cdn.assembly/upload/1";
       AssemblyPoll "tr-1"; Sleep 3000; AssemblyPoll "tr-1"].
Proof.
  exact (proj2 (proj2 (getTranscript_fails_fast (Some Sample.recording) empty
                         (newError "Polling failed: Service Unavailable")))
           "https://cdn.assembly/upload/1" "tr-1"
           [Transcript.mk "queued" None ""]
           (HttpFailure 503 "Service Unavailable" None)
           [HttpSuccess (Transcript.mk "completed" (Some "hello world") "")]
           eq_refl eq_refl).
Defined.

(* ================================================================== *)
(** * The two voice branches of [generateVideo]                        *)
(* ================================================================== *)

Lemma emits_ret {A} p (a : A) : emits p (ret a).
Proof. intros s. reflexivity. Qed.

Lemma emits_throw {A} p e : emits p (@throw A e).
Proof. intros s. reflexivity. Qed.

Lemma emits_pending {A} p : emits p (@pending A).
Proof. intros s. reflexivity. Qed.

Lemma emits_emit p e : p e = true -> emits p (emit e).
Proof. intros H s. simpl. now rewrite H. Qed.

Lemma emits_bind {A B} p (m : Async A) (k : A -> Async B) :
  emits p m -> (forall a, emits p (k a)) -> emits p (bind m k).
Proof.
  intros Hm Hk s. unfold bind. specialize (Hm s).
  destruct (m s) as [o s' t]. cbn [outcome store trace] in *.
  destruct o as [a| |]; cbn [after outcome store trace]; try exact Hm.
  rewrite forallb_app, Hm. apply Hk.
Qed.

Lemma emits_tryCatch {A} p (m : Async A) handler :
  emits p m -> (forall e, emits p (handler e)) -> emits p (tryCatch m handler).
Proof.
  intros Hm Hh s. unfold tryCatch. specialize (Hm s).
  destruct (m s) as [o s' t]. cbn [outcome store trace] in *.
  destruct o as [a|e|]; cbn [after outcome store trace]; try exact Hm.
  rewrite forallb_app, Hm. apply Hh.
Qed.

Lemma emits_fetch {A} p request (reply : FetchReply A) notOk :
  p request = true -> emits p (fetch request reply notOk).
Proof.
  intros H. unfold fetch. apply emits_bind; [now apply emits_emit|].
  intros _. destruct reply; [apply emits_throw | apply emits_throw | apply emits_ret].
Qed.

Lemma emits_pollUntilDone p transcriptId replies :
  (forall id, p (AssemblyPoll id) = true) -> (forall ms, p (Sleep ms) = true) ->
  forall transcript, emits p (AssemblyAI.pollUntilDone transcriptId replies transcript).
Proof.
  intros Hpoll Hsleep.
  induction replies as [|reply later IH]; intros transcript; simpl;
    destruct (negb (Transcript.status transcript =? "completed")
              && negb (Transcript.status transcript =? "error"));
    try apply emits_ret;
    (apply emits_bind; [apply emits_emit, Hsleep|]); intros _.
  - apply emits_pending.
  - apply emits_bind; [apply emits_fetch, Hpoll|]. exact IH.
Qed.

Lemma emits_getTranscript p audioBlob world :
  (forall e, is_assembly e = true -> p e = true) ->
  (forall ms, p (Sleep ms) = true) ->
  emits p (AssemblyAI.getTranscript audioBlob world).
Proof.
  intros Hp Hsleep.
  unfold AssemblyAI.getTranscript, AssemblyAI.uploadAudio,
    AssemblyAI.submitTranscription, AssemblyAI.pollTranscription.
  apply emits_bind; [apply emits_fetch, Hp; reflexivity|]. intros audioUrl.
  apply emits_bind; [apply emits_fetch, Hp; reflexivity|]. intros transcriptId.
  destruct (AssemblyAI.polls world) as [|reply later]; [apply emits_pending|].
  apply emits_bind; [apply emits_fetch, Hp; reflexivity|]. intros first.
  apply emits_bind.
  - apply emits_pollUntilDone; [intros id; apply Hp; reflexivity | exact Hsleep].
  - intros transcript.
    destruct (Transcript.status transcript =? "error");
      [apply emits_throw | apply emits_ret].
Qed.

(** The preset branch of step 1 neither converts nor uploads the audio. *)
Lemma voiceStep_preset_events env voice :
  emits (fun e => negb (is_audio_upload e)) (voiceStep env (Preset voice)).
Proof.
  unfold voiceStep, LoadingModal.showTranscribing, LoadingModal.updateStatus.
  apply emits_bind; [now apply emits_emit|]. intros _.
  apply emits_bind; [|intros transcript; apply emits_ret].
  apply emits_getTranscript; [|reflexivity].
  intros e He. destruct e; try discriminate; reflexivity.
Qed.

(** The custom branch of step 1 never calls the transcription service. *)
Lemma voiceStep_custom_events env :
  emits (fun e => negb (is_assembly e)) (voiceStep env Custom).
Proof.
  unfold voiceStep, LoadingModal.show, LoadingModal.showUploading,
    LoadingModal.updateStatus, AudioConverter.convertWebMToMP3, HeyGen.uploadAsset.
  apply emits_bind; [now apply emits_emit|]. intros _.
  apply emits_tryCatch.
  - apply emits_bind.
    + destruct (getAudioBlob env); [|apply emits_throw].
      apply emits_bind; [now apply emits_emit|]. intros _.
      destruct (decoded env); [apply emits_ret | apply emits_throw].
    + intros wavBlob. apply emits_bind; [now apply emits_emit|]. intros _.
      apply emits_bind; [now apply emits_fetch|]. intros asset. apply emits_ret.
  - intros e. destruct (_ || _); apply emits_throw.
Qed.

Lemma voiceStep_preset_outcome env voice s transcript voiceConfig :
  outcome (voiceStep env (Preset voice) s) = Resolved (transcript, voiceConfig) ->
  voiceConfig = TextVoice (voice_id voice)
  /\ outcome (AssemblyAI.getTranscript (getAudioBlob env) (transcription env) s)
     = Resolved transcript.
Proof.
  unfold voiceStep, LoadingModal.showTranscribing, LoadingModal.updateStatus.
  rewrite bind_emit. unfold bind.
  destruct (AssemblyAI.getTranscript (getAudioBlob env) (transcription env) s)
    as [o s' t].
  destruct o as [a|e|]; cbn [after outcome store trace ret]; intros H;
    inversion H. now split.
Qed.

Lemma voiceStep_custom_run env s :
  (exists blob wavBlob asset,
      getAudioBlob env = Some blob /\ decoded env = Ok wavBlob
      /\ upload env = HttpSuccess asset
      /\ voiceStep env Custom s
         = mkRun (Resolved (None, AudioVoice (asset_id asset))) s
             [ModalShow "Converting audio..."; DecodeAudio (Some blob);
              ModalStatus "Uploading assets...";
              HeyGenUpload (HeyGen.contentType wavBlob "audio") wavBlob])
  \/ (exists e t,
         voiceStep env Custom s = mkRun (Rejected e) s t
         /\ (forall contentType body, In (HeyGenUpload contentType body) t ->
               decoded env = Ok body
               /\ contentType = HeyGen.contentType body "audio")).
Proof.
  assert (Hif : forall (b : bool) (e1 e2 : Error) t,
             @after (option string * VoiceConfig) t
               ((if b then throw e1 else throw e2) s)
             = mkRun (Rejected (if b then e1 else e2)) s (t ++ [])%list).
  { intros b e1 e2 t. destruct b; reflexivity. }
  unfold voiceStep, AudioConverter.convertWebMToMP3, HeyGen.uploadAsset, fetch.
  destruct (getAudioBlob env) as [blob|] eqn:Hblob.
  - destruct (decoded env) as [wavBlob|e0] eqn:Hwav.
    + destruct (upload env) as [m | code statusText body | asset] eqn:Hup.
      * right.
        unfold LoadingModal.show, LoadingModal.showUploading,
          LoadingModal.updateStatus.
        rewrite bind_emit. unfold tryCatch at 1.
        cbn [bind outcome store trace after emit ret throw app].
        rewrite Hif. cbn [after outcome store trace app].
        eexists; eexists. split; [reflexivity|].
        intros ct body Hin. simpl in Hin.
        destruct Hin as [H|[H|[H|[H|[]]]]]; try discriminate.
        inversion H. now split.
      * right.
        unfold LoadingModal.show, LoadingModal.showUploading,
          LoadingModal.updateStatus.
        rewrite bind_emit. unfold tryCatch at 1.
        cbn [bind outcome store trace after emit ret throw app].
        rewrite Hif. cbn [after outcome store trace app].
        eexists; eexists. split; [reflexivity|].
        intros ct body' Hin. simpl in Hin.
        destruct Hin as [H|[H|[H|[H|[]]]]]; try discriminate.
        inversion H. now split.
      * left. exists blob, wavBlob, asset. repeat (split; [reflexivity|]).
        reflexivity.
    + right.
      unfold LoadingModal.show, LoadingModal.showUploading,
        LoadingModal.updateStatus.
      rewrite bind_emit. unfold tryCatch at 1.
      cbn [bind outcome store trace after emit ret throw app].
      rewrite Hif. cbn [after outcome store trace app].
      eexists; eexists. split; [reflexivity|].
      intros ct body Hin. simpl in Hin.
      destruct Hin as [H|[H|[]]]; discriminate.
  - right.
    unfold LoadingModal.show, LoadingModal.showUploading,
      LoadingModal.updateStatus.
    rewrite bind_emit. unfold tryCatch at 1.
    cbn [bind outcome store trace after emit ret throw app].
    rewrite Hif. cbn [after outcome store trace app].
    eexists; eexists. split; [reflexivity|].
    intros ct body Hin. simpl in Hin.
    destruct Hin as [H|[]]; discriminate.
Qed.

Lemma loop_event_after_step1 t :
  forallb is_loop_event t = true -> forallb after_step1 t = true.
Proof.
  intros H. apply forallb_forall. intros e He.
  pose proof (forallb_in _ _ _ H He) as Hl. destruct e; try discriminate; reflexivity.
Qed.

Lemma loop_event_not_create t body :
  forallb is_loop_event t = true -> ~ In (HeyGenCreate body) t.
Proof. intros H Hin. pose proof (forallb_in _ _ _ H Hin). discriminate. Qed.

(** A run of [generateVideo] on valid inputs: step 1, then the rest.  The
    rest holds no event of step 1; it is the error line when step 1 is
    rejected; and a render request in it carries what step 1 yielded. *)
Lemma generateVideo_step1 env s voiceSelection :
  validate env = Valid ->
  getSelectedVoice env = Some voiceSelection ->
  exists rest,
    trace (generateVideo env s)
    = (ModalShow "Starting..." :: trace (voiceStep env voiceSelection s) ++ rest)%list
    /\ forallb after_step1 rest = true
    /\ (forall e, outcome (voiceStep env voiceSelection s) = Rejected e ->
          rest = errorLine e
          /\ outcome (generateVideo env s) = Resolved tt
          /\ store (generateVideo env s) = s)
    /\ (forall body, In (HeyGenCreate body) rest ->
          exists transcript voiceConfig,
            outcome (voiceStep env voiceSelection s)
            = Resolved (transcript, voiceConfig)
            /\ body
               = HeyGen.requestBody
                   (mkVideoConfig
                      (fst (characterStep (getSelectedAvatar env)
                                          (getSelectedCharacter env)))
                      voiceConfig transcript)).
Proof.
  intros Hv Hsel. unfold generateVideo. rewrite Hv, Hsel.
  destruct (quiet_voiceStep env voiceSelection s) as [Hs1 _].
  unfold tryCatch, bind, LoadingModal.show, LoadingModal.showGenerating,
    LoadingModal.updateStatus, HeyGen.createVideo, fetch, historyAdd,
    displayVideo, LoadingModal.showComplete, LoadingModal.showError.
  unfold LoadingModal.updateStatus, bind.
  run_steps.
  destruct (voiceStep env voiceSelection s) as [o1 s1 t1].
  cbn [outcome store trace] in *. subst s1.
  destruct o1 as [[transcript voiceConfig]|e|]; run_steps.
  - destruct (characterStep (getSelectedAvatar env) (getSelectedCharacter env))
      as [characterConfig avatarName] eqn:Hc.
    cbn [fst]. run_steps.
    set (body0 := HeyGen.requestBody (mkVideoConfig characterConfig voiceConfig transcript)).
    assert (Hbody : forall rest' body,
               ~ In (HeyGenCreate body) rest' ->
               In (HeyGenCreate body)
                  (ModalStatus "Generating your video..." :: HeyGenCreate body0 :: rest') ->
               exists transcript0 voiceConfig0,
                 Resolved (transcript, voiceConfig)
                 = Resolved (transcript0, voiceConfig0)
                 /\ body = HeyGen.requestBody
                             (mkVideoConfig characterConfig voiceConfig0 transcript0)).
    { intros rest' body Hnot [H|[H|H]]; [discriminate| |contradiction].
      inversion H. exists transcript, voiceConfig. now split. }
    destruct (create env) as [m | code statusText body | videoId]; run_steps.
    + eexists. split; [rewrite <- ?app_assoc; cbn [app]; reflexivity|].
      split; [reflexivity|]. split; [discriminate|].
      intros body. apply Hbody. intros [H|[H|[]]]; discriminate.
    + eexists. split; [rewrite <- ?app_assoc; cbn [app]; reflexivity|].
      split; [reflexivity|]. split; [discriminate|].
      intros body'. apply Hbody. intros [H|[H|[]]]; discriminate.
    + destruct (addVideo (now env)
                  (historyEntry videoId (getSelectedAvatar env)
                     (getSelectedCharacter env) avatarName voiceSelection transcript) s)
        as [[key|e] s1]; run_steps.
      * pose proof (waitForVideoWithHistory_events videoId (statusPolls env) 0 s1)
          as Hloop.
        destruct (waitForVideoWithHistory videoId (statusPolls env) 0 s1)
          as [oL sL tL].
        cbn [outcome store trace] in *.
        destruct oL as [url|e|]; run_steps;
          (eexists; split; [rewrite <- ?app_assoc; cbn [app]; reflexivity|]);
          (split; [cbn [forallb after_step1 andb]; rewrite ?forallb_app;
                   rewrite (loop_event_after_step1 _ Hloop); reflexivity|]);
          (split; [discriminate|]);
          intros body; apply (Hbody (HistoryAdd _ _ :: _) body);
          (intros [H|H]; [discriminate|]);
          rewrite ?in_app_iff in H;
          repeat match goal with
                 | H : _ \/ _ |- _ => destruct H as [H|H]
                 end;
          try discriminate; try contradiction;
          try (now apply (loop_event_not_create _ body Hloop));
          simpl in H;
          repeat match goal with
                 | H : _ \/ _ |- _ => destruct H as [H|H]
                 end;
          try discriminate; try contradiction.
      * eexists. split; [rewrite <- ?app_assoc; cbn [app]; reflexivity|].
        split; [reflexivity|]. split; [discriminate|].
        intros body. apply (Hbody (HistoryAdd _ _ :: _) body).
        intros [H|[H|[H|[]]]]; discriminate.
  - exists (errorLine e). split; [rewrite <- ?app_assoc; cbn [app]; reflexivity|].
    split; [reflexivity|]. split.
    + intros e' He'. inversion He'. subst e'. now split.
    + intros body [H|[H|[]]]; discriminate.
  - exists []. split; [now rewrite app_nil_r|].
    split; [reflexivity|]. split; [discriminate|]. intros body [].
Qed.

Lemma after_step1_not_assembly t :
  forallb after_step1 t = true -> forallb (fun e => negb (is_assembly e)) t = true.
Proof.
  intros H. apply forallb_forall. intros e He.
  pose proof (forallb_in _ _ _ H He). destruct e; try discriminate; reflexivity.
Qed.

Lemma after_step1_not_audio_upload t :
  forallb after_step1 t = true ->
  forallb (fun e => negb (is_audio_upload e)) t = true.
Proof.
  intros H. apply forallb_forall. intros e He.
  pose proof (forallb_in _ _ _ H He). destruct e; try discriminate; reflexivity.
Qed.

(** Where a render request or an upload sits in a run on valid inputs. *)
Lemma in_generateVideo_trace (e : Event) t1 rest :
  In e (ModalShow "Starting..." :: t1 ++ rest)%list ->
  (forall m, e <> ModalShow m) ->
  In e t1 \/ In e rest.
Proof.
  intros [H|H] Hne; [now destruct (Hne _ (eq_sym H))|]. now apply in_app_or.
Qed.

Lemma contentType_audio blob :
  HeyGen.contentType blob "audio" = "audio/x-wav"
  \/ HeyGen.contentType blob "audio" = "audio/mpeg".
Proof.
  unfold HeyGen.contentType. simpl.
  destruct (_ || _); [now left|]. destruct (_ || _); [now right | now left].
Qed.

(** X9.  The two voice branches of [generateVideo] exclude each other.
    With the custom voice switched on, no request goes to the
    transcription service, and a render request carries the id of the
    uploaded audio asset as its voice.  With it switched off, the recorded
    audio is neither converted nor uploaded, and a render request carries
    the id of the selected preset voice together with the text the
    transcription resolved with (the empty text when that is missing). *)
Theorem voice_branches_exclusive :
  forall env s,
    let t := trace (run (generateVideo env) s) in
    if useCustomVoice env
    then forallb (fun e => negb (is_assembly e)) t = true
         /\ forall body, In (HeyGenCreate body) t ->
              exists asset,
                upload env = HttpSuccess asset
                /\ voices body = [AudioInput (asset_id asset)]
    else forallb (fun e => negb (is_audio_upload e)) t = true
         /\ forall body, In (HeyGenCreate body) t ->
              exists voice transcript,
                selectedVoice env = Some voice
                /\ outcome (run (AssemblyAI.getTranscript (getAudioBlob env)
                                   (transcription env)) s)
                   = Resolved transcript
                /\ voices body
                   = [TextInput (voice_id voice) (or_else transcript "")].
Proof.
  intros env s t. subst t. unfold run.
  destruct (validate env) as [|m] eqn:Hv.
  2: { rewrite (generateVideo_invalid env s m Hv). cbn [trace].
       destruct (useCustomVoice env); (split; [reflexivity|]);
         intros body [H|[]]; discriminate. }
  destruct (validate_valid env Hv) as [_ [_ [voiceSelection Hsel]]].
  destruct (generateVideo_step1 env s voiceSelection Hv Hsel)
    as [rest [Ht [Hrest [_ Hbody]]]].
  rewrite Ht.
  destruct (quiet_voiceStep env voiceSelection s) as [_ Hquiet].
  assert (Hin : forall body,
             In (HeyGenCreate body)
               (ModalShow "Starting..." :: trace (voiceStep env voiceSelection s)
                ++ rest)%list ->
             In (HeyGenCreate body) rest).
  { intros body H. apply in_generateVideo_trace in H; [|discriminate].
    destruct H as [H|H]; [|exact H].
    pose proof (forallb_in _ _ _ Hquiet H). discriminate. }
  unfold getSelectedVoice in Hsel.
  destruct (useCustomVoice env).
  - injection Hsel as <-. split.
    + cbn [forallb is_assembly negb andb]. rewrite forallb_app.
      rewrite (voiceStep_custom_events env s).
      now rewrite (after_step1_not_assembly _ Hrest).
    + intros body H. apply Hin in H.
      destruct (Hbody body H) as [transcript [voiceConfig [Ho ->]]].
      destruct (voiceStep_custom_run env s)
        as [[blob [wavBlob [asset [_ [_ [Hup Hrun]]]]]] | [e [t [Hrun _]]]];
        rewrite Hrun in Ho; [|discriminate].
      injection Ho as <- <-. exists asset. now split.
  - destruct (selectedVoice env) as [voice|]; [|discriminate].
    injection Hsel as <-. split.
    + cbn [forallb is_audio_upload negb andb]. rewrite forallb_app.
      rewrite (voiceStep_preset_events env voice s).
      now rewrite (after_step1_not_audio_upload _ Hrest).
    + intros body H. apply Hin in H.
      destruct (Hbody body H) as [transcript [voiceConfig [Ho ->]]].
      destruct (voiceStep_preset_outcome env voice s _ _ Ho) as [-> Htr].
      exists voice, transcript. now repeat split.
Qed.

(** The uploads of a run of [generateVideo]. *)
Lemma generateVideo_upload env s contentType body :
  In (HeyGenUpload contentType body) (trace (generateVideo env s)) ->
  useCustomVoice env = true
  /\ decoded env = Ok body
  /\ contentType = HeyGen.contentType body "audio"
  /\ (contentType = "audio/x-wav" \/ contentType = "audio/mpeg").
Proof.
  revert env s contentType body.
  intros env s contentType body.
  destruct (validate env) as [|m] eqn:Hv.
  2: { rewrite (generateVideo_invalid env s m Hv). intros [H|[]]. discriminate. }
  destruct (validate_valid env Hv) as [_ [_ [voiceSelection Hsel]]].
  destruct (generateVideo_step1 env s voiceSelection Hv Hsel)
    as [rest [Ht [Hrest _]]].
  rewrite Ht. intros H. apply in_generateVideo_trace in H; [|discriminate].
  destruct H as [H|H].
  2: { pose proof (forallb_in _ _ _ Hrest H). discriminate. }
  unfold getSelectedVoice in Hsel.
  destruct (useCustomVoice env).
  - injection Hsel as <-. split; [reflexivity|].
    assert (Hup : decoded env = Ok body
                  /\ contentType = HeyGen.contentType body "audio").
    { destruct (voiceStep_custom_run env s)
        as [[blob [wavBlob [asset [_ [Hwav [_ Hrun]]]]]] | [e [t [Hrun Hall]]]];
        rewrite Hrun in H; cbn [trace] in H.
      - destruct H as [H|[H|[H|[H|[]]]]]; try discriminate.
        inversion H. subst. now split.
      - now apply Hall. }
    destruct Hup as [Hwav ->]. split; [exact Hwav|]. split; [reflexivity|].
    apply contentType_audio.
  - destruct (selectedVoice env) as [voice|]; [|discriminate].
    injection Hsel as <-.
    pose proof (forallb_in _ _ _ (voiceStep_preset_events env voice s) H).
    discriminate.
Qed.

(** X10.  What [generateVideo] uploads to HeyGen as audio is the output of
    the converter, never the recording itself, and it is sent with content
    type 'audio/x-wav' or 'audio/mpeg'; an upload happens only with the
    custom voice switched on. *)
Theorem uploaded_audio_is_converted :
  forall env s contentType body,
    In (HeyGenUpload contentType body) (trace (run (generateVideo env) s)) ->
    useCustomVoice env = true
    /\ decoded env = Ok body
    /\ contentType = HeyGen.contentType body "audio"
    /\ (contentType = "audio/x-wav" \/ contentType = "audio/mpeg").
Proof.
  intros env s contentType body. unfold run. apply generateVideo_upload.
Qed.

Lemma uploaded_audio_is_converted_witness :
  let env := Sample.env (Some Sample.recording) (Some Sample.anna) None true None
               Sample.asset [HttpSuccess Sample.completed] in
  In (HeyGenUpload "audio/x-wav" Sample.wav) (trace (run (generateVideo env) empty))
  /\ decoded env = Ok Sample.wav
  /\ ("audio/x-wav" = "audio/x-wav" \/ "audio/x-wav" = "audio/mpeg").
Proof.
  intros env.
  assert (Hin : In (HeyGenUpload "audio/x-wav" Sample.wav)
                   (trace (run (generateVideo env) empty)))
    by (vm_compute; repeat ((left; reflexivity) || right)).
  destruct (uploaded_audio_is_converted env empty "audio/x-wav" Sample.wav Hin)
    as [_ [Hwav [_ Hct]]].
  exact (conj Hin (conj Hwav Hct)).
Defined.

(** X11.  A transcription that ends with status 'error' ends the run of
    [generateVideo] at once: the loading modal shows 'Error: Transcription
    failed: ' and the error, no request is sent to HeyGen, nothing is
    written to the history, and the promise resolves.  There is no
    fallback to another text or to the recorded audio. *)
Theorem transcription_failure_shown :
  forall env s audioUrl transcriptId before final later,
    validate env = Valid ->
    useCustomVoice env = false ->
    transcription env
    = AssemblyAI.mkReplies (HttpSuccess audioUrl) (HttpSuccess transcriptId)
        (map HttpSuccess before ++ HttpSuccess final :: later) ->
    forallb transcribing before = true ->
    Transcript.status final = "error" ->
    run (generateVideo env) s
    = mkRun (Resolved tt) s
        (ModalShow "Starting..." :: ModalStatus "Transcribing your voice..."
         :: AssemblyUpload (getAudioBlob env) :: AssemblySubmit audioUrl
         :: transcriptPolls transcriptId (length before)
         ++ [AssemblyPoll transcriptId;
             ModalStatus ("Error: Transcription failed: " ++ Transcript.error final);
             ModalHideAfter 3000]).
Proof.
  intros env s audioUrl transcriptId before final later Hv Hpreset Hworld
    Hbefore Hfinal.
  destruct (validate_valid env Hv) as [_ [_ [voiceSelection Hsel]]].
  pose proof Hsel as Hsel'. unfold getSelectedVoice in Hsel'.
  rewrite Hpreset in Hsel'.
  destruct (selectedVoice env) as [voice|]; [|discriminate].
  injection Hsel' as <-.
  assert (Hdone : transcribing final = false)
    by (unfold transcribing; rewrite Hfinal; reflexivity).
  pose proof (getTranscript_answered (getAudioBlob env) audioUrl transcriptId
                before final later s Hbefore Hdone) as Hrun.
  unfold run in *. rewrite <- Hworld, Hfinal in Hrun. cbn [String.eqb] in Hrun.
  assert (Hstep :
    voiceStep env (Preset voice) s
    = mkRun (Rejected (newError ("Transcription failed: " ++ Transcript.error final)))
        s
        (ModalStatus "Transcribing your voice..."
         :: AssemblyUpload (getAudioBlob env) :: AssemblySubmit audioUrl
         :: transcriptPolls transcriptId (length before)
         ++ [AssemblyPoll transcriptId])).
  { unfold voiceStep, LoadingModal.showTranscribing, LoadingModal.updateStatus.
    rewrite bind_emit.
    rewrite (bind_rejected_run _ _ s
               (newError ("Transcription failed: " ++ Transcript.error final)))
      by (rewrite Hrun; reflexivity).
    rewrite Hrun. reflexivity. }
  destruct (generateVideo_step1 env s (Preset voice) Hv Hsel)
    as [rest [Ht [_ [Hrej _]]]].
  rewrite Hstep in Ht, Hrej. cbn [outcome trace] in Ht, Hrej.
  destruct (Hrej _ eq_refl) as [-> [Ho Hs]].
  rewrite (run_eta (generateVideo env s)), Ho, Hs, Ht.
  f_equal. cbn [app]. do 4 f_equal. rewrite <- app_assoc. reflexivity.
Qed.

Lemma transcription_failure_shown_witness :
  let env :=
    mkEnv (Some Sample.recording) (Some Sample.anna) None false
      (Some Sample.narrator) "2025-01-01T00:00:00.000Z"
      (AssemblyAI.mkReplies (HttpSuccess "https://cdn.assembly/upload/1")
         (HttpSuccess "tr-1")
         [HttpSuccess (Transcript.mk "queued" None "");
          HttpSuccess (Transcript.mk "error" None "Audio too short")])
      (Ok Sample.wav) Sample.asset (HttpSuccess "job-1")
      [HttpSuccess Sample.completed] in
  run (generateVideo env) empty
  = mkRun (Resolved tt) empty
      [ModalShow "Starting..."; ModalStatus "Transcribing your voice...";
       AssemblyUpload (Some Sample.recording);
       AssemblySubmit "https://cdn.assembly/upload/1";
       AssemblyPoll "tr-1"; Sleep 3000; AssemblyPoll "tr-1";
       ModalStatus "Error: Transcription failed: Audio too short";
       ModalHideAfter 3000].
Proof.
  intros env.
  exact (transcription_failure_shown env empty "https://cdn.assembly/upload/1" "tr-1"
           [Transcript.mk "queued" None ""]
           (Transcript.mk "error" None "Audio too short") []
           eq_refl eq_refl eq_refl eq_refl eq_refl).
Defined.

(* ================================================================== *)
(** * How a run of [generateVideo] ends                                *)
(* ================================================================== *)

Lemma quiet_not_create pre body :
  forallb is_quiet pre = true -> ~ In (HeyGenCreate body) pre.
Proof. intros Hq Hin. pose proof (forallb_in _ _ _ Hq Hin). discriminate. Qed.

(** X12.  When the replies to the status polls are non-terminal up to a
    reply with status 'completed', a run of [generateVideo] that gets as
    far as polling ends like this: the poll that sees 'completed', then
    [updateVideo] writing the status and the URL, thumbnail and duration of
    that reply, then the video is displayed and the loading modal shows
    'Complete!'.  The history holds the finished record, with the
    creation time of the run, when the video is displayed. *)
Theorem render_success_recorded_then_shown :
  forall env s before done later,
    statusPolls env = (before ++ HttpSuccess done :: later)%list ->
    forallb transient before = true ->
    VideoStatus.status done = "completed" ->
    polls (trace (run (generateVideo env) s)) <> 0 ->
    let r := run (generateVideo env) s in
    exists pre videoId v,
      create env = HttpSuccess videoId
      /\ outcome r = Resolved tt
      /\ trace r
         = (pre ++ [HeyGenStatus videoId;
                    HistoryUpdate videoId (completedUpdates done);
                    DisplayVideo (VideoStatus.video_url done) videoId;
                    ModalStatus "Complete! 🎉";
                    ModalHideAfter 1500])%list
      /\ polls pre = length before
      /\ store r
         = replay s (pre ++ [HeyGenStatus videoId;
                             HistoryUpdate videoId (completedUpdates done)])
      /\ getVideo videoId (store r) = Some v
      /\ Video.status v = "completed"
      /\ Video.videoUrl v = VideoStatus.video_url done
      /\ Video.thumbnailUrl v = VideoStatus.thumbnail_url done
      /\ Video.duration v = VideoStatus.duration done
      /\ Video.createdAt v = now env.
Proof.
  intros env s before done later Hpolls Hbefore Hdone Hreached r.
  subst r. unfold run in *.
  destruct (generateVideo_runs env s) as
    [ m Hi
    | pre0 e Hv Hq
    | pre0 Hv Hq
    | pre0 voiceConfig transcript e Hv Hq Hc
    | pre0 voiceConfig transcript videoId videoData e Hv Hq Hc Hid Hst Hadd
    | pre0 voiceConfig transcript videoId videoData key s1 polled Hv Hq Hc Hid Hst Hadd Hp ];
    cbn [trace outcome store] in *.
  - exfalso. apply Hreached. reflexivity.
  - exfalso. apply Hreached. apply polls_none. simpl.
    rewrite forallb_app, (quiet_not_poll _ Hq). reflexivity.
  - exfalso. apply Hreached. apply polls_none. simpl.
    now rewrite (quiet_not_poll _ Hq).
  - exfalso. apply Hreached. apply polls_none. simpl.
    rewrite !forallb_app, (quiet_not_poll _ Hq). reflexivity.
  - exfalso. apply Hreached. apply polls_none. simpl.
    rewrite !forallb_app, (quiet_not_poll _ Hq). reflexivity.
  - pose proof (addVideo_accepted _ _ _ _ _ Hadd) as Hown. rewrite Hid in Hown.
    rewrite Hpolls in Hp.
    destruct (waitForVideoWithHistory_completed videoId before done later 0 s1 _
                Hown Hbefore Hdone) as [s' [Hrun [Hupd Hget]]].
    pose proof (waitForVideoWithHistory_replay videoId
                  (before ++ HttpSuccess done :: later) 0 s1) as Hreplay.
    rewrite Hrun in Hp, Hreplay. subst polled. cbn [outcome store trace closing] in *.
    exists ((ModalShow "Starting..." :: pre0
             ++ [ModalStatus "Generating your video...";
                 HeyGenCreate
                   (HeyGen.requestBody
                      (mkVideoConfig
                         (fst (characterStep (getSelectedAvatar env)
                                             (getSelectedCharacter env)))
                         voiceConfig transcript));
                 HistoryAdd (now env) videoData])
            ++ waiting videoId before 0)%list,
           videoId, (assign (newVideo (now env) videoData key) (completedUpdates done)).
    split; [exact Hc|]. split; [reflexivity|].
    split; [|split; [|split; [|split; [exact Hget|]]]].
    + simpl. rewrite <- !app_assoc. reflexivity.
    + rewrite polls_app.
      destruct (waiting_counts videoId before 0) as [-> _].
      rewrite polls_none; [reflexivity|]. simpl.
      rewrite forallb_app, (quiet_not_poll _ Hq). reflexivity.
    + rewrite <- app_assoc, replay_app.
      rewrite replay_preparation by exact Hq.
      rewrite Hadd. simpl snd. exact Hreplay.
    + repeat split; reflexivity.
Qed.

Lemma render_success_recorded_then_shown_witness :
  let env := Sample.env (Some Sample.recording) (Some Sample.anna) None
               false (Some Sample.narrator) Sample.asset
               [statusOnly "processing"; HttpFailure 502 "Bad Gateway" None;
                HttpSuccess Sample.completed] in
  let r := run (generateVideo env) empty in
  exists pre videoId v,
    outcome r = Resolved tt
    /\ trace r
       = (pre ++ [HeyGenStatus videoId;
                  HistoryUpdate videoId (completedUpdates Sample.completed);
                  DisplayVideo (Some "https://cdn.heygen/v.mp4") videoId;
                  ModalStatus "Complete! 🎉";
                  ModalHideAfter 1500])%list
    /\ polls pre = 2
    /\ getVideo videoId (store r) = Some v
    /\ Video.status v = "completed"
    /\ Video.videoUrl v = Some "https://cdn.heygen/v.mp4".
Proof.
  intros env r.
  assert (Hreached : polls (trace (run (generateVideo env) empty)) <> 0)
    by (vm_compute; discriminate).
  destruct (render_success_recorded_then_shown env empty
              [statusOnly "processing"; HttpFailure 502 "Bad Gateway" None]
              Sample.completed [] eq_refl eq_refl eq_refl Hreached)
    as [pre [videoId [v [_ [Ho [Ht [Hn [_ [Hg [Hs [Hu _]]]]]]]]]]].
  exists pre, videoId, v.
  exact (conj Ho (conj Ht (conj Hn (conj Hg (conj Hs Hu))))).
Defined.

(** X13.  When the render request is answered with a job id the history
    already holds, [addVideo] is rejected by the unique index and the run
    of [generateVideo] ends there: the loading modal shows the
    ConstraintError, the job just created is never polled and never
    displayed, and the history is left as it was. *)
Theorem known_job_id_not_tracked :
  forall env s videoId v body,
    create env = HttpSuccess videoId ->
    getVideo videoId s = Some v ->
    In (HeyGenCreate body) (trace (run (generateVideo env) s)) ->
    let r := run (generateVideo env) s in
    outcome r = Resolved tt
    /\ store r = s
    /\ polls (trace r) = 0
    /\ exists pre videoData,
         VideoData.videoId videoData = videoId
         /\ trace r
            = (pre ++ [HeyGenCreate body; HistoryAdd (now env) videoData;
                       ModalStatus ("Error: " ++ message ConstraintError);
                       ModalHideAfter 3000])%list.
Proof.
  intros env s videoId v body Hcreate Hheld Hin r. subst r. unfold run in *.
  destruct (generateVideo_runs env s) as
    [ m Hi
    | pre0 e Hv Hq
    | pre0 Hv Hq
    | pre0 voiceConfig transcript e Hv Hq Hc
    | pre0 voiceConfig transcript videoId' videoData e Hv Hq Hc Hid Hst Hadd
    | pre0 voiceConfig transcript videoId' videoData key s1 polled Hv Hq Hc Hid Hst Hadd Hp ];
    cbn [trace outcome store] in *.
  - destruct Hin as [H|[]]. discriminate.
  - exfalso. destruct Hin as [H|H]; [discriminate|].
    apply in_app_or in H. destruct H as [H|[H|[H|[]]]]; try discriminate.
    exact (quiet_not_create _ _ Hq H).
  - exfalso. destruct Hin as [H|H]; [discriminate|].
    exact (quiet_not_create _ _ Hq H).
  - exfalso. exact (Hc videoId Hcreate).
  - rewrite Hcreate in Hc. injection Hc as <-.
    rewrite <- Hid in Hheld.
    rewrite (addVideo_taken (now env) videoData s v Hheld) in Hadd.
    injection Hadd as <-.
    split; [reflexivity|]. split; [reflexivity|]. split.
    + apply polls_none. simpl.
      rewrite !forallb_app, (quiet_not_poll _ Hq). reflexivity.
    + destruct Hin as [H|H]; [discriminate|].
      apply in_app_or in H. destruct H as [H|H];
        [destruct (quiet_not_create _ _ Hq H)|].
      apply in_app_or in H. destruct H as [[H|[H|[H|[]]]]|[H|[H|[]]]];
        try discriminate.
      injection H as <-.
      exists (ModalShow "Starting..." :: pre0
              ++ [ModalStatus "Generating your video..."])%list, videoData.
      split; [exact Hid|].
      simpl. f_equal. rewrite <- app_assoc. reflexivity.
  - exfalso. rewrite Hcreate in Hc. injection Hc as <-.
    rewrite <- Hid in Hheld.
    rewrite (addVideo_taken (now env) videoData s v Hheld) in Hadd.
    discriminate.
Qed.

Lemma known_job_id_not_tracked_witness :
  let env := Sample.env (Some Sample.recording) (Some Sample.anna) None
               false (Some Sample.narrator) Sample.asset
               [HttpSuccess Sample.completed] in
  let r := run (generateVideo env) sampleHistory in
  outcome r = Resolved tt /\ store r = sampleHistory /\ polls (trace r) = 0.
Proof.
  intros env r.
  assert (Hin : In (HeyGenCreate
                      (HeyGen.requestBody
                         (mkVideoConfig
                            (Some (AvatarCharacter "Anna_public_3" "normal"))
                            (TextVoice "voice-12") (Some "hello world"))))
                   (trace (run (generateVideo env) sampleHistory)))
    by (vm_compute; repeat ((left; reflexivity) || right)).
  destruct (known_job_id_not_tracked env sampleHistory "job-1"
              (newVideo "2025-01-01T00:00:00.000Z" sampleFirst 1) _
              eq_refl eq_refl Hin) as [Ho [Hs [Hp _]]].
  exact (conj Ho (conj Hs Hp)).
Defined.

(* ================================================================== *)
(** * The character store                                              *)
(* ================================================================== *)

Lemma withDefault_id flag c :
  StoredCharacter.id (CharacterStorage.withDefault flag c) = StoredCharacter.id c.
Proof. reflexivity. Qed.

Lemma withDefault_same c :
  CharacterStorage.withDefault (StoredCharacter.isDefault c) c = c.
Proof. now destruct c. Qed.

Lemma put_existing char s :
  In (StoredCharacter.id char) (map StoredCharacter.id (CharacterStorage.characters s)) ->
  CharacterStorage.put char s
  = CharacterStorage.mkStore (CharacterStorage.nextKey s)
      (map (fun c => if (StoredCharacter.id c =? StoredCharacter.id char)%nat
                     then char else c)
           (CharacterStorage.characters s)).
Proof.
  intros Hin. unfold CharacterStorage.put.
  replace (existsb _ _) with true; [reflexivity|].
  symmetry. apply existsb_exists. apply in_map_iff in Hin.
  destruct Hin as [c [Hid Hc]]. exists c. split; [exact Hc|].
  now apply Nat.eqb_eq.
Qed.

(** Putting back a batch of records with distinct keys that the store
    holds: each record of the store is replaced by the record of the batch
    with its key, if there is one. *)
Lemma fold_put (f : StoredCharacter.t -> StoredCharacter.t) :
  (forall c, StoredCharacter.id (f c) = StoredCharacter.id c) ->
  forall batch s,
    NoDup (map StoredCharacter.id batch) ->
    (forall c, In c batch ->
       In (StoredCharacter.id c)
          (map StoredCharacter.id (CharacterStorage.characters s))) ->
    fold_left (fun s' char => CharacterStorage.put (f char) s') batch s
    = CharacterStorage.mkStore (CharacterStorage.nextKey s)
        (map (fun x =>
                match find (fun c => (StoredCharacter.id c =? StoredCharacter.id x)%nat)
                        batch with
                | Some c => f c
                | None => x
                end)
             (CharacterStorage.characters s)).
Proof.
  intros Hf. induction batch as [|c batch IH]; intros s Hnd Hheld.
  - simpl. rewrite map_id. now destruct s.
  - simpl fold_left. inversion Hnd as [|? ? Hfresh Hnd']; subst.
    rewrite put_existing by (rewrite Hf; apply Hheld; now left).
    rewrite IH; [|exact Hnd'|].
    + cbn [CharacterStorage.nextKey CharacterStorage.characters].
      f_equal. rewrite map_map. apply map_ext. intros x. rewrite Hf.
      cbn [find]. rewrite (Nat.eqb_sym (StoredCharacter.id c)).
      destruct (StoredCharacter.id x =? StoredCharacter.id c)%nat eqn:Hx.
      * apply Nat.eqb_eq in Hx. rewrite Hf.
        replace (find _ batch) with (@None StoredCharacter.t); [reflexivity|].
        symmetry. apply find_all_false. intros y Hy.
        apply Nat.eqb_neq. intros Heq. apply Hfresh.
        apply in_map_iff. exists y. split; [congruence | exact Hy].
      * reflexivity.
    + intros y Hy. cbn [CharacterStorage.characters]. rewrite map_map.
      specialize (Hheld y (or_intror Hy)).
      apply in_map_iff in Hheld. destruct Hheld as [x [Hid Hx]].
      apply in_map_iff. exists x. split; [|exact Hx].
      destruct (_ =? _)%nat eqn:Hc; [|exact Hid].
      apply Nat.eqb_eq in Hc. rewrite Hf. congruence.
Qed.

Lemma find_by_key_filter (p : StoredCharacter.t -> bool) l x :
  NoDup (map StoredCharacter.id l) -> In x l ->
  find (fun c => (StoredCharacter.id c =? StoredCharacter.id x)%nat) (filter p l)
  = if p x then Some x else None.
Proof.
  induction l as [|y l IH]; intros Hnd Hin; [destruct Hin|].
  inversion Hnd as [|? ? Hfresh Hnd']; subst. simpl filter.
  destruct Hin as [->|Hin].
  - destruct (p x) eqn:Hp.
    + simpl. now rewrite Nat.eqb_refl.
    + apply find_all_false. intros z Hz. apply filter_In in Hz.
      apply Nat.eqb_neq. intros Heq. apply Hfresh.
      apply in_map_iff. exists z. split; [exact Heq | tauto].
  - assert (Hne : (StoredCharacter.id y =? StoredCharacter.id x)%nat = false).
    { apply Nat.eqb_neq. intros Heq. apply Hfresh.
      apply in_map_iff. exists x. split; [now symmetry | exact Hin]. }
    destruct (p y); [simpl; rewrite Hne|]; now apply IH.
Qed.

(** [clearAllDefaults] clears the flag of every record and does nothing
    else. *)
Lemma clearAllDefaults_all s :
  NoDup (map StoredCharacter.id (CharacterStorage.characters s)) ->
  CharacterStorage.clearAllDefaults s
  = CharacterStorage.mkStore (CharacterStorage.nextKey s)
      (map (CharacterStorage.withDefault false) (CharacterStorage.characters s)).
Proof.
  intros Hnd. unfold CharacterStorage.clearAllDefaults, CharacterStorage.getCharacters.
  rewrite fold_put.
  - f_equal. apply map_ext_in. intros x Hx.
    rewrite (find_by_key_filter _ _ _ Hnd Hx).
    destruct (StoredCharacter.isDefault x) eqn:Hd; [reflexivity|].
    rewrite <- Hd. symmetry. apply withDefault_same.
  - reflexivity.
  - now apply distinct_keys_filter.
  - intros c Hc. apply filter_In in Hc. apply in_map. tauto.
Qed.

Lemma keys_withDefault (g : StoredCharacter.t -> bool) l :
  map StoredCharacter.id (map (fun x => CharacterStorage.withDefault (g x) x) l)
  = map StoredCharacter.id l.
Proof. rewrite map_map. now apply map_ext. Qed.

Lemma no_defaults_after_clearing l :
  filter StoredCharacter.isDefault (map (CharacterStorage.withDefault false) l) = [].
Proof. induction l as [|x l IH]; [reflexivity | exact IH]. Qed.

Lemma same_but_default_flag (g : StoredCharacter.t -> bool) l :
  Forall2 same_but_default l (map (fun x => CharacterStorage.withDefault (g x) x) l).
Proof. induction l as [|x l IH]; constructor; [reflexivity | exact IH]. Qed.

Lemma get_found id s c :
  CharacterStorage.get id s = Some c ->
  In c (CharacterStorage.characters s) /\ StoredCharacter.id c = id.
Proof.
  unfold CharacterStorage.get. intros H. apply find_some in H.
  destruct H as [Hin Hid]. apply Nat.eqb_eq in Hid. now split.
Qed.

(** The store after [clearAllDefaults] and, when [id] is held, the put of
    [setDefaultCharacter]. *)
Lemma setDefaultCharacter_store id s :
  keyed s ->
  snd (CharacterStorage.setDefaultCharacter id s)
  = CharacterStorage.mkStore (CharacterStorage.nextKey s)
      (map (fun x => CharacterStorage.withDefault (StoredCharacter.id x =? id)%nat x)
           (CharacterStorage.characters s))
  /\ fst (CharacterStorage.setDefaultCharacter id s)
     = match CharacterStorage.get id s with
       | Some _ => Ok tt
       | None => Err (newError "Character not found")
       end.
Proof.
  intros [Hnd _]. unfold CharacterStorage.setDefaultCharacter.
  rewrite (clearAllDefaults_all s Hnd).
  unfold CharacterStorage.get. cbn [CharacterStorage.characters].
  assert (Hfind : forall l,
    find (fun c => (StoredCharacter.id c =? id)%nat)
         (map (CharacterStorage.withDefault false) l)
    = option_map (CharacterStorage.withDefault false)
        (find (fun c => (StoredCharacter.id c =? id)%nat) l)).
  { induction l as [|x l IH]; [reflexivity|]. simpl.
    destruct (StoredCharacter.id x =? id)%nat; [reflexivity | exact IH]. }
  rewrite Hfind.
  destruct (find _ (CharacterStorage.characters s)) as [c|] eqn:Hc;
    cbn [option_map snd fst].
  - split; [|reflexivity].
    apply find_some in Hc. destruct Hc as [Hin Hid]. apply Nat.eqb_eq in Hid.
    rewrite put_existing.
    + cbn [CharacterStorage.nextKey CharacterStorage.characters].
      f_equal. rewrite map_map. apply map_ext_in. intros x Hx.
      rewrite !withDefault_id, Hid.
      destruct (StoredCharacter.id x =? id)%nat eqn:Hk; [|reflexivity].
      apply Nat.eqb_eq in Hk.
      assert (x = c) as ->; [|reflexivity].
      apply (nodup_map_injective StoredCharacter.id (CharacterStorage.characters s));
        try assumption. congruence.
    + cbn [CharacterStorage.characters]. rewrite !withDefault_id.
      rewrite map_map. apply in_map_iff. exists c. now split.
  - split; [|reflexivity]. f_equal. apply map_ext_in. intros x Hx.
    replace (StoredCharacter.id x =? id)%nat with false; [reflexivity|].
    symmetry. exact (find_none _ _ Hc x Hx).
Qed.

Lemma defaults_flagged id l :
  NoDup (map StoredCharacter.id l) ->
  filter StoredCharacter.isDefault
    (map (fun x => CharacterStorage.withDefault (StoredCharacter.id x =? id)%nat x) l)
  = match find (fun c => (StoredCharacter.id c =? id)%nat) l with
    | Some c => [CharacterStorage.withDefault true c]
    | None => []
    end.
Proof.
  induction l as [|x l IH]; intros Hnd; [reflexivity|].
  inversion Hnd as [|? ? Hfresh Hnd']; subst.
  cbn [map filter find]. specialize (IH Hnd').
  destruct (StoredCharacter.id x =? id)%nat eqn:Hx;
    cbn [CharacterStorage.withDefault StoredCharacter.isDefault].
  - f_equal. rewrite IH.
    replace (find _ l) with (@None StoredCharacter.t); [reflexivity|].
    symmetry. apply find_all_false. intros y Hy.
    apply Nat.eqb_eq in Hx. apply Nat.eqb_neq. intros Heq. apply Hfresh.
    apply in_map_iff. exists y. split; [congruence | exact Hy].
  - exact IH.
Qed.

Lemma find_hd_filter {A} (p : A -> bool) (l : list A) :
  find p l = hd_error (filter p l).
Proof.
  induction l as [|x l IH]; [reflexivity|]. simpl. now destruct (p x).
Qed.

Lemma keyed_flagged (g : StoredCharacter.t -> bool) s :
  keyed s ->
  keyed (CharacterStorage.mkStore (CharacterStorage.nextKey s)
           (map (fun x => CharacterStorage.withDefault (g x) x)
                (CharacterStorage.characters s))).
Proof.
  intros [Hnd Hlt]. split; cbn [CharacterStorage.characters CharacterStorage.nextKey].
  - now rewrite keys_withDefault.
  - apply Forall_map. eapply Forall_impl; [|exact Hlt]. now intros x.
Qed.

(** X14.  [setDefaultCharacter] on a key the store holds makes that
    character the only default: the store then lists exactly one default,
    [getDefaultCharacter] returns it, and every record is what it was
    except for the flag. *)
Theorem setDefaultCharacter_sole_default :
  forall id s c,
    keyed s ->
    CharacterStorage.get id s = Some c ->
    exists s',
      CharacterStorage.setDefaultCharacter id s = (Ok tt, s')
      /\ defaults s' = [CharacterStorage.withDefault true c]
      /\ CharacterStorage.getDefaultCharacter s'
         = Some (CharacterStorage.withDefault true c)
      /\ CharacterStorage.nextKey s' = CharacterStorage.nextKey s
      /\ Forall2 same_but_default
           (CharacterStorage.characters s) (CharacterStorage.characters s').
Proof.
  intros id s c Hkeyed Hget.
  destruct (setDefaultCharacter_store id s Hkeyed) as [Hsnd Hfst].
  rewrite Hget in Hfst.
  exists (snd (CharacterStorage.setDefaultCharacter id s)).
  split; [rewrite <- Hfst; apply surjective_pairing|].
  rewrite Hsnd. unfold defaults, CharacterStorage.getDefaultCharacter,
    CharacterStorage.getCharacters. rewrite find_hd_filter.
  cbn [CharacterStorage.characters CharacterStorage.nextKey].
  rewrite (defaults_flagged id _ (proj1 Hkeyed)).
  unfold CharacterStorage.get in Hget. rewrite Hget.
  repeat split. apply same_but_default_flag.
Qed.

Lemma setDefaultCharacter_sole_default_witness :
  exists s',
    CharacterStorage.setDefaultCharacter 3 sampleCharacters = (Ok tt, s')
    /\ map StoredCharacter.name (defaults sampleCharacters) = ["bob"]
    /\ map StoredCharacter.name (defaults s') = ["carol"].
Proof.
  assert (Hkeyed : keyed sampleCharacters).
  { split; vm_compute; repeat constructor; simpl; intuition discriminate. }
  destruct (setDefaultCharacter_sole_default 3 sampleCharacters
              (CharacterStorage.newCharacter "2025-01-03T00:00:00.000Z"
                 (sampleCharacter "carol" false) 3)
              Hkeyed eq_refl) as [s' [Hset [Hdef _]]].
  exists s'. split; [exact Hset|]. split; [reflexivity|].
  rewrite Hdef. reflexivity.
Defined.

(** X15.  [setDefaultCharacter] clears the defaults before it looks for
    the character.  On a key the store does not hold it rejects with
    'Character not found', and the store is left without any default,
    whichever character was the default before. *)
Theorem setDefaultCharacter_missing_clears :
  forall id s,
    keyed s ->
    CharacterStorage.get id s = None ->
    exists s',
      CharacterStorage.setDefaultCharacter id s
      = (Err (newError "Character not found"), s')
      /\ defaults s' = []
      /\ CharacterStorage.getDefaultCharacter s' = None
      /\ CharacterStorage.nextKey s' = CharacterStorage.nextKey s
      /\ Forall2 same_but_default
           (CharacterStorage.characters s) (CharacterStorage.characters s').
Proof.
  intros id s Hkeyed Hget.
  destruct (setDefaultCharacter_store id s Hkeyed) as [Hsnd Hfst].
  rewrite Hget in Hfst.
  exists (snd (CharacterStorage.setDefaultCharacter id s)).
  split; [rewrite <- Hfst; apply surjective_pairing|].
  rewrite Hsnd. unfold defaults, CharacterStorage.getDefaultCharacter,
    CharacterStorage.getCharacters. rewrite find_hd_filter.
  cbn [CharacterStorage.characters CharacterStorage.nextKey].
  rewrite (defaults_flagged id _ (proj1 Hkeyed)).
  unfold CharacterStorage.get in Hget. rewrite Hget.
  repeat split. apply same_but_default_flag.
Qed.

Lemma setDefaultCharacter_missing_clears_witness :
  exists s',
    CharacterStorage.setDefaultCharacter 7 sampleCharacters
    = (Err (newError "Character not found"), s')
    /\ option_map StoredCharacter.name
         (CharacterStorage.getDefaultCharacter sampleCharacters) = Some "bob"
    /\ CharacterStorage.getDefaultCharacter s' = None.
Proof.
  assert (Hkeyed : keyed sampleCharacters).
  { split; vm_compute; repeat constructor; simpl; intuition discriminate. }
  destruct (setDefaultCharacter_missing_clears 7 sampleCharacters Hkeyed eq_refl)
    as [s' [Hset [_ [Hnone _]]]].
  exists s'. split; [exact Hset|]. split; [reflexivity | exact Hnone].
Defined.

Lemma find_app_skip {A} (p : A -> bool) (l1 l2 : list A) :
  find p l1 = None -> find p (l1 ++ l2) = find p l2.
Proof.
  induction l1 as [|x l1 IH]; [reflexivity|]. simpl.
  destruct (p x); [discriminate | exact IH].
Qed.

Lemma keyed_append s c :
  keyed s ->
  StoredCharacter.id c = CharacterStorage.nextKey s ->
  keyed (CharacterStorage.mkStore (S (CharacterStorage.nextKey s))
           (CharacterStorage.characters s ++ [c])).
Proof.
  intros [Hnd Hlt] Hid. split;
    cbn [CharacterStorage.characters CharacterStorage.nextKey].
  - rewrite map_app. simpl.
    apply (Permutation_NoDup (l := StoredCharacter.id c
                                   :: map StoredCharacter.id
                                        (CharacterStorage.characters s))).
    + apply Permutation_cons_append.
    + constructor; [|exact Hnd]. intros Hin. apply in_map_iff in Hin.
      destruct Hin as [x [Hx Hin]]. rewrite Forall_forall in Hlt.
      specialize (Hlt x Hin). lia.
  - apply Forall_app. split.
    + eapply Forall_impl; [|exact Hlt]. intros x Hx. simpl in *. lia.
    + constructor; [simpl; lia | constructor].
Qed.

Lemma saveCharacter_store now characterData s :
  keyed s ->
  CharacterStorage.saveCharacter now characterData s
  = (CharacterStorage.nextKey s,
     CharacterStorage.mkStore (S (CharacterStorage.nextKey s))
       (map (fun x =>
               CharacterStorage.withDefault
                 (StoredCharacter.isDefault x
                  && negb (CharacterData.isDefault characterData)) x)
            (CharacterStorage.characters s)
        ++ [CharacterStorage.newCharacter now characterData
              (CharacterStorage.nextKey s)])).
Proof.
  intros [Hnd _]. unfold CharacterStorage.saveCharacter.
  destruct (CharacterData.isDefault characterData).
  - rewrite (clearAllDefaults_all s Hnd).
    cbn [CharacterStorage.characters CharacterStorage.nextKey].
    do 3 f_equal. apply map_ext. intros x. now rewrite andb_false_r.
  - do 3 f_equal. rewrite <- (map_id (CharacterStorage.characters s)) at 1.
    apply map_ext. intros x. rewrite andb_true_r. symmetry. apply withDefault_same.
Qed.

Lemma defaults_kept (flag : bool) l :
  filter StoredCharacter.isDefault
    (map (fun x => CharacterStorage.withDefault (StoredCharacter.isDefault x && flag) x) l)
  = if flag then filter StoredCharacter.isDefault l else [].
Proof.
  induction l as [|x l IH]; [now destruct flag|].
  cbn [map filter CharacterStorage.withDefault StoredCharacter.isDefault].
  rewrite IH. destruct flag; rewrite ?andb_true_r, ?andb_false_r; [|reflexivity].
  destruct (StoredCharacter.isDefault x) eqn:Hx; [|reflexivity].
  f_equal. rewrite <- Hx at 1. apply withDefault_same.
Qed.

Lemma length_filter_filter {A} (p q : A -> bool) (l : list A) :
  length (filter p (filter q l)) <= length (filter p l).
Proof.
  induction l as [|x l IH]; [reflexivity|]. simpl.
  destruct (q x); simpl; destruct (p x); simpl; lia.
Qed.

Lemma setDefaultCharacter_steps id s :
  CharacterStorage.setDefaultCharacter id s
  = markDefault id (CharacterStorage.clearAllDefaults s).
Proof. reflexivity. Qed.

Lemma get_put_same char s :
  CharacterStorage.get (StoredCharacter.id char) (CharacterStorage.put char s)
  = Some char.
Proof.
  unfold CharacterStorage.get, CharacterStorage.put.
  destruct (existsb _ _) eqn:Hheld; cbn [CharacterStorage.characters].
  - apply existsb_exists in Hheld. destruct Hheld as [c [Hc Hid]].
    induction (CharacterStorage.characters s) as [|x l IH]; [contradiction|].
    simpl. destruct (StoredCharacter.id x =? StoredCharacter.id char)%nat eqn:Hx.
    + now rewrite Nat.eqb_refl.
    + rewrite Hx. apply IH. destruct Hc as [->|Hc]; [congruence | exact Hc].
  - rewrite find_app_skip.
    + simpl. now rewrite Nat.eqb_refl.
    + apply find_all_false. intros x Hx.
      apply not_true_iff_false. intros Hid.
      apply not_true_iff_false in Hheld. apply Hheld.
      apply existsb_exists. now exists x.
Qed.

Lemma get_put_other id char s :
  id <> StoredCharacter.id char ->
  CharacterStorage.get id (CharacterStorage.put char s) = CharacterStorage.get id s.
Proof.
  intros Hne. unfold CharacterStorage.get, CharacterStorage.put.
  assert (Hchar : (StoredCharacter.id char =? id)%nat = false)
    by (apply Nat.eqb_neq; congruence).
  destruct (existsb _ _); cbn [CharacterStorage.characters].
  - induction (CharacterStorage.characters s) as [|x l IH]; [reflexivity|].
    simpl. destruct (StoredCharacter.id x =? StoredCharacter.id char)%nat eqn:Hx.
    + rewrite Hchar. apply Nat.eqb_eq in Hx. rewrite Hx, Hchar. exact IH.
    + now rewrite IH.
  - destruct (find (fun c => (StoredCharacter.id c =? id)%nat)
                (CharacterStorage.characters s)) as [c|] eqn:Hf.
    + now apply find_app_some.
    + rewrite find_app_skip by exact Hf. simpl. now rewrite Hchar.
Qed.

Lemma get_cleared id s :
  NoDup (map StoredCharacter.id (CharacterStorage.characters s)) ->
  CharacterStorage.get id (CharacterStorage.clearAllDefaults s)
  = option_map (CharacterStorage.withDefault false) (CharacterStorage.get id s).
Proof.
  intros Hnd. rewrite (clearAllDefaults_all s Hnd).
  unfold CharacterStorage.get. cbn [CharacterStorage.characters].
  induction (CharacterStorage.characters s) as [|x l IH]; [reflexivity|].
  simpl. destruct (StoredCharacter.id x =? id)%nat; [reflexivity|].
  apply IH. now inversion Hnd.
Qed.

Lemma two_defaults s c d :
  CharacterStorage.get (StoredCharacter.id c) s = Some c ->
  CharacterStorage.get (StoredCharacter.id d) s = Some d ->
  StoredCharacter.id c <> StoredCharacter.id d ->
  StoredCharacter.isDefault c = true -> StoredCharacter.isDefault d = true ->
  2 <= length (defaults s).
Proof.
  intros Hc Hd Hne Hcd Hdd.
  apply get_found in Hc. apply get_found in Hd.
  assert (Hc' : In c (defaults s)) by (apply filter_In; tauto).
  assert (Hd' : In d (defaults s)) by (apply filter_In; tauto).
  destruct (defaults s) as [|x [|y l]]; simpl in *; [contradiction| |lia].
  destruct Hc' as [->|[]], Hd' as [->|[]]. contradiction.
Qed.

(** When two calls overlap, both characters end up as default. *)
Lemma overlappingDefaults_both a b s ca cb :
  keyed s -> a <> b ->
  CharacterStorage.get a s = Some ca ->
  CharacterStorage.get b s = Some cb ->
  CharacterStorage.get a (overlappingDefaults a b s)
  = Some (CharacterStorage.withDefault true ca)
  /\ CharacterStorage.get b (overlappingDefaults a b s)
     = Some (CharacterStorage.withDefault true cb)
  /\ 2 <= length (defaults (overlappingDefaults a b s)).
Proof.
  intros Hkeyed Hne Ha Hb.
  assert (Hcleared : keyed (CharacterStorage.clearAllDefaults s)).
  { rewrite (clearAllDefaults_all s (proj1 Hkeyed)).
    apply (keyed_flagged (fun _ => false) s Hkeyed). }
  destruct (get_found _ _ _ Ha) as [_ Hida], (get_found _ _ _ Hb) as [_ Hidb].
  assert (Hget : forall id c,
             CharacterStorage.get id s = Some c ->
             CharacterStorage.get id
               (CharacterStorage.clearAllDefaults (CharacterStorage.clearAllDefaults s))
             = Some (CharacterStorage.withDefault false c)).
  { intros id c Hc.
    rewrite (get_cleared id _ (proj1 Hcleared)), (get_cleared id _ (proj1 Hkeyed)), Hc.
    reflexivity. }
  unfold overlappingDefaults. cbv zeta.
  set (cleared := CharacterStorage.clearAllDefaults
                    (CharacterStorage.clearAllDefaults s)) in *.
  set (first := CharacterStorage.put (CharacterStorage.withDefault true ca) cleared).
  assert (Hfirst : markDefault a cleared = (Ok tt, first))
    by (unfold markDefault; rewrite (Hget a ca Ha); reflexivity).
  rewrite Hfirst. cbn [snd].
  assert (Hfb : CharacterStorage.get b first
                = Some (CharacterStorage.withDefault false cb)).
  { unfold first. rewrite get_put_other by (simpl; congruence). now apply Hget. }
  assert (Hsecond : markDefault b first
                    = (Ok tt, CharacterStorage.put
                                (CharacterStorage.withDefault true cb) first))
    by (unfold markDefault; rewrite Hfb; reflexivity).
  rewrite Hsecond. cbn [snd].
  assert (Hga : CharacterStorage.get a
                  (CharacterStorage.put (CharacterStorage.withDefault true cb) first)
                = Some (CharacterStorage.withDefault true ca)).
  { rewrite get_put_other by (simpl; congruence).
    unfold first. rewrite <- Hida at 1.
    exact (get_put_same (CharacterStorage.withDefault true ca) cleared). }
  assert (Hgb : CharacterStorage.get b
                  (CharacterStorage.put (CharacterStorage.withDefault true cb) first)
                = Some (CharacterStorage.withDefault true cb)).
  { rewrite <- Hidb at 1.
    exact (get_put_same (CharacterStorage.withDefault true cb) first). }
  split; [exact Hga|]. split; [exact Hgb|].
  apply (two_defaults _ (CharacterStorage.withDefault true ca)
           (CharacterStorage.withDefault true cb)); simpl; try reflexivity.
  - now rewrite Hida.
  - now rewrite Hidb.
  - congruence.
Qed.

(** X16.  As long as its calls run one after the other, the character
    store keeps at most one default: from a store with unique keys and at
    most one default, [saveCharacter], [deleteCharacter],
    [setDefaultCharacter] and [clearAllDefaults] each leave such a store;
    [saveCharacter] resolves with a fresh key under which the record is
    stored, and a character saved as default becomes the only default.
    The calls are not atomic, though: [setDefaultCharacter] awaits
    [clearAllDefaults] and then opens a transaction of its own.  When two
    calls for different characters overlap, so that both have cleared the
    defaults before either flags its record, both records end up as
    default. *)
Theorem one_default_kept :
  forall s,
    keyed s ->
    length (defaults s) <= 1 ->
    (forall now characterData,
        let '(key, s') := CharacterStorage.saveCharacter now characterData s in
        keyed s' /\ length (defaults s') <= 1
        /\ CharacterStorage.get key s = None
        /\ CharacterStorage.get key s'
           = Some (CharacterStorage.newCharacter now characterData key)
        /\ (CharacterData.isDefault characterData = true ->
            defaults s' = [CharacterStorage.newCharacter now characterData key]))
    /\ (forall id,
          keyed (CharacterStorage.deleteCharacter id s)
          /\ length (defaults (CharacterStorage.deleteCharacter id s)) <= 1
          /\ CharacterStorage.get id (CharacterStorage.deleteCharacter id s) = None)
    /\ (forall id,
          keyed (snd (CharacterStorage.setDefaultCharacter id s))
          /\ length (defaults (snd (CharacterStorage.setDefaultCharacter id s))) <= 1)
    /\ keyed (CharacterStorage.clearAllDefaults s)
    /\ defaults (CharacterStorage.clearAllDefaults s) = []
    /\ (forall id,
          CharacterStorage.setDefaultCharacter id s
          = markDefault id (CharacterStorage.clearAllDefaults s))
    /\ (forall a b ca cb,
          a <> b ->
          CharacterStorage.get a s = Some ca ->
          CharacterStorage.get b s = Some cb ->
          CharacterStorage.get a (overlappingDefaults a b s)
          = Some (CharacterStorage.withDefault true ca)
          /\ CharacterStorage.get b (overlappingDefaults a b s)
             = Some (CharacterStorage.withDefault true cb)
          /\ 2 <= length (defaults (overlappingDefaults a b s))).
Proof.
  intros s Hkeyed Hone. split; [|split; [|split; [|split; [|split; [|split]]]]].
  - intros now characterData.
    rewrite (saveCharacter_store now characterData s Hkeyed).
    set (c := CharacterStorage.newCharacter now characterData
                (CharacterStorage.nextKey s)).
    pose proof (keyed_flagged
                  (fun x => StoredCharacter.isDefault x
                            && negb (CharacterData.isDefault characterData))
                  s Hkeyed) as Hflagged.
    assert (Hfresh : forall l,
               Forall (fun x => StoredCharacter.id x < CharacterStorage.nextKey s) l ->
               find (fun x => (StoredCharacter.id x =? CharacterStorage.nextKey s)%nat) l
               = None).
    { intros l Hl. apply find_all_false. intros x Hx.
      rewrite Forall_forall in Hl. specialize (Hl x Hx).
      apply Nat.eqb_neq. lia. }
    split; [exact (keyed_append _ c Hflagged eq_refl)|].
    split; [|split; [|split]].
    + unfold defaults. cbn [CharacterStorage.characters].
      rewrite filter_app, length_app, defaults_kept.
      unfold defaults in Hone. subst c. simpl.
      destruct (CharacterData.isDefault characterData); simpl; lia.
    + apply Hfresh. exact (proj2 Hkeyed).
    + unfold CharacterStorage.get. cbn [CharacterStorage.characters].
      rewrite find_app_skip by (apply Hfresh; exact (proj2 Hflagged)).
      simpl. now rewrite Nat.eqb_refl.
    + intros Hd. unfold defaults. cbn [CharacterStorage.characters].
      rewrite filter_app, defaults_kept, Hd. simpl. subst c. simpl. now rewrite Hd.
  - intros id. split; [|split].
    + destruct Hkeyed as [Hnd Hlt]. split; simpl.
      * now apply distinct_keys_filter.
      * apply Forall_forall. intros x Hx. apply filter_In in Hx.
        rewrite Forall_forall in Hlt. now apply Hlt.
    + unfold defaults. simpl.
      pose proof (length_filter_filter StoredCharacter.isDefault
                    (fun c => negb (StoredCharacter.id c =? id)%nat)
                    (CharacterStorage.characters s)).
      unfold defaults in Hone. lia.
    + unfold CharacterStorage.get. simpl. apply find_all_false.
      intros x Hx. apply filter_In in Hx. destruct Hx as [_ Hx].
      now apply negb_true_iff in Hx.
  - intros id. destruct (setDefaultCharacter_store id s Hkeyed) as [-> _].
    split; [apply (keyed_flagged (fun x => (StoredCharacter.id x =? id)%nat) s Hkeyed)|].
    unfold defaults. cbn [CharacterStorage.characters].
    rewrite (defaults_flagged id _ (proj1 Hkeyed)).
    destruct (find _ _); simpl; lia.
  - rewrite (clearAllDefaults_all s (proj1 Hkeyed)).
    apply (keyed_flagged (fun _ => false) s Hkeyed).
  - rewrite (clearAllDefaults_all s (proj1 Hkeyed)).
    unfold defaults. cbn [CharacterStorage.characters].
    apply no_defaults_after_clearing.
  - reflexivity.
  - intros a b ca cb Hne Ha Hb.
    exact (overlappingDefaults_both a b s ca cb Hkeyed Hne Ha Hb).
Qed.

Lemma one_default_kept_witness :
  let '(key, s') :=
    CharacterStorage.saveCharacter "2025-01-04T00:00:00.000Z"
      (sampleCharacter "dave" true) sampleCharacters in
  key = 4
  /\ map StoredCharacter.name (defaults sampleCharacters) = ["bob"]
  /\ map StoredCharacter.name (defaults s') = ["dave"]
  /\ 2 <= length (defaults (overlappingDefaults 1 3 sampleCharacters)).
Proof.
  assert (Hkeyed : keyed sampleCharacters).
  { split; vm_compute; repeat constructor; simpl; intuition discriminate. }
  assert (Hone : length (defaults sampleCharacters) <= 1) by (vm_compute; lia).
  pose proof (proj1 (one_default_kept sampleCharacters Hkeyed Hone)
                "2025-01-04T00:00:00.000Z" (sampleCharacter "dave" true)) as H.
  destruct (CharacterStorage.saveCharacter "2025-01-04T00:00:00.000Z"
              (sampleCharacter "dave" true) sampleCharacters) as [key s'] eqn:Hsave.
  destruct H as [_ [_ [_ [_ Hdef]]]].
  vm_compute in Hsave. injection Hsave as <- <-.
  split; [reflexivity|]. split; [reflexivity|]. split; [reflexivity|].
  destruct (one_default_kept sampleCharacters Hkeyed Hone)
    as [_ [_ [_ [_ [_ [_ Hoverlap]]]]]].
  exact (proj2 (proj2 (Hoverlap 1 3 _ _ ltac:(discriminate) eq_refl eq_refl))).
Defined.

(* ================================================================== *)
(** * The character manager                                            *)
(* ================================================================== *)

Lemma supported_type_kept file :
  existsb (String.eqb (blob_type file)) CHARACTER.SUPPORTED_FORMATS = true ->
  HeyGen.contentType file "image" = blob_type file.
Proof.
  unfold HeyGen.contentType, CHARACTER.SUPPORTED_FORMATS. simpl.
  destruct (blob_type file =? "") eqn:Hempty; [|reflexivity].
  apply String.eqb_eq in Hempty. rewrite Hempty. discriminate.
Qed.

Lemma uploadAsset_trace file type reply s :
  trace (HeyGen.uploadAsset file type reply s)
  = [HeyGenUpload (HeyGen.contentType file type) file].
Proof. unfold HeyGen.uploadAsset, fetch. now destruct reply. Qed.

Lemma uploadAsset_outcome file type reply s :
  outcome (HeyGen.uploadAsset file type reply s)
  = match reply with
    | NetworkFailure m => Rejected (mkError "TypeError" m)
    | HttpFailure status statusText _ =>
        Rejected (newError ("Failed to upload asset: " ++ toString status
                            ++ " " ++ statusText))
    | HttpSuccess asset => Resolved asset
    end.
Proof. unfold HeyGen.uploadAsset, fetch. now destruct reply. Qed.

Lemma requests_app e1 e2 : requests (e1 ++ e2) = (requests e1 ++ requests e2)%list.
Proof. apply flat_map_app. Qed.

Lemma requests_loadingToast toast : requests (CharacterManager.loadingToast toast) = [].
Proof. now destruct toast. Qed.

Lemma requests_closingToast toast shown :
  (forall r, shown <> CharacterManager.Service r) ->
  requests (CharacterManager.closingToast toast shown) = [].
Proof.
  intros H. destruct toast as [|[|]]; try reflexivity.
  simpl. destruct shown; try reflexivity. now destruct (H e).
Qed.

Lemma requests_service t : requests (map CharacterManager.Service t) = t.
Proof. induction t as [|e t IH]; [reflexivity|]. simpl. now rewrite IH. Qed.

(** X17.  [uploadCharacter] checks the file before it does anything: a
    file whose type is not JPEG, PNG or WebP, or whose size is above
    10485760 bytes, is rejected without a toast, without a request and
    without a change of the manager.  Any other file, one of exactly
    10485760 bytes included, is sent to HeyGen in exactly one request,
    under its own content type. *)
Theorem uploadCharacter_validates_first :
  forall file name uploadedAt savedAt reply toast m,
    let valid :=
      ((blob_type file =? "image/jpeg") || (blob_type file =? "image/png")
       || (blob_type file =? "image/webp"))
      && (N.of_nat (blob_size file) <=? 10485760)%N in
    let '(o, m', effects) :=
      CharacterManager.uploadCharacter file name uploadedAt savedAt reply toast m in
    if valid
    then requests effects = [HeyGenUpload (blob_type file) file]
    else (exists e, o = Rejected e) /\ m' = m /\ effects = [].
Proof.
  intros file name uploadedAt savedAt reply toast m valid.
  assert (Hfmt : existsb (String.eqb (blob_type file)) CHARACTER.SUPPORTED_FORMATS
                 = ((blob_type file =? "image/jpeg")
                    || (blob_type file =? "image/png")
                    || (blob_type file =? "image/webp"))).
  { unfold CHARACTER.SUPPORTED_FORMATS. cbn [existsb].
    now rewrite orb_false_r, orb_assoc. }
  assert (Hsize : (CHARACTER.MAX_FILE_SIZE <? N.of_nat (blob_size file))%N
                  = negb (N.of_nat (blob_size file) <=? 10485760)%N).
  { change CHARACTER.MAX_FILE_SIZE with 10485760%N.
    rewrite N.ltb_antisym. reflexivity. }
  subst valid. rewrite <- Hfmt. unfold CharacterManager.uploadCharacter.
  rewrite Hsize.
  destruct (existsb _ _) eqn:Hsupported; cbn [negb andb];
    [|split; [eexists; reflexivity | now split]].
  destruct (N.of_nat (blob_size file) <=? 10485760)%N; cbn [negb];
    [|split; [eexists; reflexivity | now split]].
  cbv zeta. rewrite uploadAsset_trace, uploadAsset_outcome.
  rewrite (supported_type_kept file Hsupported).
  destruct reply as [msg | status statusText body | asset].
  - rewrite !requests_app, requests_loadingToast, requests_service,
      requests_closingToast by discriminate. reflexivity.
  - rewrite !requests_app, requests_loadingToast, requests_service,
      requests_closingToast by discriminate. reflexivity.
  - destruct (negb (truthy (Some (asset_id asset)))).
    + rewrite !requests_app, requests_loadingToast, requests_service,
        requests_closingToast by discriminate. reflexivity.
    + cbn [CharacterStorage.saveCharacter CharacterData.isDefault].
      rewrite !requests_app, requests_loadingToast, requests_service,
        requests_closingToast by discriminate. reflexivity.
Qed.

(** X18.  A character that HeyGen accepted is stored under a fresh key,
    with the asset id HeyGen returned and never as the default; the
    defaults of the store stay what they were, and the manager still shows
    what the store holds.  Once that character is selected, the render
    request of [generateVideo] names the same asset id as its photo. *)
Theorem uploadCharacter_saved :
  forall file name uploadedAt savedAt asset toast m avatar,
    existsb (String.eqb (blob_type file)) CHARACTER.SUPPORTED_FORMATS = true ->
    (N.of_nat (blob_size file) <= CHARACTER.MAX_FILE_SIZE)%N ->
    asset_id asset <> "" ->
    keyed (CharacterManager.storage m) ->
    in_sync m ->
    exists stored m' effects,
      CharacterManager.uploadCharacter file name uploadedAt savedAt
        (HttpSuccess asset) toast m
      = (Resolved stored, m', effects)
      /\ StoredCharacter.id stored
         = CharacterStorage.nextKey (CharacterManager.storage m)
      /\ StoredCharacter.heygenId stored = asset_id asset
      /\ StoredCharacter.isDefault stored = false
      /\ CharacterStorage.get (StoredCharacter.id stored) (CharacterManager.storage m')
         = Some stored
      /\ defaults (CharacterManager.storage m') = defaults (CharacterManager.storage m)
      /\ keyed (CharacterManager.storage m')
      /\ in_sync m'
      /\ fst (characterStep avatar
                (CharacterManager.getSelectedCharacter
                   (CharacterManager.selectCharacter stored m')))
         = Some (PhotoCharacter (asset_id asset)).
Proof.
  intros file name uploadedAt savedAt asset toast m avatar Hfmt Hsize Hid Hkeyed Hsync.
  unfold CharacterManager.uploadCharacter. rewrite Hfmt. cbn [negb].
  replace (CHARACTER.MAX_FILE_SIZE <? N.of_nat (blob_size file))%N with false
    by (symmetry; apply N.ltb_ge; exact Hsize).
  cbv zeta. rewrite uploadAsset_outcome, uploadAsset_trace.
  replace (negb (truthy (Some (asset_id asset)))) with false
    by (simpl; apply String.eqb_neq in Hid; now rewrite Hid).
  cbn [CharacterStorage.saveCharacter CharacterData.isDefault].
  eexists; eexists; eexists. split; [reflexivity|].
  cbn [CharacterManager.storage CharacterManager.characters
       CharacterStorage.characters CharacterStorage.nextKey].
  split; [reflexivity|]. split; [reflexivity|]. split; [reflexivity|].
  split; [|split; [|split; [|split]]].
  - unfold CharacterStorage.get. cbn [CharacterStorage.characters].
    rewrite find_app_skip; [simpl; now rewrite Nat.eqb_refl|].
    apply find_all_false. intros x Hx. destruct Hkeyed as [_ Hlt].
    rewrite Forall_forall in Hlt. specialize (Hlt x Hx).
    simpl. apply Nat.eqb_neq. lia.
  - unfold defaults. cbn [CharacterStorage.characters].
    rewrite filter_app. simpl. apply app_nil_r.
  - now apply keyed_append.
  - unfold in_sync. cbn [CharacterManager.storage CharacterManager.characters
                         CharacterStorage.characters].
    now rewrite Hsync.
  - reflexivity.
Qed.

Lemma uploadCharacter_saved_witness :
  exists stored m' effects,
    CharacterManager.uploadCharacter (mkBlob "image/webp" 4096) "dora"
      "2025-01-05T10:00:00.000Z" "2025-01-05T10:00:01.000Z"
      Sample.asset (CharacterManager.Handle true) sampleManager
    = (Resolved stored, m', effects)
    /\ StoredCharacter.id stored = 4
    /\ StoredCharacter.heygenId stored = "asset-9"
    /\ map StoredCharacter.name (defaults (CharacterManager.storage m')) = ["bob"].
Proof.
  assert (Hkeyed : keyed sampleCharacters).
  { split; vm_compute; repeat constructor; simpl; intuition discriminate. }
  assert (Hsize : (N.of_nat (blob_size (mkBlob "image/webp" 4096))
                   <= CHARACTER.MAX_FILE_SIZE)%N) by (vm_compute; discriminate).
  assert (Hid : asset_id (mkAsset "asset-9" None) <> "") by discriminate.
  destruct (uploadCharacter_saved (mkBlob "image/webp" 4096) "dora"
              "2025-01-05T10:00:00.000Z" "2025-01-05T10:00:01.000Z"
              (mkAsset "asset-9" None) (CharacterManager.Handle true) sampleManager
              None eq_refl Hsize Hid Hkeyed eq_refl)
    as [stored [m' [effects [Hrun [Hkey [Hheygen [_ [_ [Hdef _]]]]]]]]].
  exists stored, m', effects.
  split; [exact Hrun|]. split; [exact Hkey|]. split; [exact Hheygen|].
  rewrite Hdef. reflexivity.
Defined.

(** X19.  The list the manager shows follows the store on every call that
    goes through: after [deleteCharacter] the manager shows the store, the
    deleted key is gone from it and is not the selection; after a
    [setDefaultCharacter] that succeeds the manager shows the new default
    and no other.  A [setDefaultCharacter] that is rejected reloads
    nothing: the manager keeps the list it had, while the store has lost
    its default. *)
Theorem manager_follows_store :
  forall m,
    keyed (CharacterManager.storage m) ->
    (forall id toast,
        let m' := fst (CharacterManager.deleteCharacter id toast m) in
        in_sync m'
        /\ (forall c, In c (CharacterManager.characters m') -> StoredCharacter.id c <> id)
        /\ (forall c, CharacterManager.selectedCharacter m' = Some c ->
                      StoredCharacter.id c <> id
                      /\ CharacterManager.selectedCharacter m = Some c))
    /\ (forall id toast c,
          CharacterStorage.get id (CharacterManager.storage m) = Some c ->
          let '(r, m', effects) := CharacterManager.setDefaultCharacter id toast m in
          r = Ok tt /\ in_sync m'
          /\ filter StoredCharacter.isDefault (CharacterManager.characters m')
             = [CharacterStorage.withDefault true c])
    /\ (forall id toast,
          CharacterStorage.get id (CharacterManager.storage m) = None ->
          let '(r, m', effects) := CharacterManager.setDefaultCharacter id toast m in
          r = Err (newError "Character not found")
          /\ effects = []
          /\ CharacterManager.characters m' = CharacterManager.characters m
          /\ defaults (CharacterManager.storage m') = []).
Proof.
  intros m Hkeyed. split; [|split].
  - intros id toast m'. subst m'. unfold CharacterManager.deleteCharacter.
    cbn [CharacterManager.loadCharacters fst CharacterManager.storage
         CharacterManager.characters CharacterManager.selectedCharacter].
    split; [reflexivity|]. split.
    + intros c Hc. unfold CharacterStorage.getCharacters in Hc. simpl in Hc.
      apply filter_In in Hc. destruct Hc as [_ Hc].
      apply negb_true_iff in Hc. now apply Nat.eqb_neq.
    + intros c. destruct (CharacterManager.selectedCharacter m) as [d|];
        [|discriminate].
      destruct (StoredCharacter.id d =? id)%nat eqn:Hd; [discriminate|].
      intros H. injection H as <-. split; [now apply Nat.eqb_neq | reflexivity].
  - intros id toast c Hget.
    destruct (setDefaultCharacter_store id (CharacterManager.storage m) Hkeyed)
      as [Hsnd Hfst].
    rewrite Hget in Hfst. unfold CharacterManager.setDefaultCharacter.
    destruct (CharacterStorage.setDefaultCharacter id (CharacterManager.storage m))
      as [r storage']. cbn [fst snd] in *. subst r storage'.
    cbn [CharacterManager.loadCharacters CharacterManager.storage
         CharacterManager.characters CharacterStorage.getCharacters
         CharacterStorage.characters].
    split; [reflexivity|]. split; [reflexivity|].
    rewrite (defaults_flagged id _ (proj1 Hkeyed)).
    unfold CharacterStorage.get in Hget. now rewrite Hget.
  - intros id toast Hget.
    destruct (setDefaultCharacter_store id (CharacterManager.storage m) Hkeyed)
      as [Hsnd Hfst].
    rewrite Hget in Hfst. unfold CharacterManager.setDefaultCharacter.
    destruct (CharacterStorage.setDefaultCharacter id (CharacterManager.storage m))
      as [r storage']. cbn [fst snd] in *. subst r storage'.
    cbn [CharacterManager.storage CharacterManager.characters].
    split; [reflexivity|]. split; [reflexivity|]. split; [reflexivity|].
    unfold defaults. cbn [CharacterStorage.characters].
    rewrite (defaults_flagged id _ (proj1 Hkeyed)).
    unfold CharacterStorage.get in Hget. now rewrite Hget.
Qed.

Lemma manager_follows_store_witness :
  let '(r, m', effects) := CharacterManager.setDefaultCharacter 7 true sampleManager in
  r = Err (newError "Character not found")
  /\ map StoredCharacter.name
       (filter StoredCharacter.isDefault (CharacterManager.characters m')) = ["bob"]
  /\ defaults (CharacterManager.storage m') = [].
Proof.
  assert (Hkeyed : keyed (CharacterManager.storage sampleManager)).
  { split; vm_compute; repeat constructor; simpl; intuition discriminate. }
  pose proof (proj2 (proj2 (manager_follows_store sampleManager Hkeyed)) 7 true eq_refl)
    as H.
  destruct (CharacterManager.setDefaultCharacter 7 true sampleManager)
    as [[r m'] effects].
  destruct H as [Hr [_ [Hsame Hnone]]].
  split; [exact Hr|]. split; [rewrite Hsame; reflexivity | exact Hnone].
Defined.

(* ================================================================== *)
(** * The wizard                                                       *)
(* ================================================================== *)

(** X20.  Three calls of [goToStep(currentStep + 1)] from step 1, the
    calls the 'next' buttons make when their clicks fire, show step 4
    exactly when [validate] accepts the selections.  Otherwise the wizard
    stays on the first step whose input is missing, the recorder left
    alone, and each call made on that step shows its toast: the message of
    [validate] for steps 2 and 3, and a wording of its own for step 1.  On
    arrival at step 4 the recorder is not recording. *)
Theorem next_reaches_generate_iff_valid :
  forall env st,
    App.currentStep st = 1 ->
    let '(st', ui) := goToNext env 3 st in
    match validate env with
    | Valid =>
        App.currentStep st' = 4 /\ toasts ui = [] /\ App.isRecording st' = false
    | Invalid message =>
        App.currentStep st' < 4
        /\ App.isRecording st'
           = (if (App.currentStep st' =? 1)%nat then App.isRecording st else false)
        /\ fst (App.validateStep env (App.currentStep st')) = false
        /\ exists shown,
             toasts ui = repeat shown (4 - App.currentStep st')
             /\ shown = (if (App.currentStep st' =? 1)%nat
                         then "Please record your voice before proceeding"
                         else message)
    end.
Proof.
  intros env [step recording] Hstep. simpl in Hstep. subst step.
  unfold goToNext, App.goToStep, App.validateStep, validate, getSelectedVoice,
    getAudioBlob, getSelectedAvatar, getSelectedCharacter.
  cbn [App.currentStep App.isRecording Nat.ltb Nat.leb].
  destruct (audioBlob env) as [blob|];
    [|cbn; split; [lia|]; split; [reflexivity|]; split; [reflexivity|];
      eexists; split; reflexivity].
  destruct (selectedAvatar env) as [avatar|], (selectedCharacter env) as [character|],
    (useCustomVoice env), (selectedVoice env) as [voice|], recording;
    cbn;
    first [ split; [reflexivity|]; split; reflexivity
          | split; [lia|]; split; [reflexivity|]; split; [reflexivity|];
            eexists; split; reflexivity ].
Qed.

Lemma next_reaches_generate_iff_valid_witness :
  let env := Sample.env (Some Sample.recording) None None false (Some Sample.narrator)
               Sample.asset [] in
  let '(st', ui) := goToNext env 3 (App.mkState 1 false) in
  App.currentStep st' = 2
  /\ toasts ui = ["Please select an avatar or character";
                  "Please select an avatar or character"].
Proof.
  intros env.
  pose proof (next_reaches_generate_iff_valid env (App.mkState 1 false) eq_refl) as H.
  destruct (goToNext env 3 (App.mkState 1 false)) as [st' ui] eqn:Hrun.
  vm_compute in Hrun. injection Hrun as <- <-.
  change (validate env) with (Invalid "Please select an avatar or character") in H.
  destruct H as [_ [_ [_ [shown [Ht ->]]]]].
  split; [reflexivity | exact Ht].
Defined.

(** X21.  When both a preset avatar and a custom character are selected,
    the summary of step 4 names the avatar, while the render request that
    [generateVideo] sends uses the photo of the character. *)
Theorem summary_names_avatar_render_uses_character :
  forall env s avatar character body,
    getSelectedAvatar env = Some avatar ->
    getSelectedCharacter env = Some character ->
    In (HeyGenCreate body) (trace (run (generateVideo env) s)) ->
    App.summaryAvatar env = or_else (avatar_name avatar) "Preset Avatar"
    /\ map input_character (video_inputs body)
       = [Some (PhotoCharacter (heygenId character))].
Proof.
  intros env s avatar character body Ha Hc Hin. unfold run in Hin.
  split; [unfold App.summaryAvatar; now rewrite Ha|].
  destruct (validate env) as [|m] eqn:Hv.
  2: { rewrite (generateVideo_invalid env s m Hv) in Hin.
       destruct Hin as [H|[]]. discriminate. }
  destruct (validate_valid env Hv) as [_ [_ [voiceSelection Hsel]]].
  destruct (generateVideo_step1 env s voiceSelection Hv Hsel)
    as [rest [Ht [_ [_ Hbody]]]].
  rewrite Ht in Hin. apply in_generateVideo_trace in Hin; [|discriminate].
  destruct Hin as [Hin|Hin].
  - destruct (quiet_voiceStep env voiceSelection s) as [_ Hquiet].
    pose proof (forallb_in _ _ _ Hquiet Hin). discriminate.
  - destruct (Hbody body Hin) as [transcript [voiceConfig [_ ->]]].
    rewrite Ha, Hc. reflexivity.
Qed.

Lemma summary_names_avatar_render_uses_character_witness :
  let env := Sample.env (Some Sample.recording) (Some Sample.anna) (Some Sample.me)
               false (Some Sample.narrator) Sample.asset
               [HttpSuccess Sample.completed] in
  App.summaryAvatar env = "Anna"
  /\ map (fun body => map input_character (video_inputs body))
       (flat_map (fun e => match e with HeyGenCreate body => [body] | _ => [] end)
          (trace (run (generateVideo env) empty)))
     = [[Some (PhotoCharacter "photo-77")]].
Proof.
  intros env.
  assert (Hin : In (HeyGenCreate
                      (HeyGen.requestBody
                         (mkVideoConfig (Some (PhotoCharacter "photo-77"))
                            (TextVoice "voice-12") (Some "hello world"))))
                   (trace (run (generateVideo env) empty)))
    by (vm_compute; repeat ((left; reflexivity) || right)).
  destruct (summary_names_avatar_render_uses_character env empty Sample.anna Sample.me
              _ eq_refl eq_refl Hin) as [Hsummary _].
  split; [exact Hsummary | reflexivity].
Defined.

(* ================================================================== *)
(** * The WAV encoder                                                  *)
(* ================================================================== *)

Lemma set_next (written rest bytes : list Z) :
  length bytes <= length rest ->
  DataView.set (length written) bytes (written ++ rest)%list
  = Some (written ++ bytes ++ skipn (length bytes) rest)%list.
Proof.
  intros Hfit. unfold DataView.set. rewrite length_app.
  replace (length written + length bytes <=? length written + length rest)%nat
    with true by (symmetry; apply Nat.leb_le; lia).
  rewrite firstn_app, Nat.sub_diag, firstn_all, firstn_O, app_nil_r.
  rewrite skipn_app, skipn_all2 by lia.
  replace (length written + length bytes - length written) with (length bytes) by lia.
  reflexivity.
Qed.

Lemma length_littleEndian width data :
  length (DataView.littleEndian width data) = width.
Proof. unfold DataView.littleEndian. now rewrite length_map, length_seq. Qed.

Lemma length_frameBytes channels offset :
  length (frameBytes channels offset) = 2 * length channels.
Proof.
  induction channels as [|channel others IH]; [reflexivity|].
  unfold frameBytes in *. cbn [flat_map]. rewrite length_app, IH, length_littleEndian.
  simpl. lia.
Qed.

(** One frame, written behind what is there already. *)
Lemma writeFrame_next channels offset :
  forall written rest,
    2 * length channels <= length rest ->
    WavEncoder.writeFrame channels offset
      (WavEncoder.mkWriter (written ++ rest)%list (length written))
    = Some (WavEncoder.mkWriter
              ((written ++ frameBytes channels offset)
               ++ skipn (2 * length channels) rest)%list
              (length (written ++ frameBytes channels offset)%list)).
Proof.
  induction channels as [|channel others IH]; intros written rest Hfit.
  - simpl. now rewrite !app_nil_r.
  - cbn [WavEncoder.writeFrame WavEncoder.pos WavEncoder.view].
    unfold DataView.setInt16. fold (pcm (nth offset channel WavEncoder.NaN)).
    set (bytes := DataView.littleEndian 2 (pcm (nth offset channel WavEncoder.NaN))).
    assert (Hlen : length bytes = 2) by apply length_littleEndian.
    simpl length in Hfit.
    rewrite set_next by lia.
    replace (length written + 2) with (length (written ++ bytes)%list)
      by (rewrite length_app; lia).
    rewrite app_assoc, IH by (rewrite length_skipn; lia).
    unfold frameBytes. cbn [flat_map]. fold bytes.
    fold (frameBytes others offset).
    rewrite skipn_skipn, Hlen, <- !app_assoc.
    replace (2 * length others + 2) with (2 * length (channel :: others))
      by (simpl; lia).
    reflexivity.
Qed.

Lemma skipn_repeat {A} (x : A) k n : skipn k (repeat x n) = repeat x (n - k).
Proof.
  revert n. induction k as [|k IH]; intros n; [now rewrite Nat.sub_0_r|].
  destruct n; [reflexivity|]. simpl. apply IH.
Qed.

Lemma flat_map_nil {A B} (f : A -> list B) (l : list A) :
  (forall x, f x = []) -> flat_map f l = [].
Proof.
  intros H. induction l as [|x l IH]; [reflexivity|]. simpl. now rewrite H, IH.
Qed.

(** The loop writes the frames left, one after the other, and stops. *)
Lemma writeFrames_done channels :
  forall frames fuel offset written,
    frames < fuel ->
    WavEncoder.writeFrames fuel channels
      (length written + frames * (2 * length channels)) offset
      (WavEncoder.mkWriter
         (written ++ repeat 0%Z (frames * (2 * length channels)))%list
         (length written))
    = WavEncoder.Done
        (written ++ flat_map (frameBytes channels) (seq offset frames))%list.
Proof.
  induction frames as [|frames IH]; intros fuel offset written Hfuel;
    (destruct fuel as [|fuel]; [lia|]).
  - cbn [WavEncoder.writeFrames WavEncoder.pos WavEncoder.view Nat.mul].
    replace (length written <? length written + 0)%nat with false
      by (symmetry; apply Nat.ltb_ge; lia).
    reflexivity.
  - destruct (Nat.eq_dec (length channels) 0) as [Hzero|Hpos].
    + rewrite Hzero, !Nat.mul_0_r, Nat.add_0_r.
      cbn [WavEncoder.writeFrames WavEncoder.pos WavEncoder.view].
      rewrite Nat.ltb_irrefl.
      apply length_zero_iff_nil in Hzero. subst channels.
      rewrite flat_map_nil by reflexivity. reflexivity.
    + cbn [WavEncoder.writeFrames WavEncoder.pos WavEncoder.view].
      replace (length written <? length written + S frames * (2 * length channels))%nat
        with true by (symmetry; apply Nat.ltb_lt; nia).
      rewrite writeFrame_next by (rewrite repeat_length; nia).
      rewrite skipn_repeat.
      replace (S frames * (2 * length channels) - 2 * length channels)
        with (frames * (2 * length channels)) by nia.
      replace (length written + S frames * (2 * length channels))
        with (length (written ++ frameBytes channels offset)%list
              + frames * (2 * length channels))
        by (rewrite length_app, length_frameBytes; nia).
      rewrite IH by lia. cbn [seq flat_map]. now rewrite <- app_assoc.
Qed.

Lemma setUint32_next data written rest p :
  length written = p ->
  4 <= length rest ->
  WavEncoder.setUint32 data (WavEncoder.mkWriter (written ++ rest)%list p)
  = Some (WavEncoder.mkWriter
            ((written ++ DataView.littleEndian 4 data) ++ skipn 4 rest)%list (p + 4)).
Proof.
  intros <- Hfit. unfold WavEncoder.setUint32, DataView.setUint32.
  cbn [WavEncoder.pos WavEncoder.view].
  rewrite set_next by (rewrite length_littleEndian; exact Hfit).
  rewrite length_littleEndian, app_assoc. reflexivity.
Qed.

Lemma setUint16_next data written rest p :
  length written = p ->
  2 <= length rest ->
  WavEncoder.setUint16 data (WavEncoder.mkWriter (written ++ rest)%list p)
  = Some (WavEncoder.mkWriter
            ((written ++ DataView.littleEndian 2 data) ++ skipn 2 rest)%list (p + 2)).
Proof.
  intros <- Hfit. unfold WavEncoder.setUint16, DataView.setUint16.
  cbn [WavEncoder.pos WavEncoder.view].
  rewrite set_next by (rewrite length_littleEndian; exact Hfit).
  rewrite length_littleEndian, app_assoc. reflexivity.
Qed.

Ltac header_field lemma :=
  rewrite lemma;
  [ rewrite skipn_repeat; cbv beta iota
  | rewrite ?length_app, ?length_littleEndian; reflexivity
  | rewrite repeat_length; lia ].

Lemma header_written buffer payload :
  WavEncoder.writeHeader buffer (44 + payload)
    (WavEncoder.mkWriter (DataView.create (44 + payload)) 0)
  = Some (WavEncoder.mkWriter (header buffer payload ++ repeat 0%Z payload)%list 44).
Proof.
  unfold WavEncoder.writeHeader, WavEncoder.andThen, DataView.create. cbv zeta.
  change (repeat 0%Z (44 + payload)) with ([] ++ repeat 0%Z (44 + payload))%list.
  header_field setUint32_next. header_field setUint32_next.
  header_field setUint32_next. header_field setUint32_next.
  header_field setUint32_next. header_field setUint16_next.
  header_field setUint16_next. header_field setUint32_next.
  header_field setUint32_next. header_field setUint16_next.
  header_field setUint16_next. header_field setUint32_next.
  cbn [WavEncoder.pos].
  header_field setUint32_next.
  replace (44 + payload - 4 - 4 - 4 - 4 - 4 - 2 - 2 - 4 - 4 - 2 - 2 - 4 - 4)
    with payload by lia.
  unfold header. cbv zeta. rewrite <- !app_assoc. reflexivity.
Qed.

Lemma frameBytes_channels buffer offset :
  frameBytes
    (map (WavEncoder.getChannelData buffer)
         (seq 0 (WavEncoder.numberOfChannels buffer))) offset
  = flat_map
      (fun i =>
         DataView.littleEndian 2
           (pcm (nth offset (WavEncoder.getChannelData buffer i) WavEncoder.NaN)))
      (seq 0 (WavEncoder.numberOfChannels buffer)).
Proof.
  unfold frameBytes. generalize (seq 0 (WavEncoder.numberOfChannels buffer)).
  induction l as [|i l IH]; [reflexivity|]. simpl. now rewrite IH.
Qed.

Lemma length_flat_map_frames (f : nat -> list Z) width frames offset :
  (forall k, length (f k) = width) ->
  length (flat_map f (seq offset frames)) = frames * width.
Proof.
  intros Hf. revert offset. induction frames as [|n IH]; intros offset; [reflexivity|].
  cbn [seq flat_map]. rewrite length_app, Hf, IH. simpl. lia.
Qed.

Lemma length_interleaved buffer :
  length (interleaved buffer)
  = WavEncoder.buffer_length buffer * WavEncoder.numberOfChannels buffer * 2.
Proof.
  unfold interleaved.
  rewrite (length_flat_map_frames _ (2 * WavEncoder.numberOfChannels buffer)).
  - lia.
  - intros k. rewrite <- frameBytes_channels, length_frameBytes.
    now rewrite length_map, length_seq.
Qed.

(** The encoder, run to its end. *)
Lemma audioBufferToWav_done buffer fuel :
  WavEncoder.buffer_length buffer < fuel ->
  WavEncoder.audioBufferToWav fuel buffer
  = WavEncoder.Done
      (header buffer
         (WavEncoder.buffer_length buffer * WavEncoder.numberOfChannels buffer * 2)
       ++ interleaved buffer)%list.
Proof.
  intros Hfuel. unfold WavEncoder.audioBufferToWav.
  set (frames := WavEncoder.buffer_length buffer) in *.
  set (channels := map (WavEncoder.getChannelData buffer)
                     (seq 0 (WavEncoder.numberOfChannels buffer))).
  set (payload := frames * WavEncoder.numberOfChannels buffer * 2).
  cbv zeta. rewrite (Nat.add_comm payload 44), header_written.
  assert (Hlen : length channels = WavEncoder.numberOfChannels buffer)
    by (subst channels; now rewrite length_map, length_seq).
  assert (Hpayload : payload = frames * (2 * length channels))
    by (subst payload; rewrite Hlen; lia).
  pose proof (writeFrames_done channels frames fuel 0 (header buffer payload) Hfuel)
    as Hloop.
  change (length (header buffer payload)) with 44 in Hloop.
  rewrite <- Hpayload in Hloop. rewrite Hloop.
  f_equal. f_equal. unfold interleaved. fold frames.
  apply flat_map_ext. intros offset. subst channels. apply frameBytes_channels.
Qed.

(** X22.  [audioBufferToWav] writes every byte of the buffer it
    allocated and never past its end: the file is the 44 bytes of the
    header followed by the frames in order, in each frame the channels in
    order, each sample as two bytes, least significant first.  Its length
    is 44 plus two bytes for every sample, and the loop stops after as many
    turns as the buffer has frames. *)
Theorem audioBufferToWav_interleaves :
  forall buffer fuel,
    WavEncoder.buffer_length buffer < fuel ->
    exists bytes,
      WavEncoder.audioBufferToWav fuel buffer = WavEncoder.Done bytes
      /\ length bytes
         = WavEncoder.buffer_length buffer * WavEncoder.numberOfChannels buffer * 2 + 44
      /\ skipn 44 bytes = interleaved buffer
      /\ forall more, WavEncoder.audioBufferToWav (fuel + more) buffer
                      = WavEncoder.Done bytes.
Proof.
  intros buffer fuel Hfuel. eexists.
  split; [exact (audioBufferToWav_done buffer fuel Hfuel)|].
  split; [|split].
  - rewrite length_app, length_interleaved.
    change (length (header buffer _)) with 44. lia.
  - reflexivity.
  - intros more. apply audioBufferToWav_done. lia.
Qed.

Lemma audioBufferToWav_interleaves_witness :
  exists bytes,
    WavEncoder.audioBufferToWav 4 sampleBuffer = WavEncoder.Done bytes
    /\ length bytes = 56
    /\ skipn 44 bytes
       = [255; 63; 0; 0; 0; 128; 255; 127; 0; 0; 0; 224]%Z.
Proof.
  destruct (audioBufferToWav_interleaves sampleBuffer 4) as [bytes [Hrun [Hlen [Hdata _]]]];
    [simpl; lia|].
  exists bytes. split; [exact Hrun|]. split; [exact Hlen|].
  rewrite Hdata. reflexivity.
Defined.

Lemma unsigned_bytes (data : Z) width :
  forall k,
    DataView.unsigned
      (map (fun j => Z.land (Z.shiftr data (8 * Z.of_nat j)) 255) (seq k width))
    = (Z.shiftr data (8 * Z.of_nat k) mod 2 ^ (8 * Z.of_nat width))%Z.
Proof.
  induction width as [|width IH]; intros k.
  - simpl. now rewrite Z.mod_1_r.
  - cbn [seq map DataView.unsigned fold_right].
    fold (DataView.unsigned
            (map (fun j => Z.land (Z.shiftr data (8 * Z.of_nat j)) 255)
                 (seq (S k) width))).
    rewrite IH.
    change 255%Z with (Z.ones 8). rewrite Z.land_ones by lia.
    replace (8 * Z.of_nat (S k))%Z with (8 * Z.of_nat k + 8)%Z by lia.
    rewrite <- Z.shiftr_shiftr by lia.
    rewrite (Z.shiftr_div_pow2 _ 8) by lia.
    replace (8 * Z.of_nat (S width))%Z with (8 + 8 * Z.of_nat width)%Z by lia.
    rewrite Z.pow_add_r by lia.
    rewrite Z.rem_mul_r by lia. reflexivity.
Qed.

(** Reading back what was written, little endian. *)
Lemma unsigned_littleEndian width data :
  DataView.unsigned (DataView.littleEndian width data)
  = (data mod 2 ^ (8 * Z.of_nat width))%Z.
Proof.
  unfold DataView.littleEndian. rewrite unsigned_bytes.
  now rewrite Z.mul_0_r, Z.shiftr_0_r.
Qed.

Lemma writeFrames_more channels length bytes more :
  forall fuel offset w,
    WavEncoder.writeFrames fuel channels length offset w = WavEncoder.Done bytes ->
    WavEncoder.writeFrames (fuel + more) channels length offset w
    = WavEncoder.Done bytes.
Proof.
  induction fuel as [|fuel IH]; intros offset w; [discriminate|].
  cbn [WavEncoder.writeFrames Nat.add].
  destruct (WavEncoder.pos w <? length)%nat; [|trivial].
  destruct (WavEncoder.writeFrame channels offset w); [apply IH | discriminate].
Qed.

(** A result the encoder reached does not depend on the fuel. *)
Lemma audioBufferToWav_more fuel buffer bytes more :
  WavEncoder.audioBufferToWav fuel buffer = WavEncoder.Done bytes ->
  WavEncoder.audioBufferToWav (fuel + more) buffer = WavEncoder.Done bytes.
Proof.
  unfold WavEncoder.audioBufferToWav. cbv zeta.
  destruct (WavEncoder.writeHeader _ _ _); [apply writeFrames_more | discriminate].
Qed.

Lemma length_tag s : length (tag s) = String.length s.
Proof.
  unfold tag. rewrite length_map.
  induction s as [|c s IH]; [reflexivity|]. simpl. now rewrite IH.
Qed.

Lemma length_header buffer payload : length (header buffer payload) = 44.
Proof.
  unfold header. cbv zeta.
  rewrite !length_app, !length_littleEndian, !length_tag. reflexivity.
Qed.

Lemma skipn_field (f l : list Z) w k :
  length f = w -> skipn (w + k) (f ++ l)%list = skipn k l.
Proof.
  intros <-. rewrite skipn_app, skipn_all2 by lia.
  now replace (length f + k - length f) with k by lia.
Qed.

Lemma firstn_field (f l : list Z) w :
  length f = w -> firstn w (f ++ l)%list = f.
Proof.
  intros <-. now rewrite firstn_app, Nat.sub_diag, firstn_all, firstn_O, app_nil_r.
Qed.

Ltac field_length :=
  first [ apply length_littleEndian | rewrite length_tag; reflexivity ].

(* Dropping the fields in front of position [n], one at a time. *)
Ltac drop_field w :=
  match goal with
  | |- context [skipn ?n (?f ++ ?l)%list] =>
      let k := eval compute in (n - w) in
      change (skipn n (f ++ l)%list) with (skipn (w + k) (f ++ l)%list);
      rewrite (skipn_field f l w k) by field_length
  end.

Ltac drop_fields :=
  repeat first
    [ drop_field 4
    | drop_field 2
    | match goal with
      | |- context [skipn 0 ?l] => change (skipn 0 l) with l
      end ].

(** X23.  The header [audioBufferToWav] writes describes the file it is
    part of.  Read back as little-endian fields it gives the tags RIFF,
    WAVE, 'fmt ' and data, the file length less 8, a format chunk of 16
    bytes for PCM with 16 bits per sample, the channel count, the sample
    rate, the byte rate and block alignment that follow from them, and as
    the size of the data chunk the number of bytes that follow the
    header.  This holds for files below 2^32 bytes with fewer than 2^15
    channels and a sample rate and byte rate below 2^32. *)
Theorem wav_header_describes_file :
  forall buffer fuel bytes,
    WavEncoder.audioBufferToWav fuel buffer = WavEncoder.Done bytes ->
    (Z.of_nat (length bytes) < 2 ^ 32)%Z ->
    (Z.of_nat (WavEncoder.numberOfChannels buffer) < 2 ^ 15)%Z ->
    (0 <= WavEncoder.sampleRate buffer < 2 ^ 32)%Z ->
    (WavEncoder.sampleRate buffer * 2 * Z.of_nat (WavEncoder.numberOfChannels buffer)
     < 2 ^ 32)%Z ->
    let channels := Z.of_nat (WavEncoder.numberOfChannels buffer) in
    firstn 4 bytes = tag "RIFF"
    /\ DataView.getUint32 4 bytes = (Z.of_nat (length bytes) - 8)%Z
    /\ firstn 4 (skipn 8 bytes) = tag "WAVE"
    /\ firstn 4 (skipn 12 bytes) = tag "fmt "
    /\ DataView.getUint32 16 bytes = 16%Z
    /\ DataView.getUint16 20 bytes = 1%Z
    /\ DataView.getUint16 22 bytes = channels
    /\ DataView.getUint32 24 bytes = WavEncoder.sampleRate buffer
    /\ DataView.getUint32 28 bytes
       = (WavEncoder.sampleRate buffer * DataView.getUint16 32 bytes)%Z
    /\ DataView.getUint16 32 bytes = (channels * DataView.getUint16 34 bytes / 8)%Z
    /\ DataView.getUint16 34 bytes = 16%Z
    /\ firstn 4 (skipn 36 bytes) = tag "data"
    /\ DataView.getUint32 40 bytes = Z.of_nat (length (skipn 44 bytes)).
Proof.
  intros buffer fuel bytes Hrun Hsize Hchannels Hrate Hbyterate channels.
  apply (audioBufferToWav_more fuel buffer bytes (S (WavEncoder.buffer_length buffer)))
    in Hrun.
  rewrite audioBufferToWav_done in Hrun by lia.
  assert (Hbytes : bytes
                   = (header buffer
                        (WavEncoder.buffer_length buffer
                         * WavEncoder.numberOfChannels buffer * 2)
                      ++ interleaved buffer)%list) by congruence.
  clear Hrun. subst bytes.
  set (payload := WavEncoder.buffer_length buffer
                  * WavEncoder.numberOfChannels buffer * 2) in *.
  assert (Hlen : length (header buffer payload ++ interleaved buffer)%list
                 = 44 + payload).
  { rewrite length_app, length_interleaved. reflexivity. }
  rewrite Hlen in *.
  assert (Hdata : skipn 44 (header buffer payload ++ interleaved buffer)%list
                  = interleaved buffer) by reflexivity.
  rewrite Hdata, length_interleaved. fold payload.
  generalize dependent (interleaved buffer). intros rest _ _.
  unfold DataView.getUint32, DataView.getUint16, header. cbv zeta.
  fold channels. rewrite <- !app_assoc.
  drop_fields.
  rewrite !firstn_field by field_length.
  rewrite !unsigned_littleEndian.
  change (2 ^ (8 * Z.of_nat 4))%Z with 4294967296%Z.
  change (2 ^ (8 * Z.of_nat 2))%Z with 65536%Z.
  change (2 ^ 32)%Z with 4294967296%Z in *.
  change (2 ^ 15)%Z with 32768%Z in *.
  assert (Hnn : (0 <= WavEncoder.sampleRate buffer * 2 * channels)%Z)
    by (subst channels; nia).
  fold channels in Hbyterate, Hchannels.
  assert (Hch : (0 <= channels)%Z) by (subst channels; lia).
  clearbody channels.
  remember (WavEncoder.sampleRate buffer * 2 * channels)%Z as byteRate eqn:Hbr.
  rewrite !Z.mod_small by lia.
  replace (channels * 16)%Z with (channels * 2 * 8)%Z by lia.
  rewrite Z.div_mul by lia.
  repeat split; try reflexivity; lia.
Qed.

Lemma wav_header_describes_file_witness :
  let bytes := (header sampleBuffer 12 ++ interleaved sampleBuffer)%list in
  WavEncoder.audioBufferToWav 4 sampleBuffer = WavEncoder.Done bytes
  /\ DataView.getUint32 4 bytes = 48%Z
  /\ DataView.getUint16 22 bytes = 2%Z
  /\ DataView.getUint32 24 bytes = 44100%Z
  /\ DataView.getUint32 40 bytes = 12%Z.
Proof.
  intros bytes.
  assert (Hrun : WavEncoder.audioBufferToWav 4 sampleBuffer = WavEncoder.Done bytes)
    by (apply audioBufferToWav_done; simpl; lia).
  assert (Hsize : (Z.of_nat (length bytes) < 2 ^ 32)%Z) by (vm_compute; reflexivity).
  assert (Hchannels : (Z.of_nat (WavEncoder.numberOfChannels sampleBuffer) < 2 ^ 15)%Z)
    by (vm_compute; reflexivity).
  assert (Hrate : (0 <= WavEncoder.sampleRate sampleBuffer < 2 ^ 32)%Z)
    by (vm_compute; split; [discriminate | reflexivity]).
  assert (Hbyterate :
    (WavEncoder.sampleRate sampleBuffer * 2
     * Z.of_nat (WavEncoder.numberOfChannels sampleBuffer) < 2 ^ 32)%Z)
    by (vm_compute; reflexivity).
  destruct (wav_header_describes_file sampleBuffer 4 bytes Hrun Hsize
              Hchannels Hrate Hbyterate)
    as [_ [Hriff [_ [_ [_ [_ [Hch [Hsr [_ [_ [_ [_ Hdata]]]]]]]]]]]].
  exact (conj Hrun (conj Hriff (conj Hch (conj Hsr Hdata)))).
Defined.

Lemma quot_scaled_bounds (n d k : Z) :
  (0 < d)%Z -> (0 < k)%Z -> (- d < n < d)%Z ->
  (- k < Z.quot (n * k) d < k)%Z
  /\ (n < 0 -> Z.quot (n * k) d <= 0)%Z
  /\ (0 <= n -> 0 <= Z.quot (n * k) d)%Z.
Proof.
  intros Hd Hk Hn.
  pose proof (Z.quot_rem' (n * k) d) as Hqr.
  pose proof (Z.rem_bound_abs (n * k) d ltac:(lia)) as Hrem.
  pose proof (Z.rem_sign_nz (n * k) d) as Hsign.
  Z.quot_rem_to_equations. nia.
Qed.

(** The stored value of a finite sample, by cases. *)
Lemma pcm_finite q :
  pcm (WavEncoder.Finite q)
  = (let n := QArith_base.Qnum q in
     let d := Z.pos (QArith_base.Qden q) in
     if d <=? n then 32767
     else if n <=? - d then -32768
     else if n <? 0 then Z.quot (n * 32768) d else Z.quot (n * 32767) d)%Z.
Proof.
  destruct q as [n d]. unfold pcm, WavEncoder.scaled, WavEncoder.min, WavEncoder.max,
    WavEncoder.lessThan, QArith_base.Qle_bool, QArith_base.inject_Z.
  cbn [QArith_base.Qnum QArith_base.Qden].
  cbv zeta.
  replace (1 * Z.pos d <=? n * 1)%Z with (Z.pos d <=? n)%Z by (f_equal; lia).
  destruct (Z.pos d <=? n)%Z eqn:Hhigh; cbn [negb]; [reflexivity|].
  apply Z.leb_gt in Hhigh.
  cbn [QArith_base.Qnum QArith_base.Qden].
  replace (n * 1 <=? -1 * Z.pos d)%Z with (n <=? - Z.pos d)%Z by (f_equal; lia).
  destruct (n <=? - Z.pos d)%Z eqn:Hlow; cbn [negb]; [reflexivity|].
  apply Z.leb_gt in Hlow.
  cbn [QArith_base.Qnum QArith_base.Qden].
  replace (0 * Z.pos d <=? n * 1)%Z with (negb (n <? 0)%Z)
    by (rewrite Z.ltb_antisym, negb_involutive; f_equal; lia).
  rewrite negb_involutive.
  destruct (n <? 0)%Z eqn:Hneg;
    unfold WavEncoder.times, WavEncoder.toInt16, WavEncoder.truncate,
      QArith_base.Qmult, QArith_base.inject_Z;
    cbn [QArith_base.Qnum QArith_base.Qden]; rewrite Pos.mul_1_r.
  - destruct (quot_scaled_bounds n (Z.pos d) 32768) as [Hb _]; try lia.
    rewrite Z.mod_small by lia. lia.
  - destruct (quot_scaled_bounds n (Z.pos d) 32767) as [Hb _]; try lia.
    rewrite Z.mod_small by lia. lia.
Qed.

Lemma div_cross (a b c d : Z) :
  (0 < b)%Z -> (0 < d)%Z -> (0 <= a)%Z -> (a * d <= c * b)%Z -> (a / b <= c / d)%Z.
Proof.
  intros Hb Hd Ha H. apply Z.div_le_lower_bound; [lia|].
  pose proof (Z.mul_div_le a b Hb). nia.
Qed.

Lemma quot_negative (a b : Z) :
  (a <= 0)%Z -> (0 < b)%Z -> Z.quot a b = (- ((- a) / b))%Z.
Proof.
  intros Ha Hb. rewrite <- Z.quot_div_nonneg by lia.
  rewrite Z.quot_opp_l by lia. lia.
Qed.

Lemma quot_cross (a b c d : Z) :
  (0 < b)%Z -> (0 < d)%Z -> (a * d <= c * b)%Z -> (Z.quot a b <= Z.quot c d)%Z.
Proof.
  intros Hb Hd H.
  destruct (Z.lt_ge_cases a 0) as [Ha|Ha], (Z.lt_ge_cases c 0) as [Hc|Hc].
  - rewrite (quot_negative a b), (quot_negative c d) by lia.
    apply Z.opp_le_mono. rewrite !Z.opp_involutive.
    apply div_cross; lia.
  - transitivity 0%Z.
    + rewrite (quot_negative a b) by lia.
      pose proof (Z.div_pos (- a) b ltac:(lia) Hb). lia.
    + rewrite Z.quot_div_nonneg by lia. apply Z.div_pos; lia.
  - nia.
  - rewrite !Z.quot_div_nonneg by lia. apply div_cross; lia.
Qed.

Lemma pcm_monotone p q :
  QArith_base.Qle p q ->
  (pcm (WavEncoder.Finite p) <= pcm (WavEncoder.Finite q))%Z.
Proof.
  unfold QArith_base.Qle. rewrite !pcm_finite. cbv zeta.
  destruct p as [np dp], q as [nq dq]. cbn [QArith_base.Qnum QArith_base.Qden].
  intros Hle.
  destruct (Z.leb_spec (Z.pos dp) np), (Z.leb_spec (Z.pos dq) nq); try lia.
  - nia.
  - destruct (Z.leb_spec np (- Z.pos dp)); [lia|].
    destruct (Z.ltb_spec np 0).
    + destruct (quot_scaled_bounds np (Z.pos dp) 32768); lia.
    + destruct (quot_scaled_bounds np (Z.pos dp) 32767); lia.
  - destruct (Z.leb_spec np (- Z.pos dp)), (Z.leb_spec nq (- Z.pos dq)); try lia.
    + destruct (Z.ltb_spec nq 0).
      * destruct (quot_scaled_bounds nq (Z.pos dq) 32768); lia.
      * destruct (quot_scaled_bounds nq (Z.pos dq) 32767); lia.
    + nia.
    + destruct (Z.ltb_spec np 0), (Z.ltb_spec nq 0).
      * apply quot_cross; nia.
      * destruct (quot_scaled_bounds np (Z.pos dp) 32768) as [_ [Hp1 _]]; try lia.
        destruct (quot_scaled_bounds nq (Z.pos dq) 32767) as [_ [_ Hq2]]; lia.
      * nia.
      * apply quot_cross; nia.
Qed.

(** Clamped and scaled, a finite sample is a number whose integer part
    fits sixteen bits. *)
Lemma scaled_fits q :
  exists r,
    WavEncoder.scaled (WavEncoder.Finite q) = WavEncoder.Finite r
    /\ (-32768 <= WavEncoder.truncate r <= 32767)%Z.
Proof.
  destruct q as [n d]. unfold WavEncoder.scaled, WavEncoder.min, WavEncoder.max,
    WavEncoder.lessThan, QArith_base.Qle_bool, QArith_base.inject_Z.
  cbn [QArith_base.Qnum QArith_base.Qden].
  replace (1 * Z.pos d <=? n * 1)%Z with (Z.pos d <=? n)%Z by (f_equal; lia).
  destruct (Z.pos d <=? n)%Z eqn:Hhigh; cbn [negb];
    [eexists; split; [reflexivity | vm_compute; split; discriminate]|].
  apply Z.leb_gt in Hhigh.
  cbn [QArith_base.Qnum QArith_base.Qden].
  replace (n * 1 <=? -1 * Z.pos d)%Z with (n <=? - Z.pos d)%Z by (f_equal; lia).
  destruct (n <=? - Z.pos d)%Z eqn:Hlow; cbn [negb];
    [eexists; split; [reflexivity | vm_compute; split; discriminate]|].
  apply Z.leb_gt in Hlow.
  cbn [QArith_base.Qnum QArith_base.Qden].
  replace (0 * Z.pos d <=? n * 1)%Z with (negb (n <? 0)%Z)
    by (rewrite Z.ltb_antisym, negb_involutive; f_equal; lia).
  rewrite negb_involutive.
  destruct (n <? 0)%Z eqn:Hneg;
    (eexists; split; [reflexivity|]);
    unfold WavEncoder.truncate, QArith_base.Qmult, QArith_base.inject_Z;
    cbn [QArith_base.Qnum QArith_base.Qden]; rewrite Pos.mul_1_r.
  - destruct (quot_scaled_bounds n (Z.pos d) 32768) as [Hb _]; lia.
  - destruct (quot_scaled_bounds n (Z.pos d) 32767) as [Hb _]; lia.
Qed.

(** X24.  The sixteen-bit conversion of the encoder never wraps around:
    the value stored for a finite sample is the integer part of the
    clamped and scaled sample itself, between -32768 and 32767, and a
    louder sample is never stored as a lower value.  Samples at or above 1
    are stored as 32767, samples at or below -1 as -32768. *)
Theorem samples_never_wrap :
  forall p q,
    QArith_base.Qle p q ->
    (pcm (WavEncoder.Finite p) <= pcm (WavEncoder.Finite q))%Z
    /\ (-32768 <= pcm (WavEncoder.Finite p))%Z
    /\ (pcm (WavEncoder.Finite q) <= 32767)%Z
    /\ (exists r, WavEncoder.scaled (WavEncoder.Finite q) = WavEncoder.Finite r
                  /\ pcm (WavEncoder.Finite q) = WavEncoder.truncate r)
    /\ (QArith_base.Qle (QArith_base.inject_Z 1) p ->
        pcm (WavEncoder.Finite q) = 32767%Z)
    /\ (QArith_base.Qle q (QArith_base.inject_Z (-1)) ->
        pcm (WavEncoder.Finite p) = (-32768)%Z).
Proof.
  intros p q Hle.
  assert (Hfit : forall x,
             exists r, WavEncoder.scaled (WavEncoder.Finite x) = WavEncoder.Finite r
                       /\ pcm (WavEncoder.Finite x) = WavEncoder.truncate r
                       /\ (-32768 <= pcm (WavEncoder.Finite x) <= 32767)%Z).
  { intros x. destruct (scaled_fits x) as [r [Hr Hb]]. exists r.
    split; [exact Hr|]. unfold pcm. rewrite Hr. unfold WavEncoder.toInt16.
    rewrite Z.mod_small by lia. split; lia. }
  split; [exact (pcm_monotone p q Hle)|].
  destruct (Hfit p) as [rp [_ [_ Hbp]]]. destruct (Hfit q) as [rq [Hrq [Htq Hbq]]].
  split; [lia|]. split; [lia|]. split; [now exists rq|].
  unfold QArith_base.Qle in *. rewrite !pcm_finite. cbv zeta.
  destruct p as [np dp], q as [nq dq].
  cbn [QArith_base.Qnum QArith_base.Qden QArith_base.inject_Z] in *.
  split; intros Hend.
  - replace (Z.pos dq <=? nq)%Z with true; [reflexivity|].
    symmetry. apply Z.leb_le. nia.
  - replace (Z.pos dp <=? np)%Z with false by (symmetry; apply Z.leb_gt; nia).
    replace (np <=? - Z.pos dp)%Z with true; [reflexivity|].
    symmetry. apply Z.leb_le. nia.
Qed.

Lemma samples_never_wrap_witness :
  (pcm (WavEncoder.Finite (QArith_base.Qmake (-3) 2))
   <= pcm (WavEncoder.Finite (QArith_base.Qmake 1 3)))%Z
  /\ pcm (WavEncoder.Finite (QArith_base.Qmake (-3) 2)) = (-32768)%Z
  /\ pcm (WavEncoder.Finite (QArith_base.Qmake 1 3)) = 10922%Z.
Proof.
  assert (Hle : QArith_base.Qle (QArith_base.Qmake (-3) 2) (QArith_base.Qmake 1 3))
    by (vm_compute; discriminate).
  destruct (samples_never_wrap _ _ Hle) as [Hmono _].
  split; [exact Hmono|]. split; reflexivity.
Defined.

(** X25.  The converter written out: [convertWebMToMP3] on a recording
    that decodes resolves with a Blob of type 'audio/wav' whose size is 44
    bytes plus two bytes per sample, so that whatever [generateVideo]
    uploads as audio is sent as 'audio/x-wav' and has that size.  The name
    notwithstanding, no MP3 is produced. *)
Theorem converted_audio_is_wav :
  forall env s fuel buffer webmBlob,
    WavEncoder.buffer_length buffer < fuel ->
    getAudioBlob env = Some webmBlob ->
    decoded env = WavEncoder.convertToWAV fuel (Ok buffer) ->
    let wav :=
      mkBlob "audio/wav"
        (WavEncoder.buffer_length buffer * WavEncoder.numberOfChannels buffer * 2 + 44)
    in
    run (AudioConverter.convertWebMToMP3 (getAudioBlob env) (decoded env)) s
    = mkRun (Resolved wav) s [DecodeAudio (Some webmBlob)]
    /\ forall contentType body,
         In (HeyGenUpload contentType body) (trace (run (generateVideo env) s)) ->
         contentType = "audio/x-wav" /\ body = wav.
Proof.
  intros env s fuel buffer webmBlob Hfuel Hblob Hdecoded wav.
  assert (Hwav : decoded env = Ok wav).
  { rewrite Hdecoded. unfold WavEncoder.convertToWAV.
    rewrite (audioBufferToWav_done buffer fuel Hfuel).
    unfold WavEncoder.wavBlob. rewrite length_app, length_interleaved.
    rewrite length_header. subst wav. do 2 f_equal. lia. }
  split.
  - unfold run, AudioConverter.convertWebMToMP3. rewrite Hblob, Hwav. reflexivity.
  - intros contentType body Hin. unfold run in Hin.
    destruct (generateVideo_upload env s contentType body Hin)
      as [_ [Hbody [-> _]]].
    rewrite Hwav in Hbody. injection Hbody as <-. now split.
Qed.

Lemma converted_audio_is_wav_witness :
  let env :=
    mkEnv (Some Sample.recording) (Some Sample.anna) None true None
      "2025-01-01T00:00:00.000Z" Sample.transcribed
      (WavEncoder.convertToWAV 4 (Ok sampleBuffer)) Sample.asset
      (HttpSuccess "job-1") [HttpSuccess Sample.completed] in
  run (AudioConverter.convertWebMToMP3 (getAudioBlob env) (decoded env)) empty
  = mkRun (Resolved (mkBlob "audio/wav" 56)) empty
      [DecodeAudio (Some Sample.recording)].
Proof.
  intros env.
  assert (Hfuel : WavEncoder.buffer_length sampleBuffer < 4) by (simpl; lia).
  exact (proj1 (converted_audio_is_wav env empty 4 sampleBuffer Sample.recording
                  Hfuel eq_refl eq_refl)).
Defined.
